(** * Page-replacement policies (LRU, Clock, Random): a shallow embedding

    The three memory-management units of [lrummu.py], [clockmmu.py] and
    [randmmu.py] are Python classes whose methods mutate [self] and may
    raise.  Each method is rendered as a computation in a small
    state-and-exception monad: the object's fields are the state, and the
    state survives a raised exception, as a Python object does. *)

From Stdlib Require Import ZArith Lia.
From stdpp Require Import list strings pretty.
From Equations Require Import Equations.
From Equations.Prop Require Import Logic.

Local Open Scope Z_scope.
Set Warnings "-clear-no-such-hyp".

(** ** Python values and control *)

Module Py.

Inductive exn : Type :=
| ValueError
| IndexError
| KeyError
| ZeroDivisionError.

Inductive result (A : Type) : Type :=
| Ok (a : A)
| Raise (e : exn).
Arguments Ok {A} a.
Arguments Raise {A} e.

(** A method of an object of type [St]: it returns or raises, and in both
    cases leaves the (possibly mutated) object behind. *)
Definition M (St A : Type) : Type := St -> result A * St.

Definition ret {St A} (a : A) : M St A := fun s => (Ok a, s).
Definition raise {St A} (e : exn) : M St A := fun s => (Raise e, s).
Definition bind {St A B} (c : M St A) (k : A -> M St B) : M St B :=
  fun s => match c s with
           | (Ok a, s') => k a s'
           | (Raise e, s') => (Raise e, s')
           end.
Definition get {St} : M St St := fun s => (Ok s, s).
Definition modify {St} (f : St -> St) : M St unit := fun s => (Ok tt, f s).
Definition lift {St A} (r : result A) : M St A := fun s => (r, s).
Definition when {St} (b : bool) (c : M St unit) : M St unit :=
  if b then c else ret tt.

(** [len(l)] *)
Definition len {A} (l : list A) : Z := Z.of_nat (length l).

(** Position designated by the subscript [i] of a sequence of length
    [n]: negative subscripts count from the end. *)
Definition index (n : Z) (i : Z) : option nat :=
  if 0 <=? i then (if i <? n then Some (Z.to_nat i) else None)
  else (if 0 <=? n + i then Some (Z.to_nat (n + i)) else None).

(** [l[i]] *)
Definition list_getitem {A} (l : list A) (i : Z) : result A :=
  match index (len l) i with
  | Some n => match l !! n with Some x => Ok x | None => Raise IndexError end
  | None => Raise IndexError
  end.

(** [l[i] = x] *)
Definition list_setitem {A} (l : list A) (i : Z) (x : A) : result (list A) :=
  match index (len l) i with
  | Some n => Ok (<[n := x]> l)
  | None => Raise IndexError
  end.

(** [a % b] on integers: the sign follows the divisor, as [Z.modulo]. *)
Definition mod_ (a b : Z) : result Z :=
  if b =? 0 then Raise ZeroDivisionError else Ok (a mod b).

(** A [dict] keyed by integers.  Python dictionaries iterate in insertion
    order, which [min] and [list(d.keys())] observe, so the entries are
    kept as a list in that order. *)
Abbreviation dict V := (list (Z * V)).

Definition keys {V} (d : dict V) : list Z := d.*1.
Arguments keys {V} d : simpl never.

(** [k in d] *)
Fixpoint contains {V} (d : dict V) (k : Z) : bool :=
  match d with
  | [] => false
  | (k', _) :: r => if k' =? k then true else contains r k
  end.

Fixpoint dict_get {V} (d : dict V) (k : Z) : option V :=
  match d with
  | [] => None
  | (k', v) :: r => if k' =? k then Some v else dict_get r k
  end.

(** [d[k]] *)
Definition dict_getitem {V} (d : dict V) (k : Z) : result V :=
  match dict_get d k with Some v => Ok v | None => Raise KeyError end.

(** [d[k] = v]: an existing key keeps its place, a new one goes last. *)
Fixpoint dict_setitem {V} (d : dict V) (k : Z) (v : V) : dict V :=
  match d with
  | [] => [(k, v)]
  | (k', v') :: r =>
      if k' =? k then (k', v) :: r else (k', v') :: dict_setitem r k v
  end.

Fixpoint dict_remove {V} (d : dict V) (k : Z) : dict V :=
  match d with
  | [] => []
  | (k', v') :: r => if k' =? k then r else (k', v') :: dict_remove r k
  end.

(** [del d[k]] *)
Definition dict_delitem {V} (d : dict V) (k : Z) : result (dict V) :=
  if contains d k then Ok (dict_remove d k) else Raise KeyError.

(** [min(l, key=key)]: the first element whose key is minimal. *)
Fixpoint min_from {A} (key : A -> Z) (best : A) (l : list A) : A :=
  match l with
  | [] => best
  | x :: r => min_from key (if key x <? key best then x else best) r
  end.

Definition min_by {A} (key : A -> Z) (l : list A) : result A :=
  match l with
  | [] => Raise ValueError
  | x :: r => Ok (min_from key x r)
  end.

End Py.

Import Py.

Declare Scope py_scope.
Delimit Scope py_scope with py.
Notation "x <- c ;; k" := (bind c (fun x => k))
  (at level 100, c at next level, right associativity) : py_scope.
Notation "c ;; k" := (bind c (fun _ => k))
  (at level 100, right associativity) : py_scope.
Local Open Scope py_scope.

(** ** The memory-management-unit interface ([mmu.MMU]) *)

Class MMU (St : Type) : Type := {
  read_memory : Z -> M St unit;
  write_memory : Z -> M St unit;
  get_total_disk_reads : St -> Z;
  get_total_disk_writes : St -> Z;
  get_total_page_faults : St -> Z
}.

(** One event of a trace, as the driver feeds it to the unit. *)
Inductive access : Type :=
| Read (page_number : Z)
| Write (page_number : Z).

Definition page_of (a : access) : Z :=
  match a with Read p => p | Write p => p end.

Definition is_write_of (a : access) : bool :=
  match a with Read _ => false | Write _ => true end.

Definition perform {St} `{MMU St} (a : access) : M St unit :=
  match a with
  | Read p => read_memory p
  | Write p => write_memory p
  end.

(** The driver's loop: events in order, an exception ends the run. *)
Fixpoint run {St} `{MMU St} (accs : list access) : M St unit :=
  match accs with
  | [] => ret tt
  | a :: rest => perform a ;; run rest
  end.

(** The unit as the driver finds it once the events [accs] are through. *)
Definition after {St} `{MMU St} (accs : list access) (s : St) : St :=
  (run accs s).2.

(** ** Vocabulary of the properties

    They are stated over the resident set of a unit (the pages that hold a
    frame) and the dirty flag of the frame of a page, which each policy
    provides for its own representation. *)

Section Vocabulary.
Context {St : Type} `{MMU St}.
Variable resident : St -> list Z.
Variable dirty_of : St -> Z -> bool.

(** 1 when the page is not resident in [s], 0 when it is. *)
Definition miss (s : St) (p : Z) : Z :=
  if bool_decide (p ∈ resident s) then 0 else 1.

(** The number of accesses of [accs], processed from [s] on, whose page
    is not resident at the moment the access is processed. *)
Fixpoint misses (accs : list access) (s : St) : Z :=
  match accs with
  | [] => 0
  | a :: rest => miss s (page_of a) + misses rest (perform a s).2
  end.

(** The pages that were resident in [s] and no longer are in [s']. *)
Definition evicted (s s' : St) : list Z :=
  filter (fun q => q ∉ resident s') (resident s).

(** Write-back accounting of one step from [s] to [s']: either no page
    left the resident set and the counter stands, or exactly one page
    left it and the counter moved by one exactly if its frame was dirty. *)
Definition write_back (s s' : St) : Prop :=
  (evicted s s' = [] /\
   get_total_disk_writes s' = get_total_disk_writes s) \/
  (exists q, evicted s s' = [q] /\
     get_total_disk_writes s' =
     get_total_disk_writes s + (if dirty_of s q then 1 else 0)).

(** Fault accounting of one access to page [p] from [s] to [s']. *)
Definition fault_count (s : St) (p : Z) (s' : St) : Prop :=
  (p ∈ resident s /\
   get_total_page_faults s' = get_total_page_faults s /\
   get_total_disk_reads s' = get_total_disk_reads s) \/
  ((p ∉ resident s) /\
   get_total_page_faults s' = get_total_page_faults s + 1 /\
   get_total_disk_reads s' = get_total_disk_reads s + 1).

(** The three counters read the same in [s] and [s']. *)
Definition same_counters (s s' : St) : Prop :=
  get_total_disk_reads s' = get_total_disk_reads s /\
  get_total_disk_writes s' = get_total_disk_writes s /\
  get_total_page_faults s' = get_total_page_faults s.

(** No resident frame is dirty. *)
Definition all_clean (s : St) : Prop :=
  forall q, q ∈ resident s -> dirty_of s q = false.

(** The run of [accs] from [s0] returns normally and leaves a fault
    counter equal to the number of accesses that missed, which is at
    least one as soon as there is an access. *)
Definition counts_faults (accs : list access) (s0 : St) : Prop :=
  run accs s0 = (Ok tt, after accs s0) /\
  get_total_page_faults (after accs s0) = misses accs s0 /\
  (accs <> [] -> 1 <= get_total_page_faults (after accs s0)).

(** At most [cap] pages are resident, none of them twice. *)
Definition within_capacity (cap : Z) (s : St) : Prop :=
  len (resident s) <= cap /\ NoDup (resident s).

(** From [s0] on, every access does its write-back accounting, and a
    trace of reads leaves the write counter at zero after each of its
    prefixes. *)
Definition writes_back (s0 : St) : Prop :=
  (forall accs s a,
      run accs s0 = (Ok tt, s) ->
      write_back s (perform a s).2) /\
  (forall accs n,
      Forall (fun a => is_write_of a = false) accs ->
      get_total_disk_writes (after (take n accs) s0) = 0).

(** From [s0] on, every access returns normally with its page
    resident. *)
Definition loads_page (s0 : St) : Prop :=
  forall accs s a,
    run accs s0 = (Ok tt, s) ->
    exists s', perform a s = (Ok tt, s') /\ page_of a ∈ resident s'.

End Vocabulary.

(** ** LRU ([lrummu.py]) *)

Module Lru.

Record frame : Type := Frame { dirty : bool; last_used : Z }.

Record t : Type := Mk {
  number_frames : Z;
  frames : dict frame;
  page_faults : Z;
  disk_reads : Z;
  disk_writes : Z;
  debug : bool;
  recency_tracker : Z
}.

Definition with_frames (d : dict frame) (s : t) : t :=
  Mk (number_frames s) d (page_faults s) (disk_reads s) (disk_writes s)
     (debug s) (recency_tracker s).
Definition with_page_faults (n : Z) (s : t) : t :=
  Mk (number_frames s) (frames s) n (disk_reads s) (disk_writes s)
     (debug s) (recency_tracker s).
Definition with_disk_reads (n : Z) (s : t) : t :=
  Mk (number_frames s) (frames s) (page_faults s) n (disk_writes s)
     (debug s) (recency_tracker s).
Definition with_disk_writes (n : Z) (s : t) : t :=
  Mk (number_frames s) (frames s) (page_faults s) (disk_reads s) n
     (debug s) (recency_tracker s).
Definition with_debug (b : bool) (s : t) : t :=
  Mk (number_frames s) (frames s) (page_faults s) (disk_reads s)
     (disk_writes s) b (recency_tracker s).
Definition with_recency_tracker (n : Z) (s : t) : t :=
  Mk (number_frames s) (frames s) (page_faults s) (disk_reads s)
     (disk_writes s) (debug s) n.

(** [LruMMU(frames)]: the constructor checks nothing. *)
Definition init (frames : Z) : result t :=
  Ok (Mk frames [] 0 0 0 false 0).

Definition set_debug : M t unit := modify (with_debug true).
Definition reset_debug : M t unit := modify (with_debug false).

(** [self.frames[p][field] = ...] on an entry [p] of the dictionary. *)
Definition update_frame (p : Z) (g : frame -> frame) : M t unit :=
  s <- get ;;
  f <- lift (dict_getitem (frames s) p) ;;
  modify (with_frames (dict_setitem (frames s) p (g f))).

(** [lambda p: self.frames[p]["last_used"]]; [min] applies it to the
    dictionary's own keys only. *)
Definition last_used_of (d : dict frame) (p : Z) : Z :=
  match dict_get d p with Some f => last_used f | None => 0 end.

Definition access_memory (page_number : Z) (is_write : bool) : M t unit :=
  modify (fun s => with_recency_tracker (recency_tracker s + 1) s) ;;
  s <- get ;;
  if contains (frames s) page_number then
    when is_write
      (update_frame page_number (fun f => Frame true (last_used f))) ;;
    s <- get ;;
    update_frame page_number
      (fun f => Frame (dirty f) (recency_tracker s))
  else
    modify (fun s => with_page_faults (page_faults s + 1) s) ;;
    modify (fun s => with_disk_reads (disk_reads s + 1) s) ;;
    s <- get ;;
    when (len (frames s) >=? number_frames s)
      (removing_page <-
         lift (min_by (last_used_of (frames s)) (keys (frames s))) ;;
       removing_frame <- lift (dict_getitem (frames s) removing_page) ;;
       when (dirty removing_frame)
         (modify (fun s => with_disk_writes (disk_writes s + 1) s)) ;;
       s <- get ;;
       d <- lift (dict_delitem (frames s) removing_page) ;;
       modify (with_frames d)) ;;
    s <- get ;;
    modify (with_frames
              (dict_setitem (frames s) page_number
                 (Frame is_write (recency_tracker s)))).

#[global] Instance mmu : MMU t := {
  read_memory p := access_memory p false;
  write_memory p := access_memory p true;
  get_total_disk_reads := disk_reads;
  get_total_disk_writes := disk_writes;
  get_total_page_faults := page_faults
}.

(** The resident set: the pages that have a frame. *)
Definition resident (s : t) : list Z := keys (frames s).

(** The dirty flag of the frame of page [p] (unset if it has none). *)
Definition dirty_of (s : t) (p : Z) : bool :=
  match dict_get (frames s) p with Some f => dirty f | None => false end.

End Lru.

(** ** Clock ([clockmmu.py]) *)

Module Clock.

Record frame : Type := Frame { page : Z; dirty : bool; reference : Z }.

Record t : Type := Mk {
  number_frames : Z;
  frames : list frame;
  clock_hand : Z;
  page_faults : Z;
  disk_reads : Z;
  disk_writes : Z;
  debug : bool
}.

Definition with_frames (l : list frame) (s : t) : t :=
  Mk (number_frames s) l (clock_hand s) (page_faults s) (disk_reads s)
     (disk_writes s) (debug s).
Definition with_clock_hand (h : Z) (s : t) : t :=
  Mk (number_frames s) (frames s) h (page_faults s) (disk_reads s)
     (disk_writes s) (debug s).
Definition with_page_faults (n : Z) (s : t) : t :=
  Mk (number_frames s) (frames s) (clock_hand s) n (disk_reads s)
     (disk_writes s) (debug s).
Definition with_disk_reads (n : Z) (s : t) : t :=
  Mk (number_frames s) (frames s) (clock_hand s) (page_faults s) n
     (disk_writes s) (debug s).
Definition with_disk_writes (n : Z) (s : t) : t :=
  Mk (number_frames s) (frames s) (clock_hand s) (page_faults s)
     (disk_reads s) n (debug s).
Definition with_debug (b : bool) (s : t) : t :=
  Mk (number_frames s) (frames s) (clock_hand s) (page_faults s)
     (disk_reads s) (disk_writes s) b.

(** [ClockMMU(frames)]: the constructor checks nothing. *)
Definition init (frames : Z) : result t :=
  Ok (Mk frames [] 0 0 0 0 false).

Definition set_debug : M t unit := modify (with_debug true).
Definition reset_debug : M t unit := modify (with_debug false).

(** The hit loop [for frame in self.frames: if frame["page"] == p: ...]:
    the first frame holding the page is marked in place; [None] when the
    loop runs to its end without a match. *)
Fixpoint hit_scan (page_number : Z) (is_write : bool) (l : list frame)
  : option (list frame) :=
  match l with
  | [] => None
  | f :: r =>
      if page f =? page_number
      then Some (Frame (page f) (if is_write then true else dirty f) 1 :: r)
      else option_map (cons f) (hit_scan page_number is_write r)
  end.

Inductive ctl : Type :=
| Continue
| Return (removing_page_index : Z).

(** One turn of the [while True] loop of [find_removing_page]; [frame]
    is the very object stored at [self.frames[self.clock_hand]], so
    clearing its bit rewrites that slot. *)
Definition inspect_slot : M t ctl :=
  s <- get ;;
  frame <- lift (list_getitem (frames s) (clock_hand s)) ;;
  if reference frame =? 0 then
    let removing_page_index := clock_hand s in
    h <- lift (mod_ (clock_hand s + 1) (number_frames s)) ;;
    modify (with_clock_hand h) ;;
    ret (Return removing_page_index)
  else
    l <- lift (list_setitem (frames s) (clock_hand s)
                 (Frame (page frame) (dirty frame) 0)) ;;
    modify (with_frames l) ;;
    h <- lift (mod_ (clock_hand s + 1) (number_frames s)) ;;
    modify (with_clock_hand h) ;;
    ret Continue.

(** Number of frames whose reference bit is set: what every turn of the
    loop that does not leave it decreases. *)
Definition count_referenced (l : list frame) : nat :=
  length (filter (fun f => reference f <> 0) l).

Definition referenced (s : t) : nat := count_referenced (frames s).

Lemma list_getitem_Ok {A} (l : list A) (i : Z) (x : A) :
  list_getitem l i = Ok x ->
  exists n, index (len l) i = Some n /\ l !! n = Some x.
Proof.
  unfold list_getitem. destruct (index (len l) i) as [n|]; [|discriminate].
  destruct (l !! n) as [y|] eqn:E; [|discriminate].
  intros [= ->]. eauto.
Qed.

Lemma filter_insert_lt (l : list frame) (n : nat) (x y : frame) :
  l !! n = Some x -> reference x <> 0 -> reference y = 0 ->
  (count_referenced (<[n := y]> l) < count_referenced l)%nat.
Proof.
  unfold count_referenced. revert n. induction l as [|a l IH]; intros [|n] Hl Hx Hy;
    simpl in *; try discriminate.
  - injection Hl as ->.
    rewrite filter_cons_False by tauto.
    rewrite filter_cons_True by done. simpl. lia.
  - specialize (IH n Hl Hx Hy).
    destruct (decide (reference a <> 0)).
    + rewrite !filter_cons_True by done. simpl. lia.
    + rewrite !filter_cons_False by done. done.
Qed.

Lemma inspect_slot_Continue (s s' : t) :
  inspect_slot s = (Ok Continue, s') ->
  (referenced s' < referenced s)%nat.
Proof.
  unfold inspect_slot, bind, get, lift, modify, ret, referenced.
  destruct (list_getitem (frames s) (clock_hand s)) as [f|] eqn:Hget;
    [|discriminate].
  destruct (reference f =? 0) eqn:Href.
  - destruct (mod_ _ _); discriminate.
  - apply list_getitem_Ok in Hget as (n & Hn & Hf).
    unfold list_setitem. rewrite Hn.
    destruct (mod_ _ _); [|discriminate].
    intros [= <-]. simpl.
    apply (filter_insert_lt _ _ f); [done|lia|done].
Qed.

(** [find_removing_page]: the loop is repeated for as long as a turn
    asks to continue. *)
Equations? find_removing_page (s : t) : result Z * t
  by wf (referenced s) lt :=
  find_removing_page s with inspect (inspect_slot s) := {
    | exist _ (Ok Continue, s') H => find_removing_page s'
    | exist _ (Ok (Return removing_page_index), s') H =>
        (Ok removing_page_index, s')
    | exist _ (Raise e, s') H => (Raise e, s') }.
Proof. by apply inspect_slot_Continue. Qed.

Definition access_memory (page_number : Z) (is_write : bool) : M t unit :=
  s <- get ;;
  match hit_scan page_number is_write (frames s) with
  | Some l => modify (with_frames l)
  | None =>
      modify (fun s => with_page_faults (page_faults s + 1) s) ;;
      modify (fun s => with_disk_reads (disk_reads s + 1) s) ;;
      s <- get ;;
      if len (frames s) <? number_frames s then
        modify (with_frames
                  (frames s ++ [Frame page_number is_write 1]))
      else
        removing_page_index <- find_removing_page ;;
        s <- get ;;
        removing_page <- lift (list_getitem (frames s) removing_page_index) ;;
        when (dirty removing_page)
          (modify (fun s => with_disk_writes (disk_writes s + 1) s)) ;;
        s <- get ;;
        l <- lift (list_setitem (frames s) removing_page_index
                     (Frame page_number is_write 1)) ;;
        modify (with_frames l)
  end.

#[global] Instance mmu : MMU t := {
  read_memory p := access_memory p false;
  write_memory p := access_memory p true;
  get_total_disk_reads := disk_reads;
  get_total_disk_writes := disk_writes;
  get_total_page_faults := page_faults
}.

(** The loop of [find_removing_page] watched for [n] turns: its outcome
    if it leaves the loop within them. *)
Fixpoint find_removing_page_within (n : nat) (s : t)
  : option (result Z * t) :=
  match n with
  | O => None
  | S n =>
      match inspect_slot s with
      | (Ok Continue, s') => find_removing_page_within n s'
      | (Ok (Return removing_page_index), s') =>
          Some (Ok removing_page_index, s')
      | (Raise e, s') => Some (Raise e, s')
      end
  end.

(** The unit as the search finds it: the fault is already counted. *)
Definition faulted (s : t) : t :=
  Mk (number_frames s) (frames s) (clock_hand s) (page_faults s + 1)
     (disk_reads s + 1) (disk_writes s) (debug s).

(** The resident set: the pages held by the frames. *)
Definition resident (s : t) : list Z := page <$> frames s.

(** What a frame says of its page besides the reference bit. *)
Definition content (f : frame) : Z * bool := (page f, dirty f).

(** The dirty flag of the frame of page [p] (unset if it has none). *)
Definition dirty_of (s : t) (p : Z) : bool :=
  match dict_get (content <$> frames s) p with
  | Some b => b
  | None => false
  end.

End Clock.

Example clock_scenario_run :
  run [Read 1; Read 2; Read 3] (Clock.Mk 2 [] 0 0 0 0 false) =
  (Ok tt, Clock.Mk 2 [Clock.Frame 3 false 1; Clock.Frame 2 false 0] 1 3 3 0 false).
Proof. reflexivity. Qed.

(** ** Random ([randmmu.py]) *)

Module Rand.

Record frame : Type := Frame { dirty : bool }.

(** Besides the fields of the object, the state holds the module-level
    generator [random] the policy draws from, as the sequence of raw
    numbers it has yet to produce. *)
Record t : Type := Mk {
  number_frames : Z;
  frames : dict frame;
  page_faults : Z;
  disk_reads : Z;
  disk_writes : Z;
  debug : bool;
  random : nat -> nat
}.

Definition with_frames (d : dict frame) (s : t) : t :=
  Mk (number_frames s) d (page_faults s) (disk_reads s) (disk_writes s)
     (debug s) (random s).
Definition with_page_faults (n : Z) (s : t) : t :=
  Mk (number_frames s) (frames s) n (disk_reads s) (disk_writes s)
     (debug s) (random s).
Definition with_disk_reads (n : Z) (s : t) : t :=
  Mk (number_frames s) (frames s) (page_faults s) n (disk_writes s)
     (debug s) (random s).
Definition with_disk_writes (n : Z) (s : t) : t :=
  Mk (number_frames s) (frames s) (page_faults s) (disk_reads s) n
     (debug s) (random s).
Definition with_debug (b : bool) (s : t) : t :=
  Mk (number_frames s) (frames s) (page_faults s) (disk_reads s)
     (disk_writes s) b (random s).
Definition with_random (g : nat -> nat) (s : t) : t :=
  Mk (number_frames s) (frames s) (page_faults s) (disk_reads s)
     (disk_writes s) (debug s) g.

(** [RandMMU(frames)]: the constructor checks nothing; [g] is the state
    the generator happens to be in. *)
Definition init (frames : Z) (g : nat -> nat) : result t :=
  Ok (Mk frames [] 0 0 0 false g).

Definition set_debug : M t unit := modify (with_debug true).
Definition reset_debug : M t unit := modify (with_debug false).

(** [random.choice(seq)]: [seq[randbelow(len(seq))]], and [IndexError]
    on an empty sequence.  The draw below [n] is the generator's next
    raw number reduced modulo [n], so every position can come out. *)
Definition chosen (r : nat) (seq : list Z) : Z :=
  nth (r mod length seq)%nat seq 0.

Definition choice (seq : list Z) : M t Z :=
  s <- get ;;
  match seq with
  | [] => raise IndexError
  | _ :: _ =>
      modify (with_random (fun n => random s (S n))) ;;
      ret (chosen (random s O) seq)
  end.

Definition update_frame (p : Z) (g : frame -> frame) : M t unit :=
  s <- get ;;
  f <- lift (dict_getitem (frames s) p) ;;
  modify (with_frames (dict_setitem (frames s) p (g f))).

Definition access_memory (page_number : Z) (is_write : bool) : M t unit :=
  s <- get ;;
  if contains (frames s) page_number then
    when is_write (update_frame page_number (fun _ => Frame true))
  else
    modify (fun s => with_page_faults (page_faults s + 1) s) ;;
    modify (fun s => with_disk_reads (disk_reads s + 1) s) ;;
    s <- get ;;
    when (len (frames s) >=? number_frames s)
      (removing_page <- choice (keys (frames s)) ;;
       s <- get ;;
       removing_frame <- lift (dict_getitem (frames s) removing_page) ;;
       when (dirty removing_frame)
         (modify (fun s => with_disk_writes (disk_writes s + 1) s)) ;;
       s <- get ;;
       d <- lift (dict_delitem (frames s) removing_page) ;;
       modify (with_frames d)) ;;
    s <- get ;;
    modify (with_frames (dict_setitem (frames s) page_number
                           (Frame is_write))).

#[global] Instance mmu : MMU t := {
  read_memory p := access_memory p false;
  write_memory p := access_memory p true;
  get_total_disk_reads := disk_reads;
  get_total_disk_writes := disk_writes;
  get_total_page_faults := page_faults
}.

(** The resident set: the pages that have a frame. *)
Definition resident (s : t) : list Z := keys (frames s).

(** The dirty flag of the frame of page [p] (unset if it has none). *)
Definition dirty_of (s : t) (p : Z) : bool :=
  match dict_get (frames s) p with Some f => dirty f | None => false end.

End Rand.

Example rand_scenario_run (g : nat -> nat) :
  run [Write 1; Read 2] (Rand.Mk 1 [] 0 0 0 false g) =
  (Ok tt, Rand.Mk 1 [(2, Rand.Frame false)] 2 2 1 false (fun n => g (S n))).
Proof. reflexivity. Qed.

(** ** The debug output

    With [debug] set, the units print what they do.  The methods are
    rendered once more, this time with their [print] statements, as
    computations on the unit together with the lines written so far to
    the standard output. *)

Module Out.

(** The unit and the lines printed so far, oldest first. *)
Abbreviation world St := (St * list string)%type.

(** A statement that touches the unit only. *)
Definition self {St A} (c : M St A) : M (world St) A :=
  fun w => let (r, s) := c w.1 in (r, (s, w.2)).

(** [print(line)] *)
Definition print {St} (line : string) : M (world St) unit :=
  modify (fun w => (w.1, w.2 ++ [line])).

(** What an f-string makes of an integer and of a boolean. *)
Definition str (n : Z) : string := pretty n.
Definition str_bool (b : bool) : string := if b then "True" else "False".

(** The debug methods of a unit. *)
Class Debug (St : Type) := {
  set_debug : M St unit;
  reset_debug : M St unit
}.

(** What the driver may call on a unit. *)
Inductive call : Type :=
| Access (a : access)
| SetDebug
| ResetDebug.

Definition invoke {St} `{MMU St} `{Debug St} (c : call) : M St unit :=
  match c with
  | Access a => perform a
  | SetDebug => set_debug
  | ResetDebug => reset_debug
  end.

Fixpoint invoke_all {St} `{MMU St} `{Debug St} (cs : list call)
  : M St unit :=
  match cs with
  | [] => ret tt
  | c :: rest => invoke c ;; invoke_all rest
  end.

(** The accesses among the calls, and the debug flag the calls leave. *)
Definition accesses (cs : list call) : list access :=
  omap (fun c => match c with Access a => Some a | _ => None end) cs.

Definition debug_after (b : bool) (cs : list call) : bool :=
  fold_left (fun b c => match c with
                        | Access _ => b
                        | SetDebug => true
                        | ResetDebug => false
                        end) cs b.

(** The number of printed lines that start with [pre]. *)
Definition lines_with (pre : string) (out : list string) : Z :=
  len (List.filter (String.prefix pre) out).

End Out.

(** *** LRU with its output *)

Module LruOut.
Import Lru Out.

(** [if self.debug: ...] *)
Definition if_debug (c : M (world t) unit) : M (world t) unit :=
  s <- self get ;; when (debug s) c.

Definition access_memory (page_number : Z) (is_write : bool)
  : M (world t) unit :=
  self (modify (fun s => with_recency_tracker (recency_tracker s + 1) s)) ;;
  s <- self get ;;
  if contains (frames s) page_number then
    when is_write
      (self (update_frame page_number (fun f => Frame true (last_used f)))) ;;
    s <- self get ;;
    self (update_frame page_number
            (fun f => Frame (dirty f) (recency_tracker s))) ;;
    if_debug
      (s <- self get ;;
       f <- lift (dict_getitem (frames s) page_number) ;;
       print ("HIT: Page " +:+ str page_number +:+
              ". Dirty: " +:+ str_bool (dirty f)))
  else
    self (modify (fun s => with_page_faults (page_faults s + 1) s)) ;;
    self (modify (fun s => with_disk_reads (disk_reads s + 1) s)) ;;
    if_debug (print ("FAULT: Page " +:+ str page_number)) ;;
    s <- self get ;;
    when (len (frames s) >=? number_frames s)
      (removing_page <-
         lift (min_by (last_used_of (frames s)) (keys (frames s))) ;;
       removing_frame <- lift (dict_getitem (frames s) removing_page) ;;
       (if dirty removing_frame then
          self (modify (fun s => with_disk_writes (disk_writes s + 1) s)) ;;
          if_debug (print ("REMOVING: Dirty " +:+ str removing_page))
        else
          if_debug (print ("REMOVING: Clean " +:+ str removing_page))) ;;
       s <- self get ;;
       d <- lift (dict_delitem (frames s) removing_page) ;;
       self (modify (with_frames d))) ;;
    s <- self get ;;
    self (modify (with_frames
                    (dict_setitem (frames s) page_number
                       (Frame is_write (recency_tracker s))))) ;;
    if_debug (print ("LOADED: Page " +:+ str page_number +:+
                     ". Dirty: " +:+ str_bool is_write)).

#[global] Instance mmu : MMU (world t) := {
  read_memory p := access_memory p false;
  write_memory p := access_memory p true;
  get_total_disk_reads w := disk_reads w.1;
  get_total_disk_writes w := disk_writes w.1;
  get_total_page_faults w := page_faults w.1
}.

#[global] Instance debug_methods : Debug (world t) := {
  set_debug := self Lru.set_debug;
  reset_debug := self Lru.reset_debug
}.

End LruOut.

(** *** Random with its output *)

Module RandOut.
Import Rand Out.

(** [if self.debug: ...] *)
Definition if_debug (c : M (world t) unit) : M (world t) unit :=
  s <- self get ;; when (debug s) c.

Definition access_memory (page_number : Z) (is_write : bool)
  : M (world t) unit :=
  s <- self get ;;
  if contains (frames s) page_number then
    when is_write (self (update_frame page_number (fun _ => Frame true))) ;;
    if_debug
      (s <- self get ;;
       f <- lift (dict_getitem (frames s) page_number) ;;
       print ("HIT: Page " +:+ str page_number +:+
              ". Dirty: " +:+ str_bool (dirty f)))
  else
    self (modify (fun s => with_page_faults (page_faults s + 1) s)) ;;
    self (modify (fun s => with_disk_reads (disk_reads s + 1) s)) ;;
    if_debug (print ("FAULT: Page " +:+ str page_number)) ;;
    s <- self get ;;
    when (len (frames s) >=? number_frames s)
      (removing_page <- self (choice (keys (frames s))) ;;
       s <- self get ;;
       removing_frame <- lift (dict_getitem (frames s) removing_page) ;;
       (if dirty removing_frame then
          self (modify (fun s => with_disk_writes (disk_writes s + 1) s)) ;;
          if_debug (print ("REMOVING: Dirty " +:+ str removing_page))
        else
          if_debug (print ("REMOVING: Clean " +:+ str removing_page))) ;;
       s <- self get ;;
       d <- lift (dict_delitem (frames s) removing_page) ;;
       self (modify (with_frames d))) ;;
    s <- self get ;;
    self (modify (with_frames (dict_setitem (frames s) page_number
                                 (Frame is_write)))) ;;
    if_debug (print ("LOADED: Page " +:+ str page_number +:+
                     ". Dirty: " +:+ str_bool is_write)).

#[global] Instance mmu : MMU (world t) := {
  read_memory p := access_memory p false;
  write_memory p := access_memory p true;
  get_total_disk_reads w := disk_reads w.1;
  get_total_disk_writes w := disk_writes w.1;
  get_total_page_faults w := page_faults w.1
}.

#[global] Instance debug_methods : Debug (world t) := {
  set_debug := self Rand.set_debug;
  reset_debug := self Rand.reset_debug
}.

End RandOut.

(** *** Clock with its output *)

Module ClockOut.
Import Clock Out.

(** [if self.debug: ...] *)
Definition if_debug (c : M (world t) unit) : M (world t) unit :=
  s <- self get ;; when (debug s) c.

(** The hit loop once more, together with the frame object it stops at,
    as the loop has marked it. *)
Fixpoint hit_scan (page_number : Z) (is_write : bool) (l : list frame)
  : option (frame * list frame) :=
  match l with
  | [] => None
  | f :: r =>
      if page f =? page_number
      then
        let frame := Frame (page f) (if is_write then true else dirty f) 1 in
        Some (frame, frame :: r)
      else
        option_map (fun found => (found.1, f :: found.2))
          (hit_scan page_number is_write r)
  end.

Definition inspect_slot : M (world t) ctl :=
  s <- self get ;;
  frame <- lift (list_getitem (frames s) (clock_hand s)) ;;
  if reference frame =? 0 then
    let removing_page_index := clock_hand s in
    h <- lift (mod_ (clock_hand s + 1) (number_frames s)) ;;
    self (modify (with_clock_hand h)) ;;
    ret (Return removing_page_index)
  else
    l <- lift (list_setitem (frames s) (clock_hand s)
                 (Frame (page frame) (dirty frame) 0)) ;;
    self (modify (with_frames l)) ;;
    if_debug (print ("SECOND CHANCE: Page " +:+ str (page frame) +:+
                     ". Reference: 0")) ;;
    h <- lift (mod_ (clock_hand s + 1) (number_frames s)) ;;
    self (modify (with_clock_hand h)) ;;
    ret Continue.

(** What one turn of the loop prints from the unit [s]. *)
Definition second_chance_line (s : t) : list string :=
  match list_getitem (frames s) (clock_hand s) with
  | Ok frame =>
      if (reference frame =? 0) || negb (debug s) then []
      else ["SECOND CHANCE: Page " +:+ str (page frame) +:+ ". Reference: 0"]
  | Raise _ => []
  end.

(** A turn does to the unit what it does without the output. *)
Lemma inspect_slot_unit (s : t) (out : list string) :
  inspect_slot (s, out) =
  ((Clock.inspect_slot s).1,
   ((Clock.inspect_slot s).2, out ++ second_chance_line s)).
Proof.
  unfold inspect_slot, Clock.inspect_slot, second_chance_line, if_debug,
    self, print.
  destruct s as [nf l h pf dr dw dbg].
  cbv beta iota zeta delta
    [with_frames with_clock_hand number_frames frames page_faults
     disk_reads disk_writes debug clock_hand
     bind get modify lift ret raise when fst snd].
  destruct (list_getitem l h) as [f|e] eqn:Hget;
    [|by rewrite app_nil_r].
  apply list_getitem_Ok in Hget as (n & Hn & Hf).
  unfold list_setitem. rewrite Hn.
  destruct (reference f =? 0); cbn [orb].
  - destruct (mod_ (h + 1) nf); by rewrite app_nil_r.
  - destruct dbg; cbn [negb fst snd];
      destruct (mod_ (h + 1) nf); by rewrite ?app_nil_r.
Qed.

Lemma inspect_slot_out_Continue (w w' : world t) :
  inspect_slot w = (Ok Continue, w') ->
  (referenced w'.1 < referenced w.1)%nat.
Proof.
  destruct w as [s out]. rewrite inspect_slot_unit. intros [= Hr <-].
  apply Clock.inspect_slot_Continue. cbn [fst].
  destruct (Clock.inspect_slot s) as [r s']. simpl in *. by subst.
Qed.

Equations? find_removing_page (w : world t) : result Z * world t
  by wf (referenced w.1) lt :=
  find_removing_page w with inspect (inspect_slot w) := {
    | exist _ (Ok Continue, w') H => find_removing_page w'
    | exist _ (Ok (Return removing_page_index), w') H =>
        (Ok removing_page_index, w')
    | exist _ (Raise e, w') H => (Raise e, w') }.
Proof. by apply (inspect_slot_out_Continue _ _ H). Qed.

Definition access_memory (page_number : Z) (is_write : bool)
  : M (world t) unit :=
  s <- self get ;;
  match hit_scan page_number is_write (frames s) with
  | Some (frame, l) =>
      self (modify (with_frames l)) ;;
      if_debug (print ("HIT: Page " +:+ str page_number +:+
                       ". Dirty: " +:+ str_bool (dirty frame) +:+
                       ". Reference: 1"))
  | None =>
      self (modify (fun s => with_page_faults (page_faults s + 1) s)) ;;
      self (modify (fun s => with_disk_reads (disk_reads s + 1) s)) ;;
      if_debug (print ("FAULT: Page " +:+ str page_number)) ;;
      s <- self get ;;
      if len (frames s) <? number_frames s then
        self (modify (with_frames
                        (frames s ++ [Frame page_number is_write 1]))) ;;
        if_debug (print ("LOADED: Page " +:+ str page_number +:+
                         ". Dirty: " +:+ str_bool is_write +:+
                         ". Reference: 1 (Free slot)"))
      else
        removing_page_index <- find_removing_page ;;
        s <- self get ;;
        removing_page <- lift (list_getitem (frames s) removing_page_index) ;;
        (if dirty removing_page then
           self (modify (fun s => with_disk_writes (disk_writes s + 1) s)) ;;
           if_debug (print ("REMOVING: Dirty " +:+ str (page removing_page)))
         else
           if_debug (print ("REMOVING: Clean " +:+ str (page removing_page)))) ;;
        s <- self get ;;
        l <- lift (list_setitem (frames s) removing_page_index
                     (Frame page_number is_write 1)) ;;
        self (modify (with_frames l)) ;;
        if_debug (print ("LOADED: Page " +:+ str page_number +:+
                         ". Dirty: " +:+ str_bool is_write +:+
                         ". Reference: 1 (Replaced page)"))
  end.

#[global] Instance mmu : MMU (world t) := {
  read_memory p := access_memory p false;
  write_memory p := access_memory p true;
  get_total_disk_reads w := disk_reads w.1;
  get_total_disk_writes w := disk_writes w.1;
  get_total_page_faults w := page_faults w.1
}.

#[global] Instance debug_methods : Debug (world t) := {
  set_debug := self Clock.set_debug;
  reset_debug := self Clock.reset_debug
}.

End ClockOut.

(** * Properties *)

(** ** Facts about the Python containers *)

Section DictFacts.
Context {V : Type}.
Implicit Types (d : dict V) (k : Z) (v : V).

Lemma contains_keys d k : contains d k = true <-> k ∈ keys d.
Proof.
  unfold keys. induction d as [|[k' v'] d IH]; simpl.
  - split; [discriminate|]. intros H; inversion H.
  - destruct (Z.eqb_spec k' k) as [->|Hne].
    + split; [intros _; left|done].
    + rewrite IH, elem_of_cons. intuition congruence.
Qed.

Lemma contains_false d k : contains d k = false <-> k ∉ keys d.
Proof.
  rewrite <- contains_keys. destruct (contains d k); naive_solver.
Qed.

Lemma dict_get_keys d k : is_Some (dict_get d k) <-> k ∈ keys d.
Proof.
  unfold keys. induction d as [|[k' v'] d IH]; simpl.
  - split; [intros [? ?]; discriminate|]. intros H; inversion H.
  - destruct (Z.eqb_spec k' k) as [->|Hne].
    + split; [intros _; left|eauto].
    + rewrite IH, elem_of_cons. intuition congruence.
Qed.

Lemma dict_get_None d k : dict_get d k = None <-> k ∉ keys d.
Proof.
  rewrite <- dict_get_keys. rewrite eq_None_not_Some. done.
Qed.

Lemma dict_setitem_absent d k v :
  k ∉ keys d -> dict_setitem d k v = d ++ [(k, v)].
Proof.
  unfold keys. induction d as [|[k' v'] d IH]; simpl; [done|].
  rewrite not_elem_of_cons. intros [Hne Hd].
  destruct (Z.eqb_spec k' k); [congruence|]. by rewrite IH.
Qed.

Lemma keys_setitem_present d k v :
  k ∈ keys d -> keys (dict_setitem d k v) = keys d.
Proof.
  unfold keys. induction d as [|[k' v'] d IH]; simpl.
  - intros H; inversion H.
  - destruct (Z.eqb_spec k' k) as [->|Hne]; [done|].
    rewrite elem_of_cons. intros [?|Hd]; [congruence|].
    simpl. f_equal. by apply IH.
Qed.

Lemma dict_get_setitem d k v k' :
  dict_get (dict_setitem d k v) k' =
  if k =? k' then Some v else dict_get d k'.
Proof.
  induction d as [|[k0 v0] d IH]; simpl.
  - done.
  - destruct (Z.eqb_spec k0 k) as [->|Hne]; simpl.
    + destruct (Z.eqb_spec k k'); done.
    + rewrite IH. destruct (Z.eqb_spec k0 k'), (Z.eqb_spec k k');
        congruence.
Qed.

Lemma dict_setitem_twice d k v v' :
  dict_setitem (dict_setitem d k v) k v' = dict_setitem d k v'.
Proof.
  induction d as [|[k0 v0] d IH]; simpl.
  - by rewrite Z.eqb_refl.
  - destruct (Z.eqb_spec k0 k) as [->|Hne]; simpl.
    + by rewrite Z.eqb_refl.
    + destruct (Z.eqb_spec k0 k); [done|]. by rewrite IH.
Qed.

Lemma keys_remove d k k' :
  NoDup (keys d) ->
  k' ∈ keys (dict_remove d k) <-> k' ∈ keys d /\ k' <> k.
Proof.
  unfold keys. induction d as [|[k0 v0] d IH]; simpl.
  - intros _. split; [intros H; inversion H|naive_solver].
  - rewrite NoDup_cons. intros [Hk0 Hnd].
    destruct (Z.eqb_spec k0 k) as [->|Hne]; simpl.
    + rewrite elem_of_cons. split; [|naive_solver].
      intros Hin. split; [by right|]. intros ->. done.
    + rewrite !elem_of_cons, IH by done. naive_solver.
Qed.

Lemma keys_remove_subseteq d k : keys (dict_remove d k) ⊆ keys d.
Proof.
  unfold keys. induction d as [|[k0 v0] d IH]; simpl; [done|].
  destruct (Z.eqb_spec k0 k) as [->|Hne]; simpl.
  - by apply list_subseteq_cons.
  - intros x. rewrite !elem_of_cons. intros [->|Hx]; [by left|].
    right. by apply IH.
Qed.

Lemma NoDup_keys_remove d k : NoDup (keys d) -> NoDup (keys (dict_remove d k)).
Proof.
  unfold keys. induction d as [|[k0 v0] d IH]; simpl; [done|].
  rewrite NoDup_cons. intros [Hk0 Hnd].
  destruct (Z.eqb_spec k0 k) as [->|Hne]; simpl; [done|].
  apply NoDup_cons. split; [|by apply IH].
  intros Hin. apply Hk0. by apply (keys_remove_subseteq d k).
Qed.

Lemma length_remove d k :
  k ∈ keys d -> S (length (dict_remove d k)) = length d.
Proof.
  unfold keys. induction d as [|[k0 v0] d IH]; simpl.
  - intros H; inversion H.
  - destruct (Z.eqb_spec k0 k) as [->|Hne]; [done|].
    rewrite elem_of_cons. intros [?|Hd]; [congruence|].
    simpl. f_equal. by apply IH.
Qed.

Lemma dict_get_remove_ne d k k' :
  k <> k' -> dict_get (dict_remove d k) k' = dict_get d k'.
Proof.
  intros Hne. induction d as [|[k0 v0] d IH]; simpl; [done|].
  destruct (Z.eqb_spec k0 k) as [->|Hne0]; simpl.
  - destruct (Z.eqb_spec k k'); congruence.
  - by rewrite IH.
Qed.

Lemma length_setitem d k v :
  length (dict_setitem d k v) =
  if contains d k then length d else S (length d).
Proof.
  induction d as [|[k0 v0] d IH]; simpl; [done|].
  destruct (Z.eqb_spec k0 k) as [->|Hne]; simpl; [done|].
  rewrite IH. by destruct (contains d k).
Qed.

Lemma dict_get_remove_eq d k :
  NoDup (keys d) -> dict_get (dict_remove d k) k = None.
Proof.
  intros Hnd. apply dict_get_None. rewrite keys_remove by done. tauto.
Qed.

Lemma keys_snoc d k v : keys (d ++ [(k, v)]) = keys d ++ [k].
Proof. unfold keys. by rewrite fmap_app. Qed.

Lemma dict_get_snoc d k v k' :
  k ∉ keys d ->
  dict_get (d ++ [(k, v)]) k' = if k =? k' then Some v else dict_get d k'.
Proof.
  intros Hp. rewrite <- dict_setitem_absent by done.
  apply dict_get_setitem.
Qed.

Lemma keys_app d1 d2 : keys (d1 ++ d2) = keys d1 ++ keys d2.
Proof. unfold keys. by rewrite fmap_app. Qed.

Lemma dict_get_app_l d1 d2 k :
  k ∈ keys d1 -> dict_get (d1 ++ d2) k = dict_get d1 k.
Proof.
  unfold keys. induction d1 as [|[k0 v0] d1 IH]; simpl.
  - intros H; inversion H.
  - destruct (Z.eqb_spec k0 k); [done|].
    rewrite elem_of_cons. intros [?|?]; [congruence|auto].
Qed.

Lemma dict_get_app_r d1 d2 k :
  k ∉ keys d1 -> dict_get (d1 ++ d2) k = dict_get d2 k.
Proof.
  unfold keys. induction d1 as [|[k0 v0] d1 IH]; simpl; [done|].
  rewrite not_elem_of_cons. intros [Hne Hk].
  destruct (Z.eqb_spec k0 k); [congruence|auto].
Qed.

Lemma dict_get_slot d (n : nat) k v :
  d !! n = Some (k, v) -> NoDup (keys d) -> dict_get d k = Some v.
Proof.
  intros Hslot Hnd.
  destruct (list_elem_of_split_length _ _ _ Hslot) as (d1 & d2 & -> & _).
  rewrite keys_app in Hnd.
  change (keys ((k, v) :: d2)) with (k :: keys d2) in Hnd.
  apply NoDup_app in Hnd as (_ & Hd1 & _).
  rewrite dict_get_app_r; [simpl; by rewrite Z.eqb_refl|].
  intros Hk. apply (Hd1 _ Hk). left.
Qed.

(** A slot of the underlying list is overwritten by an entry for a key
    the dictionary does not hold. *)
Section Overwrite.
Variables (d : dict V) (n : nat) (q p : Z) (b w : V).
Hypothesis Hslot : d !! n = Some (q, b).
Hypothesis Hnodup : NoDup (keys d).
Hypothesis Hfresh : p ∉ keys d.

Let d' : dict V := <[n := (p, w)]> d.

Lemma overwrite_split :
  exists d1 d2,
    d = d1 ++ (q, b) :: d2 /\ d' = d1 ++ (p, w) :: d2 /\
    (q ∉ keys d1) /\ (q ∉ keys d2) /\
    (p ∉ keys d1) /\ (p ∉ keys d2) /\ p <> q.
Proof.
  destruct (list_elem_of_split_length _ _ _ Hslot) as (d1 & d2 & Hd & Hn).
  exists d1, d2. unfold d'. subst d n.
  rewrite keys_app in Hnodup, Hfresh. cbn in Hnodup, Hfresh.
  change (keys ((q, b) :: d2)) with (q :: keys d2) in *.
  apply NoDup_app in Hnodup as (_ & Hd1 & Hd2%NoDup_cons).
  rewrite not_elem_of_app, not_elem_of_cons in Hfresh.
  split; [done|]. split.
  { rewrite insert_app_r_alt by lia. by rewrite Nat.sub_diag. }
  split; [|tauto]. intros Hq. apply (Hd1 _ Hq). left.
Qed.

Lemma overwrite_keys (k : Z) :
  k ∈ keys d' <-> k = p \/ (k ∈ keys d /\ k <> q).
Proof.
  destruct overwrite_split as (d1 & d2 & -> & -> & H1 & H2 & H3 & H4 & H5).
  rewrite !keys_app.
  change (keys ((p, w) :: d2)) with (p :: keys d2).
  change (keys ((q, b) :: d2)) with (q :: keys d2).
  rewrite !elem_of_app, !elem_of_cons.
  split.
  - intros [?|[?|?]]; [right|by left|right].
    + split; [by left|]. congruence.
    + split; [right; by right|]. congruence.
  - intros [?|[[?|[?|?]] ?]]; [right; by left|by left|done|].
    right. by right.
Qed.

Lemma overwrite_nodup : NoDup (keys d').
Proof.
  destruct overwrite_split as (d1 & d2 & Hd & -> & H1 & H2 & H3 & H4 & H5).
  rewrite Hd, keys_app in Hnodup.
  change (keys ((q, b) :: d2)) with (q :: keys d2) in *.
  apply NoDup_app in Hnodup as (Hn1 & Hd1 & [_ Hn2]%NoDup_cons).
  rewrite keys_app.
  change (keys ((p, w) :: d2)) with (p :: keys d2).
  apply NoDup_app. split; [done|]. split.
  - intros x Hx [->|Hx2]%elem_of_cons; [done|].
    apply (Hd1 _ Hx). by right.
  - by apply NoDup_cons.
Qed.

Lemma overwrite_get (k : Z) :
  k <> q -> dict_get d' k = if p =? k then Some w else dict_get d k.
Proof.
  intros Hk.
  destruct overwrite_split as (d1 & d2 & -> & -> & H1 & H2 & H3 & H4 & H5).
  destruct (decide (k ∈ keys d1)) as [Hin|Hin].
  - rewrite !dict_get_app_l by done.
    destruct (Z.eqb_spec p k); [congruence|done].
  - rewrite !dict_get_app_r by done. simpl.
    destruct (Z.eqb_spec p k), (Z.eqb_spec q k); congruence.
Qed.

End Overwrite.

End DictFacts.

Section FilterFacts.
Context {A : Type} (P : A -> Prop) `{!forall x, Decision (P x)}.

Lemma filter_none (l : list A) :
  (forall x, x ∈ l -> ~ P x) -> filter P l = [].
Proof.
  induction l as [|a l IH]; intros Hl; [done|].
  rewrite filter_cons_False by (apply Hl; left).
  apply IH. intros x Hx. apply Hl. by right.
Qed.

Lemma filter_single (l : list A) (q : A) :
  NoDup l -> q ∈ l -> P q ->
  (forall x, x ∈ l -> x <> q -> ~ P x) ->
  filter P l = [q].
Proof.
  induction l as [|a l IH]; intros Hnd Hq HP Hl.
  - inversion Hq.
  - apply NoDup_cons in Hnd as [Ha Hnd].
    apply elem_of_cons in Hq as [<-|Hq].
    + rewrite filter_cons_True by done. f_equal.
      apply filter_none. intros x Hx. apply Hl; [by right|].
      intros ->. done.
    + rewrite filter_cons_False.
      * apply IH; [done..|]. intros x Hx. apply Hl. by right.
      * apply Hl; [left|]. intros ->. done.
Qed.

End FilterFacts.

Section MinFacts.
Context {A : Type} (key : A -> Z).

Lemma min_from_spec (l : list A) (best : A) :
  let m := min_from key best l in
  (m = best \/ m ∈ l) /\ key m <= key best /\
  (forall y, y ∈ l -> key m <= key y).
Proof.
  revert best. induction l as [|x l IH]; intros best; simpl.
  - split; [by left|]. split; [lia|]. intros y H; inversion H.
  - destruct (IH (if key x <? key best then x else best)) as (Hin & Hle & Hall).
    destruct (Z.ltb_spec (key x) (key best)).
    + split; [right; destruct Hin as [->|?]; [left|by right]|].
      split; [lia|]. intros y [->|Hy]%elem_of_cons; [lia|auto].
    + split; [destruct Hin as [->|?]; [by left|right; by right]|].
      split; [lia|]. intros y [->|Hy]%elem_of_cons; [lia|auto].
Qed.

Lemma min_by_spec (l : list A) (m : A) :
  min_by key l = Ok m ->
  m ∈ l /\ forall y, y ∈ l -> key m <= key y.
Proof.
  destruct l as [|x l]; simpl; [discriminate|]. intros [= <-].
  destruct (min_from_spec l x) as (Hin & Hle & Hall).
  split.
  - destruct Hin as [->|?]; [left|by right].
  - intros y [->|Hy]%elem_of_cons; [lia|auto].
Qed.

Lemma min_by_nonempty (l : list A) :
  l <> [] -> exists m, min_by key l = Ok m.
Proof. destruct l; [done|]. simpl. eauto. Qed.

End MinFacts.

(** ** What follows from the behaviour of one access

    Given, for a policy, an invariant that one access preserves while it
    returns normally and accounts for faults, write-backs and dirty flags,
    the properties of whole runs follow by induction on the trace. *)

Section Contract.
Context {St : Type} `{MMU St}.
Variable capacity : St -> Z.
Variable resident : St -> list Z.
Variable dirty_of : St -> Z -> bool.
Variable Inv : St -> Prop.

Record step_spec (s : St) (a : access) (s' : St) : Prop := {
  step_capacity : capacity s' = capacity s;
  step_faults : fault_count resident s (page_of a) s';
  step_resident : page_of a ∈ resident s';
  step_writes : write_back resident dirty_of s s';
  step_clean :
    is_write_of a = false ->
    all_clean resident dirty_of s -> all_clean resident dirty_of s'
}.

Hypothesis step :
  forall s a, Inv s ->
    exists s', perform a s = (Ok tt, s') /\ Inv s' /\ step_spec s a s'.

Lemma run_cons (a : access) (accs : list access) (s s' : St) :
  perform a s = (Ok tt, s') -> run (a :: accs) s = run accs s'.
Proof. intros Hp. simpl. unfold bind. by rewrite Hp. Qed.

Lemma run_ok (accs : list access) (s : St) :
  Inv s -> exists s', run accs s = (Ok tt, s') /\ Inv s'.
Proof.
  revert s. induction accs as [|a accs IH]; intros s HI.
  - exists s. done.
  - destruct (step s a HI) as (s1 & Hp & HI1 & _).
    rewrite (run_cons _ _ _ _ Hp). by apply IH.
Qed.

Lemma run_misses (accs : list access) (s : St) :
  Inv s ->
  get_total_page_faults (after accs s) =
  get_total_page_faults s + misses resident accs s.
Proof.
  unfold after. revert s. induction accs as [|a accs IH]; intros s HI.
  - simpl. lia.
  - destruct (step s a HI) as (s1 & Hp & HI1 & [_ Hf _ _ _]).
    rewrite (run_cons _ _ _ _ Hp), (IH _ HI1). simpl. rewrite Hp. simpl.
    unfold miss.
    destruct Hf as [(Hin & -> & _)|(Hnin & -> & _)].
    + rewrite bool_decide_eq_true_2 by done. lia.
    + rewrite bool_decide_eq_false_2 by done. lia.
Qed.

Lemma run_after (accs : list access) (s : St) :
  Inv s -> run accs s = (Ok tt, after accs s) /\ Inv (after accs s).
Proof.
  intros HI. destruct (run_ok accs s HI) as (s' & Hr & HI').
  unfold after. by rewrite Hr.
Qed.

Lemma run_capacity (accs : list access) (s : St) :
  Inv s -> capacity (after accs s) = capacity s.
Proof.
  unfold after. revert s. induction accs as [|a accs IH]; intros s HI.
  - done.
  - destruct (step s a HI) as (s1 & Hp & HI1 & [Hc _ _ _ _]).
    by rewrite (run_cons _ _ _ _ Hp), (IH _ HI1).
Qed.

Lemma run_inv (accs : list access) (s s' : St) :
  Inv s -> run accs s = (Ok tt, s') -> Inv s'.
Proof.
  intros HI Hr. destruct (run_ok accs s HI) as (s1 & Hr1 & HI1).
  congruence.
Qed.

Lemma misses_nonneg (accs : list access) (s : St) :
  0 <= misses resident accs s.
Proof.
  revert s. induction accs as [|a accs IH]; intros s; simpl; [lia|].
  specialize (IH (perform a s).2). unfold miss.
  destruct (bool_decide _); lia.
Qed.

Lemma run_reads_only (accs : list access) (s : St) :
  Inv s ->
  Forall (fun a => is_write_of a = false) accs ->
  all_clean resident dirty_of s ->
  get_total_disk_writes (after accs s) = get_total_disk_writes s.
Proof.
  unfold after. revert s. induction accs as [|a accs IH]; intros s HI Hr Hc.
  - done.
  - apply Forall_cons in Hr as [Ha Hr].
    destruct (step s a HI) as (s1 & Hp & HI1 & [_ _ _ Hw Hcl]).
    rewrite (run_cons _ _ _ _ Hp), (IH _ HI1 Hr (Hcl Ha Hc)).
    destruct Hw as [[_ ->]|(q & Hev & ->)]; [done|].
    assert (q ∈ evicted resident s s1) as Hq by (rewrite Hev; left).
    apply list_elem_of_filter in Hq as [_ Hq].
    rewrite (Hc q Hq). lia.
Qed.

Lemma counts_faults_from (accs : list access) (s : St) :
  Inv s -> get_total_page_faults s = 0 -> resident s = [] ->
  counts_faults resident accs s.
Proof.
  intros HI Hz Hempty. split; [by apply run_after|].
  rewrite run_misses, Hz by done. split; [lia|].
  destruct accs as [|a accs]; [done|]. intros _. simpl.
  pose proof (misses_nonneg accs (perform a s).2).
  unfold miss. rewrite Hempty.
  rewrite bool_decide_eq_false_2 by (intros Hin; inversion Hin). lia.
Qed.

Lemma writes_back_from (s : St) :
  Inv s -> get_total_disk_writes s = 0 -> all_clean resident dirty_of s ->
  writes_back resident dirty_of s.
Proof.
  intros HI Hz Hclean. split.
  - intros accs s1 a Hr. pose proof (run_inv _ _ _ HI Hr) as HI1.
    destruct (step s1 a HI1) as (s2 & Hp & _ & [_ _ _ Hw _]).
    by rewrite Hp.
  - intros accs n Hreads. rewrite run_reads_only; [done..| |done].
    by apply Forall_take.
Qed.

Lemma loads_page_from (s : St) : Inv s -> loads_page resident s.
Proof.
  intros HI accs s1 a Hr. pose proof (run_inv _ _ _ HI Hr) as HI1.
  destruct (step s1 a HI1) as (s2 & Hp & _ & [_ _ Hres _ _]).
  eauto.
Qed.

End Contract.

(** ** Computations that leave an observation of the state alone *)

Section Preserves.
Context {St B : Type} (obs : St -> B).

Definition preserves {A} (c : M St A) : Prop :=
  forall s, obs (c s).2 = obs s.

Lemma preserves_ret {A} (a : A) : preserves (ret a).
Proof. done. Qed.

Lemma preserves_raise {A} (e : exn) : preserves (@raise St A e).
Proof. done. Qed.

Lemma preserves_lift {A} (r : result A) : preserves (lift r).
Proof. done. Qed.

Lemma preserves_get : preserves get.
Proof. done. Qed.

Lemma preserves_modify (f : St -> St) :
  (forall s, obs (f s) = obs s) -> preserves (modify f).
Proof. intros Hf s. apply Hf. Qed.

Lemma preserves_bind {A C} (c : M St A) (k : A -> M St C) :
  preserves c -> (forall a, preserves (k a)) -> preserves (bind c k).
Proof.
  intros Hc Hk s. unfold bind. specialize (Hc s).
  destruct (c s) as [[a|e] s1]; simpl in *; [|done].
  by rewrite Hk.
Qed.

Lemma preserves_when (b : bool) (c : M St unit) :
  preserves c -> preserves (when b c).
Proof. intros Hc. destruct b; [done|apply preserves_ret]. Qed.

Lemma bind_modify {C} (f : St -> St) (k : unit -> M St C) (s : St) :
  bind (modify f) k s = k tt (f s).
Proof. done. Qed.

Lemma bind_get {C} (k : St -> M St C) (s : St) : bind get k s = k s s.
Proof. done. Qed.

End Preserves.

Ltac preserves_step :=
  first
    [ apply preserves_bind; [|intros ?]
    | apply preserves_when
    | apply preserves_ret
    | apply preserves_raise
    | apply preserves_lift
    | apply preserves_get
    | apply preserves_modify; intros []; reflexivity ].

(** What follows from the fault accounting of one access alone, with no
    assumption on the state and whether the access returns or raises. *)

Section Counters.
Context {St : Type} `{MMU St}.
Variable resident : St -> list Z.

Hypothesis step_fault_count :
  forall s a, fault_count resident s (page_of a) (perform a s).2.

Lemma after_cons (a : access) (accs : list access) (s : St) :
  after (a :: accs) s =
  match perform a s with
  | (Ok _, s') => after accs s'
  | (Raise _, s') => s'
  end.
Proof.
  unfold after. simpl. unfold bind.
  by destruct (perform a s) as [[[]|e] s'].
Qed.

Lemma run_reads_faults (accs : list access) (s : St) :
  get_total_disk_reads (after accs s) - get_total_page_faults (after accs s)
  = get_total_disk_reads s - get_total_page_faults s.
Proof.
  revert s. induction accs as [|a accs IH]; intros s; [done|].
  rewrite after_cons. pose proof (step_fault_count s a) as Hstep.
  destruct (perform a s) as [[[]|e] s']; simpl in Hstep.
  - rewrite IH. destruct Hstep as [(_ & -> & ->)|(_ & -> & ->)]; lia.
  - destruct Hstep as [(_ & -> & ->)|(_ & -> & ->)]; lia.
Qed.

End Counters.

(** What follows from the behaviour of one read of a resident, clean
    page. *)

Section Hits.
Context {St : Type} `{MMU St}.
Variable resident : St -> list Z.
Variable dirty_of : St -> Z -> bool.

Hypothesis read_hit :
  forall s p, p ∈ resident s -> dirty_of s p = false ->
    exists s', read_memory p s = (Ok tt, s') /\
      p ∈ resident s' /\ dirty_of s' p = false /\ same_counters s s'.

Lemma repeated_reads (n : nat) (s : St) (p : Z) :
  p ∈ resident s -> dirty_of s p = false ->
  run (replicate n (Read p)) s = (Ok tt, after (replicate n (Read p)) s) /\
  same_counters s (after (replicate n (Read p)) s).
Proof.
  revert s. induction n as [|n IH]; intros s Hres Hclean.
  - by split.
  - destruct (read_hit s p Hres Hclean) as (s1 & Hr & Hres1 & Hclean1 & Hc1).
    destruct (IH s1 Hres1 Hclean1) as (Hrun & Hc).
    unfold after in *. simpl. unfold bind.
    change (perform (Read p) s) with (read_memory p s).
    rewrite Hr. split; [done|].
    destruct Hc1 as (? & ? & ?), Hc as (? & ? & ?).
    repeat split; congruence.
Qed.

End Hits.

Ltac unfold_monad :=
  unfold when, bind, get, modify, lift, ret, raise in *.

(** ** LRU: what one access does *)

Module LruFacts.
Import Lru.

Ltac unfold_fields :=
  cbv beta iota zeta delta
    [with_frames with_page_faults with_disk_reads with_disk_writes
     with_debug with_recency_tracker number_frames frames page_faults
     disk_reads disk_writes debug recency_tracker
     bind get modify lift ret raise when] in *.

Ltac destruct_state s :=
  destruct s as [nf d pf dr dw dbg rt];
  cbn [number_frames frames page_faults disk_reads disk_writes debug
       recency_tracker] in *.

(** A hit refreshes the stamp of the frame and may dirty it. *)
Lemma lru_access_hit (s : t) (p : Z) (w : bool) (f : frame) :
  dict_get (frames s) p = Some f ->
  access_memory p w s =
  (Ok tt,
   Mk (number_frames s)
      (dict_setitem (frames s) p
         (Frame (w || dirty f) (recency_tracker s + 1)))
      (page_faults s) (disk_reads s) (disk_writes s) (debug s)
      (recency_tracker s + 1)).
Proof.
  destruct_state s. intros Hf.
  assert (contains d p = true) as Hc.
  { apply contains_keys, dict_get_keys. eauto. }
  unfold access_memory, update_frame, dict_getitem. unfold_monad.
  unfold_fields. rewrite Hc. destruct w; cbn.
  - rewrite Hf. cbn. rewrite dict_get_setitem, Z.eqb_refl. cbn.
    by rewrite dict_setitem_twice.
  - by rewrite Hf.
Qed.

(** A fault with a free frame loads the page at the end. *)
Lemma lru_access_load (s : t) (p : Z) (w : bool) :
  p ∉ keys (frames s) ->
  len (frames s) < number_frames s ->
  access_memory p w s =
  (Ok tt,
   Mk (number_frames s)
      (frames s ++ [(p, Frame w (recency_tracker s + 1))])
      (page_faults s + 1) (disk_reads s + 1) (disk_writes s) (debug s)
      (recency_tracker s + 1)).
Proof.
  destruct_state s. intros Hp Hlen.
  unfold access_memory. unfold_monad. unfold_fields.
  apply contains_false in Hp as Hc. rewrite Hc.
  destruct (Z.geb_spec (len d) nf); [lia|].
  cbn. by rewrite dict_setitem_absent.
Qed.

(** A fault with every frame taken evicts the page [min] designates. *)
Lemma lru_access_evict (s : t) (p : Z) (w : bool) (q : Z) :
  p ∉ keys (frames s) ->
  number_frames s <= len (frames s) ->
  min_by (last_used_of (frames s)) (keys (frames s)) = Ok q ->
  exists fq,
    dict_get (frames s) q = Some fq /\
    access_memory p w s =
    (Ok tt,
     Mk (number_frames s)
        (dict_remove (frames s) q ++ [(p, Frame w (recency_tracker s + 1))])
        (page_faults s + 1) (disk_reads s + 1)
        (disk_writes s + (if dirty fq then 1 else 0)) (debug s)
        (recency_tracker s + 1)).
Proof.
  destruct_state s. intros Hp Hlen Hmin.
  destruct (min_by_spec _ _ _ Hmin) as [Hq _].
  apply dict_get_keys in Hq as Hget. destruct Hget as [fq Hfq].
  exists fq. split; [done|].
  unfold access_memory. unfold_monad. unfold_fields.
  apply contains_false in Hp as Hc. rewrite Hc.
  destruct (Z.geb_spec (len d) nf); [|lia].
  cbn. rewrite Hmin. unfold dict_getitem, dict_delitem. rewrite Hfq.
  apply contains_keys in Hq as Hcq.
  assert (p ∉ keys (dict_remove d q)) as Hp'.
  { intros Hin. by apply Hp, (keys_remove_subseteq _ q). }
  destruct (dirty fq); cbn; rewrite Hcq; cbn;
    rewrite dict_setitem_absent by done; f_equal; f_equal; lia.
Qed.

(** With no frame to give and none to take back, [min] has nothing to
    choose from: the access raises, the fault already counted. *)
Lemma lru_access_raise (s : t) (p : Z) (w : bool) :
  frames s = [] -> number_frames s <= 0 ->
  access_memory p w s =
  (Raise ValueError,
   Mk (number_frames s) [] (page_faults s + 1) (disk_reads s + 1)
      (disk_writes s) (debug s) (recency_tracker s + 1)).
Proof.
  destruct_state s. intros -> Hn.
  unfold access_memory. unfold_fields. cbn.
  destruct (Z.geb_spec (len (@nil (Z * frame))) nf) as [|H];
    [done|]. unfold len in H. simpl in H. lia.
Qed.

(** *** The invariant of the unit *)

(** Stamps never run ahead of the logical clock, and no two frames
    share one. *)
Definition stamps_ok (d : dict frame) (rt : Z) : Prop :=
  (forall p f, dict_get d p = Some f -> last_used f <= rt) /\
  (forall p q f g,
      dict_get d p = Some f -> dict_get d q = Some g ->
      last_used f = last_used g -> p = q).

Record Inv (s : t) : Prop := {
  inv_capacity : 1 <= number_frames s;
  inv_nodup : NoDup (resident s);
  inv_size : len (frames s) <= number_frames s;
  inv_stamps : stamps_ok (frames s) (recency_tracker s)
}.

Lemma stamps_setitem (d : dict frame) (rt : Z) (p : Z) (b : bool) :
  stamps_ok d rt -> stamps_ok (dict_setitem d p (Frame b (rt + 1))) (rt + 1).
Proof.
  intros [Hle Hinj]. split.
  - intros k f. rewrite dict_get_setitem.
    destruct (Z.eqb_spec p k).
    + intros [= <-]. simpl. lia.
    + intros Hk. specialize (Hle _ _ Hk). lia.
  - intros k1 k2 f g. rewrite !dict_get_setitem.
    destruct (Z.eqb_spec p k1), (Z.eqb_spec p k2); [congruence|..].
    + intros [= <-] Hg. specialize (Hle _ _ Hg). simpl. lia.
    + intros Hf [= <-]. specialize (Hle _ _ Hf). simpl. lia.
    + apply Hinj.
Qed.

Lemma stamps_remove (d : dict frame) (rt : Z) (q : Z) :
  NoDup (keys d) -> stamps_ok d rt -> stamps_ok (dict_remove d q) rt.
Proof.
  intros Hnd [Hle Hinj].
  assert (forall k f, dict_get (dict_remove d q) k = Some f ->
                      dict_get d k = Some f) as Hsub.
  { intros k f. destruct (decide (q = k)) as [->|Hne].
    - by rewrite dict_get_remove_eq.
    - by rewrite dict_get_remove_ne. }
  split.
  - intros k f Hk. eauto.
  - intros k1 k2 f g H1 H2. eauto.
Qed.

Lemma lru_fresh_inv (n : Z) : 1 <= n -> Inv (Mk n [] 0 0 0 false 0).
Proof.
  intros Hn. split; cbn; [done|apply NoDup_nil_2|unfold len; simpl; lia|].
  split; intros; discriminate.
Qed.

(** What the victim chosen by [min] is: a resident page whose stamp is
    below that of every other resident page. *)
Lemma victim_spec (d : dict frame) (rt : Z) (q : Z) :
  stamps_ok d rt ->
  min_by (last_used_of d) (keys d) = Ok q ->
  exists fq, dict_get d q = Some fq /\
    forall r fr, dict_get d r = Some fr -> r <> q ->
                 last_used fq < last_used fr.
Proof.
  intros [_ Hinj] Hmin.
  destruct (min_by_spec _ _ _ Hmin) as [Hq Hall].
  apply dict_get_keys in Hq as [fq Hfq]. exists fq. split; [done|].
  intros r fr Hr Hne.
  assert (r ∈ keys d) as Hin by (apply dict_get_keys; eauto).
  specialize (Hall r Hin). unfold last_used_of in Hall.
  rewrite Hfq, Hr in Hall.
  destruct (decide (last_used fq = last_used fr)) as [Heq|]; [|lia].
  exfalso. apply Hne. symmetry. eauto.
Qed.

Lemma lru_perform_access (a : access) :
  perform a = access_memory (page_of a) (is_write_of a).
Proof. by destruct a. Qed.

Lemma lru_step_hit (s : t) (a : access) (f : frame) :
  Inv s -> dict_get (frames s) (page_of a) = Some f ->
  exists s', perform a s = (Ok tt, s') /\ Inv s' /\
             step_spec number_frames resident dirty_of s a s'.
Proof.
  intros [Hcap Hnd Hsz Hst] Hf.
  assert (page_of a ∈ keys (frames s)) as Hin
      by (apply dict_get_keys; eauto).
  eexists. split; [rewrite lru_perform_access; by apply lru_access_hit|].
  unfold resident in Hnd. destruct_state s.
  split; [split|split]; unfold resident; cbn.
  - done.
  - by rewrite keys_setitem_present.
  - unfold len in *. rewrite length_setitem.
    apply contains_keys in Hin. by rewrite Hin.
  - by apply stamps_setitem.
  - done.
  - left. done.
  - by rewrite keys_setitem_present.
  - left. split; [|done]. unfold evicted. cbn.
    rewrite keys_setitem_present by done.
    apply filter_none. tauto.
  - intros Hw Hc q. unfold all_clean, dirty_of in *. cbn in *.
    rewrite keys_setitem_present by done. intros Hq.
    specialize (Hc q Hq).
    rewrite dict_get_setitem. destruct (Z.eqb_spec (page_of a) q) as [<-|];
      [|done].
    rewrite Hf in Hc. rewrite Hw. done.
Qed.

Lemma lru_step_load (s : t) (a : access) :
  Inv s -> page_of a ∉ keys (frames s) ->
  len (frames s) < number_frames s ->
  exists s', perform a s = (Ok tt, s') /\ Inv s' /\
             step_spec number_frames resident dirty_of s a s'.
Proof.
  intros [Hcap Hnd Hsz Hst] Hp Hlen.
  eexists. split; [rewrite lru_perform_access; by apply lru_access_load|].
  unfold resident in Hnd. destruct_state s.
  split; [split|split]; unfold resident; cbn.
  - done.
  - rewrite keys_snoc. apply NoDup_app. split; [done|].
    split; [|apply NoDup_singleton].
    intros x Hx ->%list_elem_of_singleton. done.
  - unfold len in *. rewrite length_app. simpl. lia.
  - rewrite <- dict_setitem_absent by done. by apply stamps_setitem.
  - done.
  - right. done.
  - rewrite keys_snoc. apply elem_of_app. right. left.
  - left. split; [|done]. unfold evicted. cbn. rewrite keys_snoc.
    apply filter_none. intros x Hx Hn. apply Hn, elem_of_app. by left.
  - intros Hw Hc q. unfold all_clean, dirty_of in *. cbn in *.
    rewrite keys_snoc, dict_get_snoc by done. intros Hq.
    destruct (Z.eqb_spec (page_of a) q) as [<-|Hne]; [by rewrite Hw|].
    apply Hc. apply elem_of_app in Hq as [Hq|Hq%list_elem_of_singleton];
      [done|congruence].
Qed.

Lemma lru_step_evict (s : t) (a : access) :
  Inv s -> page_of a ∉ keys (frames s) ->
  number_frames s <= len (frames s) ->
  exists s', perform a s = (Ok tt, s') /\ Inv s' /\
             step_spec number_frames resident dirty_of s a s'.
Proof.
  intros [Hcap Hnd Hsz Hst] Hp Hlen.
  destruct (min_by_nonempty (last_used_of (frames s)) (keys (frames s)))
    as [q Hmin].
  { unfold keys, len in *. destruct (frames s); [simpl in *; lia|done]. }
  destruct (lru_access_evict s (page_of a) (is_write_of a) q Hp Hlen Hmin)
    as (fq & Hfq & Hacc).
  assert (q ∈ keys (frames s)) as Hq by (apply dict_get_keys; eauto).
  assert (page_of a ∉ keys (dict_remove (frames s) q)) as Hp'.
  { intros Hin. by apply Hp, (keys_remove_subseteq _ q). }
  eexists. split; [rewrite lru_perform_access; exact Hacc|]. clear Hacc.
  unfold resident in Hnd. destruct_state s.
  split; [split|split]; unfold resident; cbn.
  - done.
  - rewrite keys_snoc. apply NoDup_app. split; [by apply NoDup_keys_remove|].
    split; [|apply NoDup_singleton].
    intros x Hx ->%list_elem_of_singleton. done.
  - unfold len in *. rewrite length_app. simpl.
    pose proof (length_remove d q Hq). lia.
  - rewrite <- dict_setitem_absent by done.
    by apply stamps_setitem, stamps_remove.
  - done.
  - right. done.
  - rewrite keys_snoc. apply elem_of_app. right. left.
  - right. exists q. unfold evicted, dirty_of. cbn. rewrite Hfq.
    split; [|done]. rewrite keys_snoc.
    apply filter_single; [done..| |].
    + rewrite elem_of_app, keys_remove, list_elem_of_singleton by done.
      intros [[_ ?]| ->]; done.
    + intros x Hx Hne Hn. apply Hn.
      rewrite elem_of_app, keys_remove by done. by left.
  - intros Hw Hc k. unfold all_clean, dirty_of in *. cbn in *.
    rewrite keys_snoc, dict_get_snoc by done. intros Hk.
    destruct (Z.eqb_spec (page_of a) k) as [<-|Hne]; [by rewrite Hw|].
    apply elem_of_app in Hk as [Hk|Hk%list_elem_of_singleton];
      [|congruence].
    apply keys_remove in Hk as [Hk Hkq]; [|done].
    rewrite dict_get_remove_ne by done. by apply Hc.
Qed.

Lemma lru_step (s : t) (a : access) :
  Inv s ->
  exists s', perform a s = (Ok tt, s') /\ Inv s' /\
             step_spec number_frames resident dirty_of s a s'.
Proof.
  intros HI.
  destruct (dict_get (frames s) (page_of a)) as [f|] eqn:Hf.
  - by eapply lru_step_hit.
  - apply dict_get_None in Hf.
    destruct (Z.lt_ge_cases (len (frames s)) (number_frames s)).
    + by apply lru_step_load.
    + by apply lru_step_evict.
Qed.

(** Whatever the state and the outcome, an access moves the fault and
    read counters together, by one on a miss and not at all on a hit. *)
Definition fault_counters (s : t) : Z * Z := (page_faults s, disk_reads s).

Lemma preserves_update_frame (p : Z) (g : frame -> frame) :
  preserves fault_counters (update_frame p g).
Proof. unfold update_frame. repeat preserves_step. Qed.

Lemma lru_access_fault_count (s : t) (p : Z) (w : bool) :
  fault_count resident s p (access_memory p w s).2.
Proof.
  unfold access_memory. rewrite bind_modify, bind_get.
  destruct_state s. unfold fault_count, resident, with_recency_tracker.
  cbn [number_frames frames page_faults disk_reads disk_writes debug
       recency_tracker].
  destruct (contains d p) eqn:Hc.
  - left. apply contains_keys in Hc. split; [done|].
    match goal with |- context [(?c ?s).2] =>
      assert (preserves fault_counters c) as Hpr end.
    { repeat first [apply preserves_update_frame | preserves_step]. }
    specialize (Hpr (Mk nf d pf dr dw dbg (rt + 1))).
    injection Hpr as Hf Hr. done.
  - right. apply contains_false in Hc. split; [done|].
    rewrite !bind_modify. unfold with_page_faults, with_disk_reads.
    cbn [number_frames frames page_faults disk_reads disk_writes debug
         recency_tracker].
    match goal with |- context [(?c ?s).2] =>
      assert (preserves fault_counters c) as Hpr end.
    { repeat first [case_match | preserves_step]. }
    specialize (Hpr (Mk nf d (pf + 1) (dr + 1) dw dbg (rt + 1))).
    injection Hpr as Hf Hr. done.
Qed.

Lemma lru_read_hit (s : t) (p : Z) :
  p ∈ resident s -> dirty_of s p = false ->
  exists s', read_memory p s = (Ok tt, s') /\
    p ∈ resident s' /\ dirty_of s' p = false /\ same_counters s s'.
Proof.
  unfold resident, dirty_of. intros Hres Hclean.
  apply dict_get_keys in Hres as Hget. destruct Hget as [f Hf].
  rewrite Hf in Hclean.
  eexists. split; [by apply (lru_access_hit s p false f)|].
  cbn. rewrite keys_setitem_present by done.
  rewrite dict_get_setitem, Z.eqb_refl. done.
Qed.

End LruFacts.

(** ** Random: what one access does *)

Module RandFacts.
Import Rand.

Ltac unfold_fields :=
  cbv beta iota zeta delta
    [with_frames with_page_faults with_disk_reads with_disk_writes
     with_debug with_random number_frames frames page_faults
     disk_reads disk_writes debug random
     bind get modify lift ret raise when] in *.

Ltac destruct_state s :=
  destruct s as [nf d pf dr dw dbg g];
  cbn [number_frames frames page_faults disk_reads disk_writes debug
       random] in *.

Lemma chosen_elem (r : nat) (seq : list Z) :
  seq <> [] -> chosen r seq ∈ seq.
Proof.
  intros Hne. apply list_elem_of_In. unfold chosen. apply nth_In.
  apply Nat.mod_upper_bound. by destruct seq.
Qed.

Lemma choice_nonempty (s : t) (seq : list Z) :
  seq <> [] ->
  choice seq s =
  (Ok (chosen (random s O) seq), with_random (fun n => random s (S n)) s).
Proof.
  intros Hne. unfold choice. by destruct seq as [|x seq].
Qed.

(** A hit may dirty the frame and changes nothing else. *)
Lemma rand_access_hit (s : t) (p : Z) (w : bool) (f : frame) :
  dict_get (frames s) p = Some f ->
  access_memory p w s =
  (Ok tt,
   Mk (number_frames s)
      (if w then dict_setitem (frames s) p (Frame true) else frames s)
      (page_faults s) (disk_reads s) (disk_writes s) (debug s) (random s)).
Proof.
  destruct_state s. intros Hf.
  assert (contains d p = true) as Hc.
  { apply contains_keys, dict_get_keys. eauto. }
  unfold access_memory, update_frame, dict_getitem. unfold_fields.
  rewrite Hc. destruct w; cbn; [|done]. by rewrite Hf.
Qed.

Lemma rand_access_load (s : t) (p : Z) (w : bool) :
  p ∉ keys (frames s) ->
  len (frames s) < number_frames s ->
  access_memory p w s =
  (Ok tt,
   Mk (number_frames s) (frames s ++ [(p, Frame w)])
      (page_faults s + 1) (disk_reads s + 1) (disk_writes s) (debug s)
      (random s)).
Proof.
  destruct_state s. intros Hp Hlen.
  unfold access_memory. unfold_fields.
  apply contains_false in Hp as Hc. rewrite Hc.
  destruct (Z.geb_spec (len d) nf); [lia|].
  cbn. by rewrite dict_setitem_absent.
Qed.

(** A fault with every frame taken evicts the page the generator
    designates among the resident ones. *)
Lemma rand_access_evict (s : t) (p : Z) (w : bool) :
  p ∉ keys (frames s) ->
  number_frames s <= len (frames s) ->
  frames s <> [] ->
  let q := chosen (random s O) (keys (frames s)) in
  exists fq,
    dict_get (frames s) q = Some fq /\
    access_memory p w s =
    (Ok tt,
     Mk (number_frames s) (dict_remove (frames s) q ++ [(p, Frame w)])
        (page_faults s + 1) (disk_reads s + 1)
        (disk_writes s + (if dirty fq then 1 else 0)) (debug s)
        (fun n => random s (S n))).
Proof.
  destruct_state s. intros Hp Hlen Hne.
  assert (keys d <> []) as Hk by (unfold keys; by destruct d).
  pose proof (chosen_elem (g O) _ Hk) as Hq.
  remember (chosen (g O) (keys d)) as q eqn:Eq.
  apply dict_get_keys in Hq as Hget. destruct Hget as [fq Hfq].
  exists fq. split; [done|].
  unfold access_memory. unfold_monad.
  cbv beta iota zeta delta
    [with_frames with_page_faults with_disk_reads with_disk_writes
     number_frames frames page_faults disk_reads disk_writes debug random].
  apply contains_false in Hp as Hc. rewrite Hc.
  destruct (Z.geb_spec (len d) nf); [|lia].
  pose proof (choice_nonempty (Mk nf d (pf + 1) (dr + 1) dw dbg g) _ Hk)
    as Hch.
  unfold_monad. rewrite Hch.
  cbv beta iota zeta delta
    [with_frames with_page_faults with_disk_reads with_disk_writes
     with_random
     number_frames frames page_faults disk_reads disk_writes debug random].
  rewrite <- Eq.
  unfold dict_getitem, dict_delitem. rewrite Hfq.
  apply contains_keys in Hq as Hcq.
  assert (p ∉ keys (dict_remove d q)) as Hp'.
  { intros Hin. by apply Hp, (keys_remove_subseteq _ q). }
  destruct (dirty fq); cbn; rewrite Hcq; cbn;
    rewrite dict_setitem_absent by done; f_equal; f_equal; lia.
Qed.

(** With no frame to give and none to take back, [random.choice] has
    nothing to choose from: the access raises, the fault already
    counted. *)
Lemma rand_access_raise (s : t) (p : Z) (w : bool) :
  frames s = [] -> number_frames s <= 0 ->
  access_memory p w s =
  (Raise IndexError,
   Mk (number_frames s) [] (page_faults s + 1) (disk_reads s + 1)
      (disk_writes s) (debug s) (random s)).
Proof.
  destruct_state s. intros -> Hn.
  unfold access_memory, choice. unfold_fields. cbn.
  destruct (Z.geb_spec (len (@nil (Z * frame))) nf) as [|H];
    [done|]. unfold len in H. simpl in H. lia.
Qed.

(** *** The invariant of the unit *)

Record Inv (s : t) : Prop := {
  inv_capacity : 1 <= number_frames s;
  inv_nodup : NoDup (resident s);
  inv_size : len (frames s) <= number_frames s
}.

Lemma rand_fresh_inv (n : Z) (g : nat -> nat) :
  1 <= n -> Inv (Mk n [] 0 0 0 false g).
Proof.
  intros Hn. split; cbn; [done|apply NoDup_nil_2|unfold len; simpl; lia].
Qed.

Lemma rand_perform_access (a : access) :
  perform a = access_memory (page_of a) (is_write_of a).
Proof. by destruct a. Qed.

Lemma rand_step_hit (s : t) (a : access) (f : frame) :
  Inv s -> dict_get (frames s) (page_of a) = Some f ->
  exists s', perform a s = (Ok tt, s') /\ Inv s' /\
             step_spec number_frames resident dirty_of s a s'.
Proof.
  intros [Hcap Hnd Hsz] Hf.
  assert (page_of a ∈ keys (frames s)) as Hin
      by (apply dict_get_keys; eauto).
  eexists. split; [rewrite rand_perform_access; by apply (rand_access_hit _ _ _ f)|].
  unfold resident in Hnd. destruct_state s.
  assert (keys (if is_write_of a
                then dict_setitem d (page_of a) (Frame true) else d)
          = keys d) as Hkeys.
  { destruct (is_write_of a); [|done]. by apply keys_setitem_present. }
  split; [split|split]; unfold resident; cbn.
  - done.
  - by rewrite Hkeys.
  - unfold len in *. destruct (is_write_of a); [|done].
    rewrite length_setitem.
    apply contains_keys in Hin. by rewrite Hin.
  - done.
  - left. done.
  - by rewrite Hkeys.
  - left. split; [|done]. unfold evicted. cbn. rewrite Hkeys.
    apply filter_none. tauto.
  - intros Hw Hc q. unfold all_clean, dirty_of in *. cbn in *.
    rewrite Hw. apply Hc.
Qed.

Lemma rand_step_load (s : t) (a : access) :
  Inv s -> page_of a ∉ keys (frames s) ->
  len (frames s) < number_frames s ->
  exists s', perform a s = (Ok tt, s') /\ Inv s' /\
             step_spec number_frames resident dirty_of s a s'.
Proof.
  intros [Hcap Hnd Hsz] Hp Hlen.
  eexists. split; [rewrite rand_perform_access; by apply rand_access_load|].
  unfold resident in Hnd. destruct_state s.
  split; [split|split]; unfold resident; cbn.
  - done.
  - rewrite keys_snoc. apply NoDup_app. split; [done|].
    split; [|apply NoDup_singleton].
    intros x Hx ->%list_elem_of_singleton. done.
  - unfold len in *. rewrite length_app. simpl. lia.
  - done.
  - right. done.
  - rewrite keys_snoc. apply elem_of_app. right. left.
  - left. split; [|done]. unfold evicted. cbn. rewrite keys_snoc.
    apply filter_none. intros x Hx Hn. apply Hn, elem_of_app. by left.
  - intros Hw Hc q. unfold all_clean, dirty_of in *. cbn in *.
    rewrite keys_snoc, dict_get_snoc by done. intros Hq.
    destruct (Z.eqb_spec (page_of a) q) as [<-|Hne]; [by rewrite Hw|].
    apply Hc. apply elem_of_app in Hq as [Hq|Hq%list_elem_of_singleton];
      [done|congruence].
Qed.

Lemma rand_step_evict (s : t) (a : access) :
  Inv s -> page_of a ∉ keys (frames s) ->
  number_frames s <= len (frames s) ->
  exists s', perform a s = (Ok tt, s') /\ Inv s' /\
             step_spec number_frames resident dirty_of s a s'.
Proof.
  intros [Hcap Hnd Hsz] Hp Hlen.
  assert (frames s <> []) as Hne.
  { unfold len in *. destruct (frames s); [simpl in *; lia|done]. }
  destruct (rand_access_evict s (page_of a) (is_write_of a) Hp Hlen Hne)
    as (fq & Hfq & Hacc).
  set (q := chosen (random s O) (keys (frames s))) in *.
  assert (q ∈ keys (frames s)) as Hq by (apply dict_get_keys; eauto).
  assert (page_of a ∉ keys (dict_remove (frames s) q)) as Hp'.
  { intros Hin. by apply Hp, (keys_remove_subseteq _ q). }
  eexists. split; [rewrite rand_perform_access; exact Hacc|]. clear Hacc.
  clearbody q.
  unfold resident in Hnd. destruct_state s.
  split; [split|split]; unfold resident; cbn.
  - done.
  - rewrite keys_snoc. apply NoDup_app. split; [by apply NoDup_keys_remove|].
    split; [|apply NoDup_singleton].
    intros x Hx ->%list_elem_of_singleton. done.
  - unfold len in *. rewrite length_app. simpl.
    pose proof (length_remove d q Hq). lia.
  - done.
  - right. done.
  - rewrite keys_snoc. apply elem_of_app. right. left.
  - right. exists q. unfold evicted, dirty_of. cbn. rewrite Hfq.
    split; [|done]. rewrite keys_snoc.
    apply filter_single; [done..| |].
    + rewrite elem_of_app, keys_remove, list_elem_of_singleton by done.
      intros [[_ ?]| ->]; done.
    + intros x Hx Hne' Hn. apply Hn.
      rewrite elem_of_app, keys_remove by done. by left.
  - intros Hw Hc k. unfold all_clean, dirty_of in *. cbn in *.
    rewrite keys_snoc, dict_get_snoc by done. intros Hk.
    destruct (Z.eqb_spec (page_of a) k) as [<-|Hne']; [by rewrite Hw|].
    apply elem_of_app in Hk as [Hk|Hk%list_elem_of_singleton];
      [|congruence].
    apply keys_remove in Hk as [Hk Hkq]; [|done].
    rewrite dict_get_remove_ne by done. by apply Hc.
Qed.

Lemma rand_step (s : t) (a : access) :
  Inv s ->
  exists s', perform a s = (Ok tt, s') /\ Inv s' /\
             step_spec number_frames resident dirty_of s a s'.
Proof.
  intros HI.
  destruct (dict_get (frames s) (page_of a)) as [f|] eqn:Hf.
  - by eapply rand_step_hit.
  - apply dict_get_None in Hf.
    destruct (Z.lt_ge_cases (len (frames s)) (number_frames s)).
    + by apply rand_step_load.
    + by apply rand_step_evict.
Qed.

Definition fault_counters (s : t) : Z * Z := (page_faults s, disk_reads s).

Lemma preserves_choice (seq : list Z) : preserves fault_counters (choice seq).
Proof. unfold choice. repeat first [case_match | preserves_step]. Qed.

(** Whatever the state and the outcome, an access moves the fault and
    read counters together, by one on a miss and not at all on a hit. *)
Lemma rand_access_fault_count (s : t) (p : Z) (w : bool) :
  fault_count resident s p (access_memory p w s).2.
Proof.
  unfold access_memory. rewrite bind_get.
  destruct_state s. unfold fault_count, resident.
  cbn [number_frames frames page_faults disk_reads disk_writes debug random].
  destruct (contains d p) eqn:Hc.
  - left. apply contains_keys in Hc. split; [done|].
    match goal with |- context [(?c ?s).2] =>
      assert (preserves fault_counters c) as Hpr end.
    { unfold update_frame. repeat preserves_step. }
    specialize (Hpr (Mk nf d pf dr dw dbg g)).
    injection Hpr as Hf Hr. done.
  - right. apply contains_false in Hc. split; [done|].
    rewrite !bind_modify. unfold with_page_faults, with_disk_reads.
    cbn [number_frames frames page_faults disk_reads disk_writes debug
         random].
    match goal with |- context [(?c ?s).2] =>
      assert (preserves fault_counters c) as Hpr end.
    { repeat first [apply preserves_choice | case_match | preserves_step]. }
    specialize (Hpr (Mk nf d (pf + 1) (dr + 1) dw dbg g)).
    injection Hpr as Hf Hr. done.
Qed.

Lemma rand_read_hit (s : t) (p : Z) :
  p ∈ resident s -> dirty_of s p = false ->
  exists s', read_memory p s = (Ok tt, s') /\
    p ∈ resident s' /\ dirty_of s' p = false /\ same_counters s s'.
Proof.
  unfold resident, dirty_of. intros Hres Hclean.
  apply dict_get_keys in Hres as Hget. destruct Hget as [f Hf].
  eexists. split; [by apply (rand_access_hit s p false f)|]. done.
Qed.

End RandFacts.

(** ** Clock: what one access does *)

Module ClockFacts.
Import Clock.

Ltac unfold_fields :=
  cbv beta iota zeta delta
    [with_frames with_page_faults with_disk_reads with_disk_writes
     with_debug with_clock_hand number_frames frames page_faults
     disk_reads disk_writes debug clock_hand
     bind get modify lift ret raise when] in *.

Ltac destruct_state s :=
  destruct s as [nf l h pf dr dw dbg];
  cbn [number_frames frames page_faults disk_reads disk_writes debug
       clock_hand] in *.

Lemma find_removing_page_eq (s : t) :
  find_removing_page s =
  match inspect_slot s with
  | (Ok Continue, s') => find_removing_page s'
  | (Ok (Return i), s') => (Ok i, s')
  | (Raise e, s') => (Raise e, s')
  end.
Proof.
  funelim (find_removing_page s);
    match goal with H : inspect_slot _ = _ |- _ => by rewrite H end.
Qed.

(** Watching the loop for some turns tells what it returns. *)
Lemma find_removing_page_within_eq (n : nat) (s : t) (r : result Z * t) :
  find_removing_page_within n s = Some r -> find_removing_page s = r.
Proof.
  revert s. induction n as [|n IH]; intros s; simpl; [done|].
  rewrite find_removing_page_eq.
  destruct (inspect_slot s) as [[[|i]|e] s']; [apply IH|by intros [= <-]..].
Qed.

Lemma find_removing_page_within_mono (n m : nat) (s : t) (r : result Z * t) :
  (n <= m)%nat ->
  find_removing_page_within n s = Some r ->
  find_removing_page_within m s = Some r.
Proof.
  revert m s. induction n as [|n IH]; intros m s Hle; simpl; [done|].
  destruct m as [|m]; [lia|]. simpl.
  destruct (inspect_slot s) as [[[|i]|e] s']; [|done..].
  apply IH. lia.
Qed.

Lemma index_in_range (n i : Z) :
  0 <= i < n -> index n i = Some (Z.to_nat i).
Proof.
  intros Hi. unfold index.
  destruct (Z.leb_spec 0 i); [|lia]. destruct (Z.ltb_spec i n); [done|lia].
Qed.

(** One turn of the loop with the hand on a frame: the frame is either
    designated or given its second chance. *)
Lemma inspect_slot_in_range (s : t) (f : frame) :
  0 <= clock_hand s < len (frames s) ->
  number_frames s <> 0 ->
  frames s !! Z.to_nat (clock_hand s) = Some f ->
  inspect_slot s =
  if reference f =? 0 then
    (Ok (Return (clock_hand s)),
     with_clock_hand ((clock_hand s + 1) mod number_frames s) s)
  else
    (Ok Continue,
     Mk (number_frames s)
        (<[Z.to_nat (clock_hand s) := Frame (page f) (dirty f) 0]> (frames s))
        ((clock_hand s + 1) mod number_frames s)
        (page_faults s) (disk_reads s) (disk_writes s) (debug s)).
Proof.
  destruct_state s. intros Hh Hnf Hf.
  unfold inspect_slot, list_getitem, list_setitem, mod_. unfold_fields.
  rewrite index_in_range by done. rewrite Hf.
  destruct (Z.eqb_spec nf 0); [done|].
  by destruct (reference f =? 0).
Qed.

(** No turn of the loop touches a counter, whatever its outcome. *)
Lemma inspect_slot_counters (s s' : t) (r : result ctl) :
  inspect_slot s = (r, s') ->
  page_faults s' = page_faults s /\ disk_reads s' = disk_reads s /\
  disk_writes s' = disk_writes s.
Proof.
  destruct_state s.
  unfold inspect_slot, list_getitem, list_setitem, mod_. unfold_fields.
  destruct (index (len l) h) as [n|]; [|by intros [= <- <-]].
  destruct (l !! n) as [f|]; [|by intros [= <- <-]].
  destruct (reference f =? 0), (nf =? 0); by intros [= <- <-].
Qed.

Lemma find_removing_page_counters (s s' : t) (r : result Z) :
  find_removing_page s = (r, s') ->
  page_faults s' = page_faults s /\ disk_reads s' = disk_reads s /\
  disk_writes s' = disk_writes s.
Proof.
  revert r s'. funelim (find_removing_page s); intros r s1 Heq;
    match goal with H : inspect_slot _ = _ |- _ =>
      pose proof (inspect_slot_counters _ _ _ H) as (Hf & Hr & Hw) end.
  - match goal with IH : forall r s, _ -> _ |- _ =>
      destruct (IH _ _ Heq) as (Hf' & Hr' & Hw') end.
    rewrite Hf', Hr', Hw'. done.
  - by injection Heq as <- <-.
  - by injection Heq as <- <-.
Qed.

(** *** The search for a frame to evict *)

(** The search runs with every frame taken and the hand on one of them. *)
Record full (s : t) : Prop := {
  full_capacity : 1 <= number_frames s;
  full_size : len (frames s) = number_frames s;
  full_hand : 0 <= clock_hand s < number_frames s
}.

(** What the search leaves behind when it designates slot [i]: only
    reference bits and the hand have moved, and the bit of slot [i] is
    clear. *)
Record searched (s : t) (i : Z) (s' : t) : Prop := {
  searched_index : 0 <= i < number_frames s;
  searched_capacity : number_frames s' = number_frames s;
  searched_content : content <$> frames s' = content <$> frames s;
  searched_hand : 0 <= clock_hand s' < number_frames s;
  searched_faults : page_faults s' = page_faults s;
  searched_reads : disk_reads s' = disk_reads s;
  searched_writes : disk_writes s' = disk_writes s;
  searched_debug : debug s' = debug s;
  searched_clear :
    exists f, frames s' !! Z.to_nat i = Some f /\ reference f = 0
}.

Lemma content_insert (l : list frame) (n : nat) (f : frame) (b : Z) :
  l !! n = Some f ->
  content <$> <[n := Frame (page f) (dirty f) b]> l = content <$> l.
Proof.
  intros Hf. rewrite list_fmap_insert. apply list_insert_id.
  by rewrite list_lookup_fmap, Hf.
Qed.

Lemma referenced_le (s : t) : (referenced s <= length (frames s))%nat.
Proof. apply length_filter. Qed.

Lemma search_within (n : nat) (s : t) :
  full s -> (referenced s <= n)%nat ->
  exists i s',
    find_removing_page_within (S n) s = Some (Ok i, s') /\
    searched s i s'.
Proof.
  revert s. induction n as [|n IH]; intros s [Hcap Hsz Hh] Hn.
  all: assert (is_Some (frames s !! Z.to_nat (clock_hand s))) as [f Hf]
      by (apply lookup_lt_is_Some; unfold len in *; lia).
  all: assert (inspect_slot s = _) as Hturn
      by (apply (inspect_slot_in_range s f); [lia|lia|done]).
  all: destruct (Z.eqb_spec (reference f) 0) as [Hz|Hnz].
  all: try (exists (clock_hand s); eexists; split;
            [simpl; rewrite Hturn; reflexivity|];
            pose proof (Z.mod_pos_bound (clock_hand s + 1) (number_frames s));
            destruct_state s; split; cbn; try done; try lia; eauto).
  - apply inspect_slot_Continue in Hturn. lia.
  - pose proof (inspect_slot_Continue _ _ Hturn) as Hlt.
    pose proof (Z.mod_pos_bound (clock_hand s + 1) (number_frames s)) as Hm.
    edestruct IH as (i & s' & Hw & Hpost); [| |].
    3:{ exists i, s'. split.
        - change (find_removing_page_within (S (S n)) s)
            with (match inspect_slot s with
                  | (Ok Continue, s') => find_removing_page_within (S n) s'
                  | (Ok (Return i), s') => Some (Ok i, s')
                  | (Raise e, s') => Some (Raise e, s')
                  end).
          rewrite Hturn. exact Hw.
        - destruct Hpost as [H1 H2 H3 H4 H5 H6 H7 H8 H9].
          destruct_state s. cbn in *.
          split; cbn; try done.
          by rewrite H3, content_insert. }
    + destruct_state s. split; cbn; [done| |lia].
      unfold len in *. by rewrite length_insert.
    + lia.
Qed.

(** The search comes back within capacity + 1 turns, hence within twice
    the capacity. *)
Lemma search_bounded (s : t) :
  full s ->
  exists i s',
    find_removing_page_within (S (Z.to_nat (number_frames s))) s
    = Some (Ok i, s') /\
    find_removing_page_within (Z.to_nat (2 * number_frames s)) s
    = Some (Ok i, s') /\
    find_removing_page s = (Ok i, s') /\
    searched s i s'.
Proof.
  intros Hfull. pose proof Hfull as [Hcap Hsz Hh].
  destruct (search_within (Z.to_nat (number_frames s)) s) as (i & s' & Hw & Hp);
    [done| |].
  { pose proof (referenced_le s). unfold len in *. lia. }
  exists i, s'. split; [done|]. split; [|split; [|done]].
  - eapply find_removing_page_within_mono; [|exact Hw]. lia.
  - by eapply find_removing_page_within_eq.
Qed.

(** *** The hit loop *)

Lemma resident_keys (l : list frame) : page <$> l = keys (content <$> l).
Proof. unfold keys. rewrite <- list_fmap_compose. done. Qed.

Lemma hit_scan_None (p : Z) (w : bool) (l : list frame) :
  hit_scan p w l = None <-> p ∉ page <$> l.
Proof.
  induction l as [|f l IH]; simpl.
  - split; [|done]. intros _ H; inversion H.
  - rewrite not_elem_of_cons. destruct (Z.eqb_spec (page f) p) as [->|Hne].
    + split; [done|]. intros [? _]; done.
    + destruct (hit_scan p w l); simpl.
      * split; [done|]. intros [_ Hn]. by apply IH in Hn.
      * split; [|done]. intros _. split; [done|]. by apply IH.
Qed.

(** A hit rewrites the first frame of the page: its bit is set, and its
    dirty flag too on a write. *)
Lemma hit_scan_Some (p : Z) (w : bool) (l l' : list frame) :
  hit_scan p w l = Some l' ->
  exists b, dict_get (content <$> l) p = Some b /\
    content <$> l' =
    dict_setitem (content <$> l) p (if w then true else b).
Proof.
  revert l'. induction l as [|f l IH]; intros l'; simpl; [done|].
  destruct (Z.eqb_spec (page f) p) as [->|Hne].
  - intros [= <-]. exists (dirty f). split; [done|]. done.
  - destruct (hit_scan p w l) as [l1|]; simpl; [|done].
    intros [= <-]. destruct (IH _ eq_refl) as (b & Hb & Hl1).
    exists b. split; [done|]. rewrite !fmap_cons, Hl1. simpl.
    by destruct (Z.eqb_spec (page f) p).
Qed.

(** *** The three ways an access goes *)

Lemma clock_access_hit (s : t) (p : Z) (w : bool) (l' : list frame) :
  hit_scan p w (frames s) = Some l' ->
  access_memory p w s = (Ok tt, with_frames l' s).
Proof.
  intros Hs. unfold access_memory. unfold_monad. by rewrite Hs.
Qed.

Lemma clock_access_load (s : t) (p : Z) (w : bool) :
  hit_scan p w (frames s) = None ->
  len (frames s) < number_frames s ->
  access_memory p w s =
  (Ok tt,
   Mk (number_frames s) (frames s ++ [Frame p w 1]) (clock_hand s)
      (page_faults s + 1) (disk_reads s + 1) (disk_writes s) (debug s)).
Proof.
  destruct_state s. intros Hs Hlen.
  unfold access_memory. unfold_fields. rewrite Hs.
  destruct (Z.ltb_spec (len l) nf); [done|lia].
Qed.

Lemma clock_access_evict (s : t) (p : Z) (w : bool) :
  full s ->
  hit_scan p w (frames s) = None ->
  exists i s2 victim,
    find_removing_page (faulted s) = (Ok i, s2) /\
    searched (faulted s) i s2 /\
    frames s2 !! Z.to_nat i = Some victim /\
    access_memory p w s =
    (Ok tt,
     Mk (number_frames s)
        (<[Z.to_nat i := Frame p w 1]> (frames s2)) (clock_hand s2)
        (page_faults s + 1) (disk_reads s + 1)
        (disk_writes s + (if dirty victim then 1 else 0)) (debug s)).
Proof.
  intros Hfull Hs.
  assert (full (faulted s)) as Hfull'.
  { destruct Hfull. by split. }
  destruct (search_bounded _ Hfull') as (i & s2 & _ & _ & Hfind & Hpost).
  pose proof Hpost as [Hi Hnf Hct Hh Hpf Hdr Hdw Hdbg (victim & Hv & _)].
  exists i, s2, victim. do 3 (split; [done|]).
  assert (len (frames s2) = number_frames s) as Hlen.
  { destruct Hfull as [_ <- _]. unfold len. f_equal.
    rewrite <- (length_fmap content (frames s2)), Hct.
    by rewrite length_fmap. }
  destruct_state s. unfold faulted in *. cbn in *.
  destruct Hfull as [Hcap Hsz Hhand]. cbn in *.
  unfold access_memory. unfold_monad.
  cbv beta iota zeta delta
    [with_page_faults with_disk_reads number_frames frames page_faults
     disk_reads disk_writes debug clock_hand].
  rewrite Hs. destruct (Z.ltb_spec (len l) nf); [lia|].
  rewrite Hfind.
  destruct s2 as [nf2 l2 h2 pf2 dr2 dw2 dbg2]. cbn in *. subst.
  unfold list_getitem, list_setitem.
  rewrite index_in_range by lia. rewrite Hv.
  destruct (dirty victim);
    cbv beta iota zeta delta
      [with_frames with_disk_writes number_frames frames page_faults
       disk_reads disk_writes debug clock_hand];
    rewrite index_in_range by lia; do 2 f_equal; lia.
Qed.

(** With no frame to give, the search finds the list of frames empty:
    the access raises, the fault already counted. *)
Lemma clock_access_raise (s : t) (p : Z) (w : bool) :
  frames s = [] -> number_frames s <= 0 ->
  access_memory p w s = (Raise IndexError, faulted s).
Proof.
  destruct_state s. intros -> Hn.
  unfold access_memory, faulted. unfold_fields. cbn.
  destruct (Z.ltb_spec (len (@nil frame)) nf) as [H|H].
  { unfold len in H. simpl in H. lia. }
  rewrite find_removing_page_eq.
  assert (list_getitem (@nil frame) h = Raise IndexError) as Hget.
  { unfold list_getitem, index, len. simpl.
    destruct (0 <=? h); [by destruct (_ <? _)|by destruct (_ <=? _)]. }
  unfold inspect_slot. unfold_fields. by rewrite Hget.
Qed.

(** *** The invariant of the unit *)

Record Inv (s : t) : Prop := {
  inv_capacity : 1 <= number_frames s;
  inv_nodup : NoDup (resident s);
  inv_size : len (frames s) <= number_frames s;
  inv_hand : 0 <= clock_hand s < number_frames s
}.

Lemma clock_fresh_inv (n : Z) : 1 <= n -> Inv (Mk n [] 0 0 0 0 false).
Proof.
  intros Hn. split; cbn; [done|apply NoDup_nil_2|unfold len; simpl; lia|lia].
Qed.

Lemma clock_perform_access (a : access) :
  perform a = access_memory (page_of a) (is_write_of a).
Proof. by destruct a. Qed.

Lemma len_content (l l' : list frame) :
  content <$> l' = content <$> l -> len l' = len l.
Proof.
  intros Hc. unfold len. f_equal.
  rewrite <- (length_fmap content l'), Hc. apply length_fmap.
Qed.

Lemma clock_step_hit (s : t) (a : access) (l' : list frame) :
  Inv s ->
  hit_scan (page_of a) (is_write_of a) (frames s) = Some l' ->
  exists s', perform a s = (Ok tt, s') /\ Inv s' /\
             step_spec number_frames resident dirty_of s a s'.
Proof.
  intros [Hcap Hnd Hsz Hh] Hs.
  eexists. split; [rewrite clock_perform_access; by apply clock_access_hit|].
  destruct (hit_scan_Some _ _ _ _ Hs) as (b & Hb & Hl').
  assert (page_of a ∈ keys (content <$> frames s)) as Hin
      by (apply dict_get_keys; eauto).
  assert (keys (content <$> l') = keys (content <$> frames s)) as Hkeys.
  { rewrite Hl'. by apply keys_setitem_present. }
  unfold resident in Hnd. rewrite resident_keys in Hnd.
  destruct_state s. unfold with_frames. cbn.
  split; [split|split]; unfold resident; cbn; rewrite ?resident_keys.
  - done.
  - by rewrite Hkeys.
  - unfold len in *. rewrite <- (length_fmap content l'), Hl'.
    rewrite length_setitem. apply contains_keys in Hin. rewrite Hin.
    by rewrite length_fmap.
  - done.
  - done.
  - left. unfold resident. cbn. by rewrite resident_keys.
  - by rewrite Hkeys.
  - left. split; [|done]. unfold evicted, resident. cbn.
    rewrite !resident_keys, Hkeys.
    apply filter_none. tauto.
  - intros Hw Hc q. unfold all_clean, dirty_of, resident in *. cbn in *.
    rewrite resident_keys in *. rewrite Hkeys. intros Hq.
    specialize (Hc q Hq). rewrite Hl', dict_get_setitem, Hw.
    destruct (Z.eqb_spec (page_of a) q) as [<-|]; [|done].
    by rewrite Hb in Hc.
Qed.

Lemma clock_step_load (s : t) (a : access) :
  Inv s ->
  hit_scan (page_of a) (is_write_of a) (frames s) = None ->
  len (frames s) < number_frames s ->
  exists s', perform a s = (Ok tt, s') /\ Inv s' /\
             step_spec number_frames resident dirty_of s a s'.
Proof.
  intros [Hcap Hnd Hsz Hh] Hs Hlen.
  eexists. split; [rewrite clock_perform_access; by apply clock_access_load|].
  apply hit_scan_None in Hs as Hp. rewrite resident_keys in Hp.
  unfold resident in Hnd. rewrite resident_keys in Hnd.
  destruct_state s.
  assert (content <$> l ++ [Frame (page_of a) (is_write_of a) 1]
          = (content <$> l) ++ [(page_of a, is_write_of a)]) as Hct
      by (by rewrite fmap_app).
  split; [split|split]; unfold resident; cbn; rewrite ?resident_keys.
  - done.
  - rewrite Hct, keys_snoc. apply NoDup_app. split; [done|].
    split; [|apply NoDup_singleton].
    intros x Hx ->%list_elem_of_singleton. done.
  - unfold len in *. rewrite length_app. simpl. lia.
  - done.
  - done.
  - right. unfold resident. cbn. by rewrite resident_keys.
  - rewrite Hct, keys_snoc. apply elem_of_app. right. left.
  - left. split; [|done]. unfold evicted, resident. cbn.
    rewrite !resident_keys, Hct, keys_snoc.
    apply filter_none. intros x Hx Hn. apply Hn, elem_of_app. by left.
  - intros Hw Hc q. unfold all_clean, dirty_of, resident in *. cbn in *.
    rewrite resident_keys in *.
    rewrite Hct, keys_snoc, dict_get_snoc by done. intros Hq.
    destruct (Z.eqb_spec (page_of a) q) as [<-|Hne]; [by rewrite Hw|].
    apply Hc. apply elem_of_app in Hq as [Hq|Hq%list_elem_of_singleton];
      [done|congruence].
Qed.

Lemma clock_step_evict (s : t) (a : access) :
  Inv s ->
  hit_scan (page_of a) (is_write_of a) (frames s) = None ->
  number_frames s <= len (frames s) ->
  exists s', perform a s = (Ok tt, s') /\ Inv s' /\
             step_spec number_frames resident dirty_of s a s'.
Proof.
  intros [Hcap Hnd Hsz Hh] Hs Hlen.
  assert (full s) as Hfull by (split; lia).
  destruct (clock_access_evict s _ _ Hfull Hs) as (i & s2 & victim & _ & Hpost & Hv & Hacc).
  eexists. split; [rewrite clock_perform_access; exact Hacc|]. clear Hacc.
  destruct Hpost as [Hi _ Hct Hh2 _ _ _ _ _].
  apply hit_scan_None in Hs as Hp. rewrite resident_keys in Hp.
  unfold resident in Hnd. rewrite resident_keys in Hnd.
  destruct_state s. unfold faulted in *. cbn in *.
  set (n := Z.to_nat i) in *.
  set (d := content <$> l) in *.
  assert (d !! n = Some (page victim, dirty victim)) as Hslot.
  { rewrite <- Hct, list_lookup_fmap, Hv. done. }
  assert (content <$> <[n := Frame (page_of a) (is_write_of a) 1]> (frames s2)
          = <[n := (page_of a, is_write_of a)]> d) as Hct'.
  { rewrite list_fmap_insert, Hct. done. }
  pose proof (overwrite_keys d n _ _ _ (is_write_of a) Hslot Hnd Hp) as Hkeys.
  pose proof (overwrite_nodup d n _ _ _ (is_write_of a) Hslot Hnd Hp) as Hnd'.
  pose proof (dict_get_slot d n _ _ Hslot Hnd) as Hvic.
  pose proof (overwrite_get d n _ _ _ (is_write_of a) Hslot Hnd Hp) as Hget.
  assert (page victim ∈ keys d) as Hq by (apply dict_get_keys; eauto).
  assert (page_of a <> page victim) as Hpq by (intros Heq; congruence).
  split; [split|split]; unfold resident; cbn; rewrite ?resident_keys.
  - done.
  - by rewrite Hct'.
  - unfold len in *. rewrite length_insert.
    rewrite <- (length_fmap content (frames s2)), Hct.
    unfold d. rewrite length_fmap. lia.
  - done.
  - done.
  - right. unfold resident. cbn. by rewrite resident_keys.
  - rewrite Hct'. apply Hkeys. by left.
  - right. exists (page victim). unfold evicted, dirty_of, resident. cbn.
    fold d. rewrite Hvic. split; [|done].
    rewrite !resident_keys, Hct'. fold d.
    apply filter_single; [done..| |].
    + rewrite Hkeys. intros [?|[_ ?]]; congruence.
    + intros x Hx Hne Hn. apply Hn, Hkeys. by right.
  - intros Hw Hc k. unfold all_clean, dirty_of, resident in *. cbn in *.
    rewrite resident_keys in *. fold d in Hc |- *.
    rewrite Hct'. intros [->|[Hk Hkq]]%Hkeys.
    + rewrite Hget by done. by rewrite Z.eqb_refl.
    + rewrite Hget by done.
      destruct (Z.eqb_spec (page_of a) k); [done|]. by apply Hc.
Qed.

Lemma clock_step (s : t) (a : access) :
  Inv s ->
  exists s', perform a s = (Ok tt, s') /\ Inv s' /\
             step_spec number_frames resident dirty_of s a s'.
Proof.
  intros HI.
  destruct (hit_scan (page_of a) (is_write_of a) (frames s)) as [l'|] eqn:Hs.
  - by eapply clock_step_hit.
  - destruct (Z.lt_ge_cases (len (frames s)) (number_frames s)).
    + by apply clock_step_load.
    + by apply clock_step_evict.
Qed.

Definition fault_counters (s : t) : Z * Z := (page_faults s, disk_reads s).

Lemma preserves_find_removing_page :
  preserves fault_counters find_removing_page.
Proof.
  intros s. destruct (find_removing_page s) as [r s'] eqn:Hfind.
  apply find_removing_page_counters in Hfind as (Hf & Hr & _).
  unfold fault_counters. simpl. by rewrite Hf, Hr.
Qed.

(** Whatever the state and the outcome, an access moves the fault and
    read counters together, by one on a miss and not at all on a hit. *)
Lemma clock_access_fault_count (s : t) (p : Z) (w : bool) :
  fault_count resident s p (access_memory p w s).2.
Proof.
  unfold access_memory. rewrite bind_get.
  destruct_state s. unfold fault_count, resident.
  cbn [number_frames frames page_faults disk_reads disk_writes debug
       clock_hand].
  destruct (hit_scan p w l) as [l'|] eqn:Hs.
  - left. split; [|done].
    destruct (decide (p ∈ page <$> l)) as [|Hn]; [done|].
    apply (hit_scan_None p w) in Hn. congruence.
  - right. apply hit_scan_None in Hs. split; [done|].
    rewrite !bind_modify. unfold with_page_faults, with_disk_reads.
    cbn [number_frames frames page_faults disk_reads disk_writes debug
         clock_hand].
    match goal with |- context [(?c ?s).2] =>
      assert (preserves fault_counters c) as Hpr end.
    { repeat first [apply preserves_find_removing_page
                   | case_match | preserves_step]. }
    specialize (Hpr (Mk nf l h (pf + 1) (dr + 1) dw dbg)).
    injection Hpr as Hf Hr. done.
Qed.

Lemma clock_read_hit (s : t) (p : Z) :
  p ∈ resident s -> dirty_of s p = false ->
  exists s', read_memory p s = (Ok tt, s') /\
    p ∈ resident s' /\ dirty_of s' p = false /\ same_counters s s'.
Proof.
  unfold resident, dirty_of. intros Hres Hclean.
  destruct (hit_scan p false (frames s)) as [l'|] eqn:Hs.
  2:{ apply hit_scan_None in Hs. done. }
  destruct (hit_scan_Some _ _ _ _ Hs) as (b & Hb & Hl').
  rewrite Hb in Hclean. subst b.
  eexists. split; [by apply clock_access_hit|].
  unfold with_frames. cbn. rewrite !resident_keys in *. rewrite Hl'.
  rewrite keys_setitem_present by done.
  rewrite dict_get_setitem, Z.eqb_refl. done.
Qed.

End ClockFacts.

Example lru_scenario_run :
  run [Read 1; Read 2; Read 1; Write 3] (Lru.Mk 2 [] 0 0 0 false 0) =
  (Ok tt, Lru.Mk 2 [(1, Lru.Frame false 3); (3, Lru.Frame true 4)] 3 3 0 false 4).
Proof. reflexivity. Qed.

(** * The properties of the three policies *)

(** ** Units as built by their constructors *)

Lemma lru_init_inv (cap : Z) (s0 : Lru.t) :
  1 <= cap -> Lru.init cap = Ok s0 ->
  LruFacts.Inv s0 /\ s0 = Lru.Mk cap [] 0 0 0 false 0.
Proof. intros Hcap [= <-]. split; [by apply LruFacts.lru_fresh_inv|done]. Qed.

Lemma clock_init_inv (cap : Z) (s0 : Clock.t) :
  1 <= cap -> Clock.init cap = Ok s0 ->
  ClockFacts.Inv s0 /\ s0 = Clock.Mk cap [] 0 0 0 0 false.
Proof. intros Hcap [= <-]. split; [by apply ClockFacts.clock_fresh_inv|done]. Qed.

Lemma rand_init_inv (cap : Z) (g : nat -> nat) (s0 : Rand.t) :
  1 <= cap -> Rand.init cap g = Ok s0 ->
  RandFacts.Inv s0 /\ s0 = Rand.Mk cap [] 0 0 0 false g.
Proof. intros Hcap [= <-]. split; [by apply RandFacts.rand_fresh_inv|done]. Qed.

(** ** Page faults *)

(** C1: for each of the three policies built with a capacity of at least 1
    and for every finite trace of reads and writes, the run returns
    normally and [get_total_page_faults] then equals the number of accesses
    whose page was not in the resident set when the access was processed;
    it is at least 1 as soon as the trace has one access. *)
Theorem page_faults_count (cap : Z) (accs : list access) :
  1 <= cap ->
  (forall s0, Lru.init cap = Ok s0 -> counts_faults Lru.resident accs s0) /\
  (forall s0, Clock.init cap = Ok s0 -> counts_faults Clock.resident accs s0) /\
  (forall g s0, Rand.init cap g = Ok s0 ->
                counts_faults Rand.resident accs s0).
Proof.
  intros Hcap. split; [|split].
  - intros s0 Hinit. destruct (lru_init_inv _ _ Hcap Hinit) as [HI ->].
    by apply (counts_faults_from _ _ _ _ LruFacts.lru_step).
  - intros s0 Hinit. destruct (clock_init_inv _ _ Hcap Hinit) as [HI ->].
    by apply (counts_faults_from _ _ _ _ ClockFacts.clock_step).
  - intros g s0 Hinit. destruct (rand_init_inv _ _ _ Hcap Hinit) as [HI ->].
    by apply (counts_faults_from _ _ _ _ RandFacts.rand_step).
Qed.

Lemma page_faults_count_witness :
  1 <= 2 /\
  counts_faults Lru.resident [Read 1; Write 2; Read 1; Read 3]
    (Lru.Mk 2 [] 0 0 0 false 0) /\
  counts_faults Clock.resident [Read 1; Write 2; Read 1; Read 3]
    (Clock.Mk 2 [] 0 0 0 0 false) /\
  counts_faults Rand.resident [Read 1; Write 2; Read 1; Read 3]
    (Rand.Mk 2 [] 0 0 0 false (fun n => n)).
Proof.
  assert (1 <= 2) as H by lia.
  split; [exact H|].
  pose proof (page_faults_count 2 [Read 1; Write 2; Read 1; Read 3] H)
    as (Hl & Hc & Hr).
  split; [exact (Hl _ eq_refl)|]. split; [exact (Hc _ eq_refl)|].
  exact (Hr _ _ eq_refl).
Defined.

(** ** Disk reads *)

(** C2: for each of the three policies, one access either hits and leaves
    both [get_total_page_faults] and [get_total_disk_reads] alone, or
    misses and moves each up by exactly one, whatever the state it starts
    from and whether it returns or raises; hence after every prefix of
    every trace the two counters are equal. *)
Theorem disk_reads_equal_page_faults :
  (forall (s : Lru.t) a,
      fault_count Lru.resident s (page_of a) (perform a s).2) /\
  (forall (s : Clock.t) a,
      fault_count Clock.resident s (page_of a) (perform a s).2) /\
  (forall (s : Rand.t) a,
      fault_count Rand.resident s (page_of a) (perform a s).2) /\
  (forall cap accs n,
      (forall s0, Lru.init cap = Ok s0 ->
         get_total_disk_reads (after (take n accs) s0)
         = get_total_page_faults (after (take n accs) s0)) /\
      (forall s0, Clock.init cap = Ok s0 ->
         get_total_disk_reads (after (take n accs) s0)
         = get_total_page_faults (after (take n accs) s0)) /\
      (forall g s0, Rand.init cap g = Ok s0 ->
         get_total_disk_reads (after (take n accs) s0)
         = get_total_page_faults (after (take n accs) s0))).
Proof.
  assert (forall (s : Lru.t) a,
             fault_count Lru.resident s (page_of a) (perform a s).2) as Hl.
  { intros s a. rewrite LruFacts.lru_perform_access.
    apply LruFacts.lru_access_fault_count. }
  assert (forall (s : Clock.t) a,
             fault_count Clock.resident s (page_of a) (perform a s).2) as Hc.
  { intros s a. rewrite ClockFacts.clock_perform_access.
    apply ClockFacts.clock_access_fault_count. }
  assert (forall (s : Rand.t) a,
             fault_count Rand.resident s (page_of a) (perform a s).2) as Hr.
  { intros s a. rewrite RandFacts.rand_perform_access.
    apply RandFacts.rand_access_fault_count. }
  do 3 (split; [done|]). intros cap accs n. split; [|split].
  - intros s0 [= <-].
    pose proof (run_reads_faults _ Hl (take n accs) (Lru.Mk cap [] 0 0 0 false 0)).
    cbn in *. lia.
  - intros s0 [= <-].
    pose proof (run_reads_faults _ Hc (take n accs) (Clock.Mk cap [] 0 0 0 0 false)).
    cbn in *. lia.
  - intros g s0 [= <-].
    pose proof (run_reads_faults _ Hr (take n accs) (Rand.Mk cap [] 0 0 0 false g)).
    cbn in *. lia.
Qed.

Lemma disk_reads_equal_page_faults_witness :
  get_total_disk_reads
    (after (take 2 [Read 1; Write 2; Read 3]) (Lru.Mk 1 [] 0 0 0 false 0))
  = get_total_page_faults
      (after (take 2 [Read 1; Write 2; Read 3]) (Lru.Mk 1 [] 0 0 0 false 0)).
Proof.
  exact (proj1 (proj2 (proj2 (proj2 disk_reads_equal_page_faults))
                  1 [Read 1; Write 2; Read 3] 2%nat) _ eq_refl).
Defined.

(** ** Construction with no frame *)

(** The constructors return a unit for a capacity of zero: none of them
    raises.  (Against C3 as stated.) *)
Lemma construction_not_rejected :
  ~ (exists e, Lru.init 0 = Raise e) /\
  ~ (exists e, Clock.init 0 = Raise e) /\
  ~ (exists e, Rand.init 0 (fun _ => O) = Raise e).
Proof. repeat split; intros [e He]; discriminate He. Qed.

(** C3, amended: for each of the three policies, construction with a
    capacity of zero or less returns a unit with no frame and all counters
    at zero (the constructors check nothing), and the first access to that
    unit, whatever its page and kind, raises once the fault and the disk
    read are counted: [ValueError] under LRU, where [min] finds no frame,
    [IndexError] under Clock and Random. *)
Theorem construction_unchecked (cap : Z) (a : access) :
  cap <= 0 ->
  (Lru.init cap = Ok (Lru.Mk cap [] 0 0 0 false 0) /\
   perform a (Lru.Mk cap [] 0 0 0 false 0)
   = (Raise ValueError, Lru.Mk cap [] 1 1 0 false 1)) /\
  (Clock.init cap = Ok (Clock.Mk cap [] 0 0 0 0 false) /\
   perform a (Clock.Mk cap [] 0 0 0 0 false)
   = (Raise IndexError, Clock.Mk cap [] 0 1 1 0 false)) /\
  (forall g,
      Rand.init cap g = Ok (Rand.Mk cap [] 0 0 0 false g) /\
      perform a (Rand.Mk cap [] 0 0 0 false g)
      = (Raise IndexError, Rand.Mk cap [] 1 1 0 false g)).
Proof.
  intros Hcap. split; [|split].
  - split; [done|]. rewrite LruFacts.lru_perform_access.
    by rewrite LruFacts.lru_access_raise.
  - split; [done|]. rewrite ClockFacts.clock_perform_access.
    by rewrite ClockFacts.clock_access_raise.
  - intros g. split; [done|]. rewrite RandFacts.rand_perform_access.
    by rewrite RandFacts.rand_access_raise.
Qed.

Lemma construction_unchecked_witness :
  0 <= 0 /\
  perform (Read 7) (Lru.Mk 0 [] 0 0 0 false 0)
  = (Raise ValueError, Lru.Mk 0 [] 1 1 0 false 1).
Proof.
  assert (0 <= 0) as H by lia.
  split; [exact H|].
  exact (proj2 (proj1 (construction_unchecked 0 (Read 7) H))).
Defined.

(** ** The resident set *)

(** C4: for each of the three policies built with a capacity of at least
    1, after every prefix of every trace the resident set holds at most
    capacity pages and holds no page twice. *)
Theorem resident_set_within_capacity (cap : Z) (accs : list access) (n : nat) :
  1 <= cap ->
  (forall s0, Lru.init cap = Ok s0 ->
     within_capacity Lru.resident cap (after (take n accs) s0)) /\
  (forall s0, Clock.init cap = Ok s0 ->
     within_capacity Clock.resident cap (after (take n accs) s0)) /\
  (forall g s0, Rand.init cap g = Ok s0 ->
     within_capacity Rand.resident cap (after (take n accs) s0)).
Proof.
  intros Hcap. split; [|split].
  - intros s0 Hinit. destruct (lru_init_inv _ _ Hcap Hinit) as [HI ->].
    pose proof (run_after _ _ _ _ LruFacts.lru_step (take n accs) _ HI) as [_ HI'].
    pose proof (run_capacity _ _ _ _ LruFacts.lru_step (take n accs) _ HI) as Hc.
    destruct HI' as [_ Hnd Hsz _]. cbn in Hc. rewrite Hc in Hsz.
    split; [|done]. unfold Lru.resident, keys, len in *.
    by rewrite length_fmap.
  - intros s0 Hinit. destruct (clock_init_inv _ _ Hcap Hinit) as [HI ->].
    pose proof (run_after _ _ _ _ ClockFacts.clock_step (take n accs) _ HI) as [_ HI'].
    pose proof (run_capacity _ _ _ _ ClockFacts.clock_step (take n accs) _ HI) as Hc.
    destruct HI' as [_ Hnd Hsz _]. cbn in Hc. rewrite Hc in Hsz.
    split; [|done]. unfold Clock.resident, len in *.
    by rewrite length_fmap.
  - intros g s0 Hinit. destruct (rand_init_inv _ _ _ Hcap Hinit) as [HI ->].
    pose proof (run_after _ _ _ _ RandFacts.rand_step (take n accs) _ HI) as [_ HI'].
    pose proof (run_capacity _ _ _ _ RandFacts.rand_step (take n accs) _ HI) as Hc.
    destruct HI' as [_ Hnd Hsz]. cbn in Hc. rewrite Hc in Hsz.
    split; [|done]. unfold Rand.resident, keys, len in *.
    by rewrite length_fmap.
Qed.

Lemma resident_set_within_capacity_witness :
  1 <= 2 /\
  within_capacity Clock.resident 2
    (after (take 3 [Read 1; Write 2; Read 3; Read 4])
       (Clock.Mk 2 [] 0 0 0 0 false)).
Proof.
  assert (1 <= 2) as H by lia.
  split; [exact H|].
  exact (proj1 (proj2 (resident_set_within_capacity
                         2 [Read 1; Write 2; Read 3; Read 4] 3 H)) _ eq_refl).
Defined.

(** C10: for each of the three policies built with a capacity of at least
    1, at any point of any trace a call of [read_memory] or [write_memory]
    returns normally and leaves its page in the resident set. *)
Theorem accessed_page_is_resident (cap : Z) :
  1 <= cap ->
  (forall s0, Lru.init cap = Ok s0 -> loads_page Lru.resident s0) /\
  (forall s0, Clock.init cap = Ok s0 -> loads_page Clock.resident s0) /\
  (forall g s0, Rand.init cap g = Ok s0 -> loads_page Rand.resident s0).
Proof.
  intros Hcap. split; [|split].
  - intros s0 Hinit. destruct (lru_init_inv _ _ Hcap Hinit) as [HI ->].
    by apply (loads_page_from _ _ _ _ LruFacts.lru_step).
  - intros s0 Hinit. destruct (clock_init_inv _ _ Hcap Hinit) as [HI ->].
    by apply (loads_page_from _ _ _ _ ClockFacts.clock_step).
  - intros g s0 Hinit. destruct (rand_init_inv _ _ _ Hcap Hinit) as [HI ->].
    by apply (loads_page_from _ _ _ _ RandFacts.rand_step).
Qed.

Lemma accessed_page_is_resident_witness :
  1 <= 1 /\
  exists s',
    perform (Write 9) (Rand.Mk 1 [(4, Rand.Frame false)] 1 1 0 false (fun n => n))
    = (Ok tt, s') /\ 9 ∈ Rand.resident s'.
Proof.
  assert (1 <= 1) as H by lia.
  split; [exact H|].
  exact (proj2 (proj2 (accessed_page_is_resident 1 H)) (fun n => n) _ eq_refl
           [Read 4] _ (Write 9) eq_refl).
Defined.

(** ** Disk writes *)

(** C8: for each of the three policies built with a capacity of at least
    1, at any point of any trace an access either evicts no page and
    leaves [get_total_disk_writes] alone, or evicts exactly one page and
    moves the counter up by one exactly if the frame of that page was
    dirty; hence a trace with no write leaves the counter at 0 after every
    prefix. *)
Theorem disk_writes_count_dirty_evictions (cap : Z) :
  1 <= cap ->
  (forall s0, Lru.init cap = Ok s0 ->
     writes_back Lru.resident Lru.dirty_of s0) /\
  (forall s0, Clock.init cap = Ok s0 ->
     writes_back Clock.resident Clock.dirty_of s0) /\
  (forall g s0, Rand.init cap g = Ok s0 ->
     writes_back Rand.resident Rand.dirty_of s0).
Proof.
  intros Hcap. split; [|split].
  - intros s0 Hinit. destruct (lru_init_inv _ _ Hcap Hinit) as [HI ->].
    apply (writes_back_from _ _ _ _ LruFacts.lru_step); [done..|].
    intros q Hq. inversion Hq.
  - intros s0 Hinit. destruct (clock_init_inv _ _ Hcap Hinit) as [HI ->].
    apply (writes_back_from _ _ _ _ ClockFacts.clock_step); [done..|].
    intros q Hq. inversion Hq.
  - intros g s0 Hinit. destruct (rand_init_inv _ _ _ Hcap Hinit) as [HI ->].
    apply (writes_back_from _ _ _ _ RandFacts.rand_step); [done..|].
    intros q Hq. inversion Hq.
Qed.

Lemma disk_writes_count_dirty_evictions_witness :
  1 <= 1 /\
  write_back Lru.resident Lru.dirty_of
    (Lru.Mk 1 [(1, Lru.Frame true 1)] 1 1 0 false 1)
    (perform (Read 2) (Lru.Mk 1 [(1, Lru.Frame true 1)] 1 1 0 false 1)).2.
Proof.
  assert (1 <= 1) as H by lia.
  split; [exact H|].
  exact (proj1 (proj1 (disk_writes_count_dirty_evictions 1 H) _ eq_refl)
           [Write 1] _ (Read 2) eq_refl).
Defined.

(** ** Hits *)

(** C9: for each of the three policies, if page [p] is resident with its
    dirty flag unset, any number of reads of [p] return normally and leave
    [get_total_disk_reads], [get_total_disk_writes] and
    [get_total_page_faults] as they were. *)
Theorem read_hits_change_no_counter (n : nat) (p : Z) :
  (forall s : Lru.t,
      p ∈ Lru.resident s -> Lru.dirty_of s p = false ->
      run (replicate n (Read p)) s = (Ok tt, after (replicate n (Read p)) s) /\
      same_counters s (after (replicate n (Read p)) s)) /\
  (forall s : Clock.t,
      p ∈ Clock.resident s -> Clock.dirty_of s p = false ->
      run (replicate n (Read p)) s = (Ok tt, after (replicate n (Read p)) s) /\
      same_counters s (after (replicate n (Read p)) s)) /\
  (forall s : Rand.t,
      p ∈ Rand.resident s -> Rand.dirty_of s p = false ->
      run (replicate n (Read p)) s = (Ok tt, after (replicate n (Read p)) s) /\
      same_counters s (after (replicate n (Read p)) s)).
Proof.
  split; [|split]; intros s.
  - apply (repeated_reads _ _ LruFacts.lru_read_hit).
  - apply (repeated_reads _ _ ClockFacts.clock_read_hit).
  - apply (repeated_reads _ _ RandFacts.rand_read_hit).
Qed.

Lemma read_hits_change_no_counter_witness :
  same_counters
    (Clock.Mk 2 [Clock.Frame 5 false 0; Clock.Frame 6 true 1] 1 2 2 0 false)
    (after (replicate 3 (Read 5))
       (Clock.Mk 2 [Clock.Frame 5 false 0; Clock.Frame 6 true 1] 1 2 2 0 false)).
Proof.
  refine (proj2 (proj1 (proj2 (read_hits_change_no_counter 3 5)) _ _ _)).
  - apply list_elem_of_here.
  - reflexivity.
Defined.

(** ** Eviction under LRU *)

Lemma lru_evicted_victim (d : dict Lru.frame) (p q : Z) (f : Lru.frame) :
  NoDup (keys d) -> q ∈ keys d -> p ∉ keys d ->
  filter (fun k => k ∉ keys (dict_remove d q ++ [(p, f)])) (keys d) = [q].
Proof.
  intros Hnd Hq Hp. rewrite keys_snoc.
  apply filter_single; [done..| |].
  - rewrite elem_of_app, keys_remove, list_elem_of_singleton by done.
    intros [[_ ?]| ->]; done.
  - intros x Hx Hne Hn. apply Hn.
    rewrite elem_of_app, keys_remove by done. by left.
Qed.

(** C5: under LRU with a capacity of at least 1, a fault that finds every
    frame taken evicts the resident page whose [last_used] stamp is
    strictly below that of every other resident page, counts a disk write
    exactly if the frame of that page is dirty, and loads the new page with
    [last_used] at the current logical clock and [dirty] set exactly on a
    write.  With capacity 2 and the accesses read 1, read 2, read 1,
    write 3: three faults, page 2 evicted, pages 1 and 3 resident at the
    end, no disk write. *)
Theorem lru_evicts_least_recently_used :
  (forall cap accs s0 s p w,
      1 <= cap -> Lru.init cap = Ok s0 -> run accs s0 = (Ok tt, s) ->
      p ∉ Lru.resident s -> cap <= len (Lru.frames s) ->
      exists q fq s',
        Lru.access_memory p w s = (Ok tt, s') /\
        dict_get (Lru.frames s) q = Some fq /\
        (forall r fr, dict_get (Lru.frames s) r = Some fr -> r <> q ->
                      Lru.last_used fq < Lru.last_used fr) /\
        evicted Lru.resident s s' = [q] /\
        Lru.disk_writes s' =
        Lru.disk_writes s + (if Lru.dirty fq then 1 else 0) /\
        Lru.recency_tracker s' = Lru.recency_tracker s + 1 /\
        Lru.frames s' =
        dict_remove (Lru.frames s) q
          ++ [(p, Lru.Frame w (Lru.recency_tracker s'))]) /\
  (let s0 := Lru.Mk 2 [] 0 0 0 false 0 in
   let s3 := after [Read 1; Read 2; Read 1] s0 in
   let s4 := after [Read 1; Read 2; Read 1; Write 3] s0 in
   Lru.init 2 = Ok s0 /\
   get_total_page_faults s4 = 3 /\
   evicted Lru.resident s3 s4 = [2] /\
   Lru.resident s4 = [1; 3] /\
   get_total_disk_writes s4 = 0).
Proof.
  split.
  - intros cap accs s0 s p w Hcap Hinit Hrun Hp Hfull.
    destruct (lru_init_inv _ _ Hcap Hinit) as [HI ->].
    pose proof (run_inv _ _ _ _ LruFacts.lru_step _ _ _ HI Hrun) as HIs.
    pose proof (run_capacity _ _ _ _ LruFacts.lru_step accs _ HI) as Hc.
    unfold after in Hc. rewrite Hrun in Hc. cbn in Hc.
    destruct HIs as [_ Hnd Hsz Hst]. unfold Lru.resident in *.
    destruct (min_by_nonempty (Lru.last_used_of (Lru.frames s))
                (keys (Lru.frames s))) as [q Hmin].
    { unfold keys, len in *. destruct (Lru.frames s); [simpl in *; lia|done]. }
    destruct (LruFacts.lru_access_evict s p w q Hp ltac:(lia) Hmin)
      as (fq & Hfq & Hacc).
    destruct (LruFacts.victim_spec _ _ _ Hst Hmin) as (fq' & Hfq' & Hleast).
    assert (fq' = fq) as -> by congruence.
    assert (q ∈ keys (Lru.frames s)) as Hq by (apply dict_get_keys; eauto).
    exists q, fq. eexists. split; [exact Hacc|].
    do 2 (split; [done|]). split; [|done].
    unfold evicted, Lru.resident. cbn. by apply lru_evicted_victim.
  - cbn zeta. repeat split; reflexivity.
Qed.

Lemma lru_evicts_least_recently_used_witness :
  1 <= 2 /\
  exists q fq s',
    Lru.access_memory 3 true
      (Lru.Mk 2 [(1, Lru.Frame false 3); (2, Lru.Frame false 2)] 2 2 0 false 3)
    = (Ok tt, s') /\
    dict_get [(1, Lru.Frame false 3); (2, Lru.Frame false 2)] q = Some fq /\
    evicted Lru.resident
      (Lru.Mk 2 [(1, Lru.Frame false 3); (2, Lru.Frame false 2)] 2 2 0 false 3)
      s' = [q].
Proof.
  assert (1 <= 2) as H by lia.
  split; [exact H|].
  assert (run [Read 1; Read 2; Read 1] (Lru.Mk 2 [] 0 0 0 false 0)
          = (Ok tt,
             Lru.Mk 2 [(1, Lru.Frame false 3); (2, Lru.Frame false 2)]
               2 2 0 false 3)) as Hrun by (vm_compute; reflexivity).
  destruct (proj1 lru_evicts_least_recently_used 2 [Read 1; Read 2; Read 1]
              _ _ 3 true H eq_refl Hrun)
    as (q & fq & s' & H1 & H2 & _ & H4 & _).
  - unfold Lru.resident, keys. cbn.
    intros Hin. apply elem_of_cons in Hin as [Hin|Hin]; [discriminate Hin|].
    apply elem_of_cons in Hin as [Hin|Hin]; [discriminate Hin|].
    inversion Hin.
  - unfold len. cbn. lia.
  - exists q, fq, s'. split; [exact H1|]. split; [exact H2|exact H4].
Defined.

(** ** The second-chance sweep of Clock *)

(** C6: under Clock with capacity 2 and the hand at 0, the accesses read 1,
    read 2, read 3 make the third access sweep: slot 0 (page 1) has its
    bit cleared and the hand goes to 1, slot 1 (page 2) has its bit cleared
    and the hand wraps to 0, slot 0 is then designated; page 1 is evicted
    and pages 2 and 3 are resident afterwards. *)
Theorem clock_second_chance_scenario :
  let s0 := Clock.Mk 2 [] 0 0 0 0 false in
  let s2 := after [Read 1; Read 2] s0 in
  let s3 := after [Read 1; Read 2; Read 3] s0 in
  Clock.init 2 = Ok s0 /\
  Clock.frames s2 = [Clock.Frame 1 false 1; Clock.Frame 2 false 1] /\
  Clock.clock_hand s2 = 0 /\
  (exists sa sb sc,
      Clock.inspect_slot (Clock.faulted s2) = (Ok Clock.Continue, sa) /\
      Clock.frames sa = [Clock.Frame 1 false 0; Clock.Frame 2 false 1] /\
      Clock.clock_hand sa = 1 /\
      Clock.inspect_slot sa = (Ok Clock.Continue, sb) /\
      Clock.frames sb = [Clock.Frame 1 false 0; Clock.Frame 2 false 0] /\
      Clock.clock_hand sb = 0 /\
      Clock.inspect_slot sb = (Ok (Clock.Return 0), sc) /\
      Clock.find_removing_page (Clock.faulted s2) = (Ok 0, sc)) /\
  run [Read 1; Read 2; Read 3] s0 = (Ok tt, s3) /\
  evicted Clock.resident s2 s3 = [1] /\
  Clock.resident s3 = [3; 2] /\
  (forall p, p ∈ Clock.resident s3 <-> p = 2 \/ p = 3).
Proof.
  cbn zeta. split; [reflexivity|]. do 2 (split; [by vm_compute|]).
  split.
  { exists (Clock.Mk 2 [Clock.Frame 1 false 0; Clock.Frame 2 false 1]
              1 3 3 0 false),
           (Clock.Mk 2 [Clock.Frame 1 false 0; Clock.Frame 2 false 0]
              0 3 3 0 false),
           (Clock.Mk 2 [Clock.Frame 1 false 0; Clock.Frame 2 false 0]
              1 3 3 0 false).
    repeat split; by vm_compute. }
  do 3 (split; [by vm_compute|]).
  intros p.
  replace (Clock.resident (after [Read 1; Read 2; Read 3]
                             (Clock.Mk 2 [] 0 0 0 0 false)))
    with [3; 2] by (by vm_compute).
  rewrite !elem_of_cons, elem_of_nil. tauto.
Qed.

(** C7: under Clock with a capacity of at least 1, when a fault finds
    every frame taken, the search for a frame to evict leaves its loop
    within 2 * capacity turns (one slot inspected per turn), returns
    normally, and designates a slot of the array whose reference bit is
    clear; with capacity 1 that slot is the only one, and the faulting
    page replaces the page it held. *)
Theorem clock_search_terminates (cap : Z) (accs : list access)
    (s0 s : Clock.t) :
  1 <= cap -> Clock.init cap = Ok s0 -> run accs s0 = (Ok tt, s) ->
  cap <= len (Clock.frames s) ->
  exists i s',
    Clock.find_removing_page_within (Z.to_nat (2 * cap)) (Clock.faulted s)
    = Some (Ok i, s') /\
    Clock.find_removing_page (Clock.faulted s) = (Ok i, s') /\
    0 <= i < cap /\
    (exists f, Clock.frames s' !! Z.to_nat i = Some f /\
               Clock.reference f = 0) /\
    (cap = 1 ->
     i = 0 /\
     forall p w, p ∉ Clock.resident s ->
       exists s'', Clock.access_memory p w s = (Ok tt, s'') /\
                   Clock.frames s'' = [Clock.Frame p w 1]).
Proof.
  intros Hcap Hinit Hrun Hlen.
  destruct (clock_init_inv _ _ Hcap Hinit) as [HI ->].
  pose proof (run_inv _ _ _ _ ClockFacts.clock_step _ _ _ HI Hrun) as HIs.
  pose proof (run_capacity _ _ _ _ ClockFacts.clock_step accs _ HI) as Hc.
  unfold after in Hc. rewrite Hrun in Hc. cbn in Hc.
  destruct HIs as [_ Hnd Hsz Hh].
  assert (ClockFacts.full s) as Hfull by (split; lia).
  assert (ClockFacts.full (Clock.faulted s)) as Hfull'.
  { destruct Hfull. by split. }
  destruct (ClockFacts.search_bounded _ Hfull')
    as (i & s' & _ & Hwithin & Hfind & Hpost).
  cbn in Hwithin. rewrite Hc in Hwithin.
  pose proof Hpost as [Hi _ Hct _ _ _ _ _ Hclear]. cbn in Hi, Hct.
  rewrite Hc in Hi.
  exists i, s'. do 4 (split; [done|]).
  intros ->. split; [lia|]. intros p w Hp.
  apply (ClockFacts.hit_scan_None p w) in Hp.
  destruct (ClockFacts.clock_access_evict s p w Hfull Hp)
    as (i' & s2 & victim & Hfind' & _ & Hv & Hacc).
  rewrite Hfind in Hfind'. injection Hfind' as <- <-.
  eexists. split; [exact Hacc|]. cbn.
  assert (i = 0) as -> by lia.
  apply ClockFacts.len_content in Hct. unfold len in *.
  destruct (Clock.frames s') as [|f [|f' l]]; simpl in *; [lia|done|lia].
Qed.

Lemma clock_search_terminates_witness :
  1 <= 2 /\
  exists i s',
    Clock.find_removing_page_within (Z.to_nat (2 * 2))
      (Clock.faulted
         (Clock.Mk 2 [Clock.Frame 1 false 1; Clock.Frame 2 false 1]
            0 2 2 0 false))
    = Some (Ok i, s') /\ 0 <= i < 2.
Proof.
  assert (1 <= 2) as H by lia.
  split; [exact H|].
  destruct (clock_search_terminates 2 [Read 1; Read 2] _ _ H eq_refl eq_refl)
    as (i & s' & H1 & _ & H3 & _).
  - unfold len. cbn. lia.
  - exists i, s'. split; [exact H1|exact H3].
Defined.

(** * Further properties of the three units *)

(** ** The units seen as caches

    What the three units have in common: a capacity, the resident pages
    with their dirty flags in the order of the frames, and the counters.
    One access moves this view in one of three ways, whatever the policy;
    the policies differ in the page they evict and in where they keep the
    new one. *)

Record cache : Type := Cache {
  c_capacity : Z;
  c_pages : list (Z * bool);
  c_faults : Z;
  c_reads : Z;
  c_writes : Z
}.

(** The dirty flags of the entries of a dictionary of frames. *)
Definition flags {V} (g : V -> bool) (d : dict V) : list (Z * bool) :=
  (fun e => (e.1, g e.2)) <$> d.
Arguments flags {V} g d : simpl never.

Definition lru_view (s : Lru.t) : cache :=
  Cache (Lru.number_frames s) (flags Lru.dirty (Lru.frames s))
    (Lru.page_faults s) (Lru.disk_reads s) (Lru.disk_writes s).

Definition clock_view (s : Clock.t) : cache :=
  Cache (Clock.number_frames s) (Clock.content <$> Clock.frames s)
    (Clock.page_faults s) (Clock.disk_reads s) (Clock.disk_writes s).

Definition rand_view (s : Rand.t) : cache :=
  Cache (Rand.number_frames s) (flags Rand.dirty (Rand.frames s))
    (Rand.page_faults s) (Rand.disk_reads s) (Rand.disk_writes s).

Inductive cache_step (a : access) (v : cache) : cache -> Prop :=
| cache_hit (b : bool) :
    dict_get (c_pages v) (page_of a) = Some b ->
    cache_step a v
      (Cache (c_capacity v)
         (dict_setitem (c_pages v) (page_of a) (is_write_of a || b))
         (c_faults v) (c_reads v) (c_writes v))
| cache_load :
    page_of a ∉ keys (c_pages v) ->
    len (c_pages v) < c_capacity v ->
    cache_step a v
      (Cache (c_capacity v) (c_pages v ++ [(page_of a, is_write_of a)])
         (c_faults v + 1) (c_reads v + 1) (c_writes v))
| cache_evict (q : Z) (b : bool) (pages' : list (Z * bool)) :
    page_of a ∉ keys (c_pages v) ->
    c_capacity v <= len (c_pages v) ->
    dict_get (c_pages v) q = Some b ->
    pages' ≡ₚ dict_remove (c_pages v) q ++ [(page_of a, is_write_of a)] ->
    cache_step a v
      (Cache (c_capacity v) pages' (c_faults v + 1) (c_reads v + 1)
         (c_writes v + (if b then 1 else 0))).

(** A trace of accesses, each one a step of the cache. *)
Inductive cache_run : list access -> cache -> cache -> Prop :=
| cache_run_nil (v : cache) : cache_run [] v v
| cache_run_cons (a : access) (accs : list access) (v v1 v2 : cache) :
    cache_step a v v1 -> cache_run accs v1 v2 ->
    cache_run (a :: accs) v v2.

Record cache_ok (v : cache) : Prop := {
  ok_capacity : 1 <= c_capacity v;
  ok_nodup : NoDup (keys (c_pages v));
  ok_size : len (c_pages v) <= c_capacity v
}.

Section FlagsFacts.
Context {V : Type} (g : V -> bool).
Implicit Types (d : dict V) (k : Z) (v : V).

Lemma keys_flags d : keys (flags g d) = keys d.
Proof.
  unfold keys, flags. rewrite <- list_fmap_compose. by apply list_fmap_ext.
Qed.

Lemma len_flags d : len (flags g d) = len d.
Proof. unfold len, flags. by rewrite length_fmap. Qed.

Lemma dict_get_flags d k : dict_get (flags g d) k = g <$> dict_get d k.
Proof.
  induction d as [|[k0 v0] d IH]; simpl; [done|].
  by destruct (k0 =? k).
Qed.

Lemma flags_setitem d k v :
  flags g (dict_setitem d k v) = dict_setitem (flags g d) k (g v).
Proof.
  induction d as [|[k0 v0] d IH]; simpl; [done|].
  destruct (k0 =? k); simpl; [done|]. by rewrite <- IH.
Qed.

Lemma flags_remove d k :
  flags g (dict_remove d k) = dict_remove (flags g d) k.
Proof.
  induction d as [|[k0 v0] d IH]; simpl; [done|].
  destruct (k0 =? k); simpl; [done|]. by rewrite <- IH.
Qed.

Lemma flags_snoc d k v : flags g (d ++ [(k, v)]) = flags g d ++ [(k, g v)].
Proof. unfold flags. by rewrite fmap_app. Qed.

End FlagsFacts.

(** Each policy moves its view by a step of the cache. *)

Lemma lru_refines (s : Lru.t) (a : access) :
  LruFacts.Inv s ->
  exists s', perform a s = (Ok tt, s') /\ LruFacts.Inv s' /\
             cache_step a (lru_view s) (lru_view s').
Proof.
  intros HI. destruct (LruFacts.lru_step s a HI) as (s' & Hp & HI' & _).
  exists s'. do 2 (split; [done|]).
  rewrite LruFacts.lru_perform_access in Hp.
  destruct HI as [Hcap Hnd Hsz Hst]. unfold lru_view.
  destruct (dict_get (Lru.frames s) (page_of a)) as [f|] eqn:Hf.
  - rewrite (LruFacts.lru_access_hit _ _ _ _ Hf) in Hp.
    injection Hp as <-. cbn. rewrite flags_setitem. cbn.
    apply (cache_hit a (Cache _ _ _ _ _) (Lru.dirty f)). cbn.
    by rewrite dict_get_flags, Hf.
  - apply dict_get_None in Hf.
    destruct (Z.lt_ge_cases (len (Lru.frames s)) (Lru.number_frames s)).
    + rewrite (LruFacts.lru_access_load _ _ _ Hf) in Hp by done.
      injection Hp as <-. cbn. rewrite flags_snoc. cbn.
      apply (cache_load a (Cache _ _ _ _ _)); cbn.
      * by rewrite keys_flags.
      * by rewrite len_flags.
    + destruct (min_by_nonempty (Lru.last_used_of (Lru.frames s))
                  (keys (Lru.frames s))) as [q Hmin].
      { unfold keys, len in *. destruct (Lru.frames s); [simpl in *; lia|done]. }
      destruct (LruFacts.lru_access_evict s _ (is_write_of a) q Hf H Hmin)
        as (fq & Hfq & Hacc).
      rewrite Hacc in Hp. injection Hp as <-. cbn.
      rewrite flags_snoc, flags_remove. cbn.
      apply (cache_evict a (Cache _ _ _ _ _) q (Lru.dirty fq)); cbn.
      * by rewrite keys_flags.
      * by rewrite len_flags.
      * by rewrite dict_get_flags, Hfq.
      * done.
Qed.

Lemma rand_refines (s : Rand.t) (a : access) :
  RandFacts.Inv s ->
  exists s', perform a s = (Ok tt, s') /\ RandFacts.Inv s' /\
             cache_step a (rand_view s) (rand_view s').
Proof.
  intros HI. destruct (RandFacts.rand_step s a HI) as (s' & Hp & HI' & _).
  exists s'. do 2 (split; [done|]).
  rewrite RandFacts.rand_perform_access in Hp.
  destruct HI as [Hcap Hnd Hsz]. unfold rand_view.
  destruct (dict_get (Rand.frames s) (page_of a)) as [f|] eqn:Hf.
  - rewrite (RandFacts.rand_access_hit _ _ _ _ Hf) in Hp.
    injection Hp as <-. cbn.
    replace (flags Rand.dirty
               (if is_write_of a
                then dict_setitem (Rand.frames s) (page_of a) (Rand.Frame true)
                else Rand.frames s))
      with (dict_setitem (flags Rand.dirty (Rand.frames s)) (page_of a)
              (is_write_of a || Rand.dirty f)).
    + apply (cache_hit a (Cache _ _ _ _ _) (Rand.dirty f)). cbn.
      by rewrite dict_get_flags, Hf.
    + destruct (is_write_of a); cbn.
      * by rewrite flags_setitem.
      * rewrite <- (flags_setitem Rand.dirty _ _ f). f_equal.
        clear -Hf. induction (Rand.frames s) as [|[k0 v0] d IH]; [done|].
        simpl in *. destruct (Z.eqb_spec k0 (page_of a)).
        -- by injection Hf as ->.
        -- by rewrite IH.
  - apply dict_get_None in Hf.
    destruct (Z.lt_ge_cases (len (Rand.frames s)) (Rand.number_frames s)).
    + rewrite (RandFacts.rand_access_load _ _ _ Hf) in Hp by done.
      injection Hp as <-. cbn. rewrite flags_snoc. cbn.
      apply (cache_load a (Cache _ _ _ _ _)); cbn.
      * by rewrite keys_flags.
      * by rewrite len_flags.
    + assert (Rand.frames s <> []) as Hne.
      { unfold len in *. destruct (Rand.frames s); [simpl in *; lia|done]. }
      destruct (RandFacts.rand_access_evict s _ (is_write_of a) Hf H Hne)
        as (fq & Hfq & Hacc).
      rewrite Hacc in Hp. injection Hp as <-. cbn.
      rewrite flags_snoc, flags_remove. cbn.
      eapply (cache_evict a (Cache _ _ _ _ _) _ (Rand.dirty fq)); cbn.
      * by rewrite keys_flags.
      * by rewrite len_flags.
      * by rewrite dict_get_flags, Hfq.
      * done.
Qed.

Lemma dict_remove_app_r {V} (d1 d2 : dict V) (k : Z) :
  k ∉ keys d1 -> dict_remove (d1 ++ d2) k = d1 ++ dict_remove d2 k.
Proof.
  unfold keys. induction d1 as [|[k0 v0] d1 IH]; simpl; [done|].
  rewrite not_elem_of_cons. intros [Hne Hk].
  destruct (Z.eqb_spec k0 k); [congruence|]. by rewrite IH.
Qed.

(** Overwriting the slot of [q] is, up to the order of the frames,
    removing [q] and adding the new page. *)
Lemma overwrite_perm {V} (d : dict V) (n : nat) (q p : Z) (b w : V) :
  d !! n = Some (q, b) -> NoDup (keys d) -> p ∉ keys d ->
  <[n := (p, w)]> d ≡ₚ dict_remove d q ++ [(p, w)].
Proof.
  intros Hslot Hnd Hp.
  destruct (overwrite_split d n q p b w Hslot Hnd Hp)
    as (d1 & d2 & -> & -> & Hq1 & _).
  rewrite dict_remove_app_r by done. simpl. rewrite Z.eqb_refl.
  rewrite <- Permutation_middle, <- app_assoc.
  rewrite (app_assoc d1 d2). apply Permutation_cons_append.
Qed.

Lemma clock_refines (s : Clock.t) (a : access) :
  ClockFacts.Inv s ->
  exists s', perform a s = (Ok tt, s') /\ ClockFacts.Inv s' /\
             cache_step a (clock_view s) (clock_view s').
Proof.
  intros HI. destruct (ClockFacts.clock_step s a HI) as (s' & Hp & HI' & _).
  exists s'. do 2 (split; [done|]).
  rewrite ClockFacts.clock_perform_access in Hp.
  destruct HI as [Hcap Hnd Hsz Hh]. unfold clock_view.
  unfold Clock.resident in Hnd. rewrite ClockFacts.resident_keys in Hnd.
  destruct (Clock.hit_scan (page_of a) (is_write_of a) (Clock.frames s))
    as [l'|] eqn:Hs.
  - rewrite (ClockFacts.clock_access_hit _ _ _ _ Hs) in Hp.
    injection Hp as <-. cbn.
    destruct (ClockFacts.hit_scan_Some _ _ _ _ Hs) as (b & Hb & ->).
    replace (if is_write_of a then true else b) with (is_write_of a || b)
      by (by destruct (is_write_of a)).
    by apply (cache_hit a (Cache _ _ _ _ _) b).
  - apply ClockFacts.hit_scan_None in Hs as Hnot.
    rewrite ClockFacts.resident_keys in Hnot.
    destruct (Z.lt_ge_cases (len (Clock.frames s)) (Clock.number_frames s)).
    + rewrite (ClockFacts.clock_access_load _ _ _ Hs) in Hp by done.
      injection Hp as <-. cbn. rewrite fmap_app. cbn.
      apply (cache_load a (Cache _ _ _ _ _)); cbn; [done|].
      unfold len in *. by rewrite length_fmap.
    + assert (ClockFacts.full s) as Hfull by (split; lia).
      destruct (ClockFacts.clock_access_evict s _ _ Hfull Hs)
        as (i & s2 & victim & _ & Hpost & Hv & Hacc).
      rewrite Hacc in Hp. injection Hp as <-. cbn.
      destruct Hpost as [_ _ Hct _ _ _ _ _ _]. cbn in Hct.
      assert ((Clock.content <$> Clock.frames s) !! Z.to_nat i
              = Some (Clock.page victim, Clock.dirty victim)) as Hslot.
      { by rewrite <- Hct, list_lookup_fmap, Hv. }
      apply (cache_evict a (Cache _ _ _ _ _) (Clock.page victim)
               (Clock.dirty victim)); cbn.
      * done.
      * unfold len in *. by rewrite length_fmap.
      * by eapply dict_get_slot.
      * rewrite list_fmap_insert, Hct. cbn.
        by eapply overwrite_perm.
Qed.

(** ** Runs of a unit are runs of the cache *)

Section Refinement.
Context {St : Type} `{MMU St}.
Variable view : St -> cache.
Variable Inv : St -> Prop.

Hypothesis refines :
  forall s a, Inv s ->
    exists s', perform a s = (Ok tt, s') /\ Inv s' /\
               cache_step a (view s) (view s').

Lemma run_refines (accs : list access) (s : St) :
  Inv s ->
  run accs s = (Ok tt, after accs s) /\ Inv (after accs s) /\
  cache_run accs (view s) (view (after accs s)).
Proof.
  unfold after. revert s. induction accs as [|a accs IH]; intros s HI.
  - repeat split; [done|]. constructor.
  - destruct (refines s a HI) as (s1 & Hp & HI1 & Hstep).
    destruct (IH s1 HI1) as (Hr & HI2 & Hrun).
    simpl. unfold bind. rewrite Hp. repeat split; [done..|].
    by econstructor.
Qed.

End Refinement.

(** ** What every run of the cache satisfies *)

Lemma cache_step_capacity (a : access) (v v' : cache) :
  cache_step a v v' -> c_capacity v' = c_capacity v.
Proof. by intros []. Qed.

Lemma cache_step_ok (a : access) (v v' : cache) :
  cache_step a v v' -> cache_ok v -> cache_ok v'.
Proof.
  intros Hstep [Hcap Hnd Hsz].
  destruct Hstep as [b Hb|Hp Hlen|q b pages' Hp Hlen Hq Hperm];
    split; cbn; try done.
  - rewrite keys_setitem_present; [done|]. apply dict_get_keys. eauto.
  - unfold len in *. rewrite length_setitem.
    assert (contains (c_pages v) (page_of a) = true) as ->; [|done].
    apply contains_keys, dict_get_keys. eauto.
  - rewrite keys_snoc. apply NoDup_app. split; [done|].
    split; [|apply NoDup_singleton].
    intros x Hx ->%list_elem_of_singleton. done.
  - unfold len in *. rewrite length_app. simpl. lia.
  - assert (keys pages' ≡ₚ keys (dict_remove (c_pages v) q) ++ [page_of a])
      as ->.
    { unfold keys. rewrite Hperm, fmap_app. done. }
    apply NoDup_app. split; [by apply NoDup_keys_remove|].
    split; [|apply NoDup_singleton].
    intros x Hx ->%list_elem_of_singleton.
    by apply Hp, (keys_remove_subseteq _ q).
  - unfold len in *. rewrite Hperm, length_app. simpl.
    assert (q ∈ keys (c_pages v)) as Hin by (apply dict_get_keys; eauto).
    pose proof (length_remove _ _ Hin). lia.
Qed.

Lemma cache_run_ok (accs : list access) (v v' : cache) :
  cache_run accs v v' -> cache_ok v -> cache_ok v'.
Proof.
  induction 1 as [|a accs v v1 v2 Hstep _ IH]; [done|].
  intros Hok. apply IH. by eapply cache_step_ok.
Qed.

Lemma cache_run_capacity (accs : list access) (v v' : cache) :
  cache_run accs v v' -> c_capacity v' = c_capacity v.
Proof.
  induction 1 as [|a accs v v1 v2 Hstep _ IH]; [done|].
  rewrite IH. by eapply cache_step_capacity.
Qed.

(** The pages resident after a step were resident before or are the page
    of the access. *)
Lemma cache_step_keys (a : access) (v v' : cache) (k : Z) :
  cache_step a v v' -> cache_ok v ->
  k ∈ keys (c_pages v') -> k = page_of a \/ k ∈ keys (c_pages v).
Proof.
  intros Hstep [_ Hnd _].
  destruct Hstep as [b Hb|Hp Hlen|q b pages' Hp Hlen Hq Hperm]; cbn.
  - rewrite keys_setitem_present; [by right|]. apply dict_get_keys. eauto.
  - rewrite keys_snoc, elem_of_app, list_elem_of_singleton. tauto.
  - assert (keys pages' ≡ₚ keys (dict_remove (c_pages v) q) ++ [page_of a])
      as ->.
    { unfold keys. rewrite Hperm, fmap_app. done. }
    rewrite elem_of_app, list_elem_of_singleton.
    intros [Hk|?]; [right|by left].
    by apply (keys_remove_subseteq _ q).
Qed.

Lemma cache_step_page (a : access) (v v' : cache) :
  cache_step a v v' -> page_of a ∈ keys (c_pages v').
Proof.
  intros [b Hb|Hp Hlen|q b pages' Hp Hlen Hq Hperm]; cbn.
  - rewrite keys_setitem_present; apply dict_get_keys; eauto.
  - rewrite keys_snoc, elem_of_app, list_elem_of_singleton. tauto.
  - assert (keys pages' ≡ₚ keys (dict_remove (c_pages v) q) ++ [page_of a])
      as ->.
    { unfold keys. rewrite Hperm, fmap_app. done. }
    rewrite elem_of_app, list_elem_of_singleton. tauto.
Qed.

(** ** Distinct pages of a trace *)

(** The pages of [accs] that are not in [seen], each once, in the order
    of their first access. *)
Fixpoint first_seen (seen : list Z) (accs : list access) : list Z :=
  match accs with
  | [] => []
  | a :: rest =>
      if decide (page_of a ∈ seen) then first_seen seen rest
      else page_of a :: first_seen (page_of a :: seen) rest
  end.

(** The distinct pages of a trace, in the order of their first access. *)
Definition distinct_pages (accs : list access) : list Z := first_seen [] accs.

(** The number of write accesses of a trace. *)
Definition writes_in (accs : list access) : Z :=
  len (filter (fun a => is_write_of a = true) accs).

Lemma first_seen_elem (seen : list Z) (accs : list access) (p : Z) :
  p ∈ first_seen seen accs <-> p ∈ page_of <$> accs /\ p ∉ seen.
Proof.
  revert seen. induction accs as [|a accs IH]; intros seen; simpl.
  - rewrite elem_of_nil. split; [done|]. intros [H _]. inversion H.
  - rewrite elem_of_cons. destruct (decide (page_of a ∈ seen)) as [Hin|Hnin].
    + rewrite IH. split; [tauto|]. intros [[->|?] ?]; tauto.
    + rewrite elem_of_cons, IH, not_elem_of_cons.
      destruct (decide (p = page_of a)) as [->|]; tauto.
Qed.

Lemma first_seen_NoDup (seen : list Z) (accs : list access) :
  NoDup (first_seen seen accs).
Proof.
  revert seen. induction accs as [|a accs IH]; intros seen; simpl.
  - apply NoDup_nil_2.
  - destruct (decide (page_of a ∈ seen)); [done|].
    apply NoDup_cons. split; [|done].
    rewrite first_seen_elem, not_elem_of_cons. tauto.
Qed.

Lemma first_seen_ext (seen seen' : list Z) (accs : list access) :
  (forall x, x ∈ seen <-> x ∈ seen') ->
  first_seen seen accs = first_seen seen' accs.
Proof.
  revert seen seen'. induction accs as [|a accs IH]; intros seen seen' Heq;
    simpl; [done|].
  destruct (decide (page_of a ∈ seen)) as [Hin|Hnin],
           (decide (page_of a ∈ seen')) as [Hin'|Hnin'].
  - by apply IH.
  - by apply Heq in Hin.
  - by apply Heq in Hin'.
  - f_equal. apply IH. intros x. rewrite !elem_of_cons, Heq. done.
Qed.

Lemma len_first_seen_le (seen : list Z) (accs : list access) :
  len (first_seen seen accs) <= len accs.
Proof.
  unfold len. revert seen. induction accs as [|a accs IH]; intros seen;
    simpl; [lia|].
  destruct (decide (page_of a ∈ seen)); simpl.
  - specialize (IH seen). lia.
  - specialize (IH (page_of a :: seen)). lia.
Qed.

(** ** Bounds on the counters *)

Lemma cache_step_faults (a : access) (v v' : cache) :
  cache_step a v v' ->
  (page_of a ∈ keys (c_pages v) /\ c_faults v' = c_faults v) \/
  ((page_of a ∉ keys (c_pages v)) /\ c_faults v' = c_faults v + 1).
Proof.
  intros [b Hb|Hp Hlen|q b pages' Hp Hlen Hq Hperm]; cbn.
  - left. split; [|done]. apply dict_get_keys. eauto.
  - by right.
  - by right.
Qed.

(** Every distinct page costs a fault, and no access costs more than
    one. *)
Lemma cache_run_faults_bounds (accs : list access) (v v' : cache) :
  cache_run accs v v' -> cache_ok v ->
  forall seen, keys (c_pages v) ⊆ seen ->
    c_faults v + len (first_seen seen accs) <= c_faults v' <=
    c_faults v + len accs.
Proof.
  induction 1 as [v|a accs v v1 v2 Hstep _ IH]; intros Hok seen Hsub.
  - unfold len. simpl. lia.
  - pose proof (cache_step_ok _ _ _ Hstep Hok) as Hok1.
    pose proof (cache_step_faults _ _ _ Hstep) as Hf.
    simpl. destruct (decide (page_of a ∈ seen)) as [Hin|Hnin].
    + assert (keys (c_pages v1) ⊆ seen) as Hsub1.
      { intros k Hk.
        destruct (cache_step_keys _ _ _ k Hstep Hok Hk) as [->|?]; auto. }
      specialize (IH Hok1 seen Hsub1). unfold len in *. simpl.
      destruct Hf as [[_ Hf]|[_ Hf]]; lia.
    + assert (keys (c_pages v1) ⊆ page_of a :: seen) as Hsub1.
      { intros k Hk. apply elem_of_cons.
        destruct (cache_step_keys _ _ _ k Hstep Hok Hk) as [->|?]; auto. }
      specialize (IH Hok1 _ Hsub1). unfold len in *. simpl.
      destruct Hf as [[Hin _]|[_ Hf]]; [by apply Hsub in Hin|lia].
Qed.

(** Resident pages and write-backs are all paid for by faults. *)
Lemma cache_run_writes_faults (accs : list access) (v v' : cache) :
  cache_run accs v v' -> cache_ok v ->
  c_writes v + len (c_pages v) <= c_faults v ->
  c_writes v' + len (c_pages v') <= c_faults v'.
Proof.
  induction 1 as [v|a accs v v1 v2 Hstep _ IH]; intros Hok Hle; [done|].
  apply IH; [by eapply cache_step_ok|].
  destruct Hstep as [b Hb|Hp Hlen|q b pages' Hp Hlen Hq Hperm]; cbn.
  - unfold len in *. rewrite length_setitem.
    assert (contains (c_pages v) (page_of a) = true) as ->; [|done].
    apply contains_keys, dict_get_keys. eauto.
  - unfold len in *. rewrite length_app. simpl. lia.
  - unfold len in *. rewrite Hperm, length_app. simpl.
    assert (q ∈ keys (c_pages v)) as Hin by (apply dict_get_keys; eauto).
    pose proof (length_remove _ _ Hin). destruct b; lia.
Qed.

(** ** A trace that fits in the frames *)

Lemma cache_run_cold (accs : list access) (v v' : cache) :
  cache_run accs v v' -> cache_ok v ->
  len (c_pages v) + len (first_seen (keys (c_pages v)) accs) <= c_capacity v ->
  keys (c_pages v') = keys (c_pages v) ++ first_seen (keys (c_pages v)) accs /\
  c_faults v' = c_faults v + len (first_seen (keys (c_pages v)) accs) /\
  c_writes v' = c_writes v.
Proof.
  induction 1 as [v|a accs v v1 v2 Hstep _ IH]; intros Hok Hfit.
  - simpl. rewrite app_nil_r. unfold len. simpl. split; [done|]. lia.
  - pose proof (cache_step_ok _ _ _ Hstep Hok) as Hok1.
    simpl in *. destruct (decide (page_of a ∈ keys (c_pages v))) as [Hin|Hnin].
    + destruct Hstep as [b Hb|Hp Hlen|q b pages' Hp Hlen Hq Hperm]; [|done..].
      cbn in *. rewrite keys_setitem_present in IH by done.
      unfold len in *. rewrite length_setitem in IH.
      apply contains_keys in Hin as Hc. rewrite Hc in IH.
      by apply IH.
    + assert (len (page_of a :: first_seen (page_of a :: keys (c_pages v)) accs)
              = 1 + len (first_seen (page_of a :: keys (c_pages v)) accs))
        as Hlen1 by (unfold len; simpl; lia).
      rewrite Hlen1 in *.
      pose proof (len_first_seen_le (page_of a :: keys (c_pages v)) accs).
      assert (0 <= len (first_seen (page_of a :: keys (c_pages v)) accs))
        by (unfold len; lia).
      destruct Hstep as [b Hb|Hp Hlen|q b pages' Hp Hlen Hq Hperm].
      * exfalso. apply Hnin, dict_get_keys. eauto.
      * cbn in *. rewrite keys_snoc in IH.
        rewrite (first_seen_ext (keys (c_pages v) ++ [page_of a])
                   (page_of a :: keys (c_pages v))) in IH.
        2:{ intros x. rewrite elem_of_app, !elem_of_cons, elem_of_nil.
            tauto. }
        destruct IH as (Hk & Hf & Hw); [done| |].
        { unfold len in *. rewrite length_app. simpl. lia. }
        rewrite Hk, Hf, Hw, <- app_assoc. simpl. split; [done|]. lia.
      * lia.
Qed.

(** ** Dirty frames and write-backs *)

(** The number of dirty frames. *)
Definition dirty_count (d : list (Z * bool)) : Z :=
  len (filter (fun e => e.2 = true) d).

Definition bit (b : bool) : Z := if b then 1 else 0.

Lemma dirty_count_cons (k : Z) (b : bool) (d : list (Z * bool)) :
  dirty_count ((k, b) :: d) = bit b + dirty_count d.
Proof.
  unfold dirty_count, len. destruct b.
  - rewrite filter_cons_True by done. simpl. lia.
  - rewrite filter_cons_False by (simpl; congruence). simpl. lia.
Qed.

Lemma dirty_count_app (d1 d2 : list (Z * bool)) :
  dirty_count (d1 ++ d2) = dirty_count d1 + dirty_count d2.
Proof.
  unfold dirty_count, len. rewrite filter_app, length_app. lia.
Qed.

Lemma dirty_count_perm (d1 d2 : list (Z * bool)) :
  d1 ≡ₚ d2 -> dirty_count d1 = dirty_count d2.
Proof. intros Hp. unfold dirty_count, len. by rewrite Hp. Qed.

Lemma dirty_count_setitem (d : list (Z * bool)) (p : Z) (b x : bool) :
  dict_get d p = Some b ->
  dirty_count (dict_setitem d p x) + bit b = dirty_count d + bit x.
Proof.
  induction d as [|[k0 b0] d IH]; simpl; [done|].
  destruct (Z.eqb_spec k0 p) as [->|Hne].
  - intros [= ->]. rewrite !dirty_count_cons. lia.
  - intros Hb. rewrite !dirty_count_cons. specialize (IH Hb). lia.
Qed.

Lemma dirty_count_remove (d : list (Z * bool)) (q : Z) (b : bool) :
  dict_get d q = Some b ->
  dirty_count (dict_remove d q) + bit b = dirty_count d.
Proof.
  induction d as [|[k0 b0] d IH]; simpl; [done|].
  destruct (Z.eqb_spec k0 q) as [->|Hne].
  - intros [= ->]. rewrite !dirty_count_cons. lia.
  - intros Hb. rewrite !dirty_count_cons. specialize (IH Hb). lia.
Qed.

Lemma dirty_count_nonneg (d : list (Z * bool)) : 0 <= dirty_count d.
Proof. unfold dirty_count, len. lia. Qed.

Lemma writes_in_cons (a : access) (accs : list access) :
  writes_in (a :: accs) = bit (is_write_of a) + writes_in accs.
Proof.
  unfold writes_in, len. destruct (is_write_of a) eqn:Hw.
  - rewrite filter_cons_True by done. simpl. lia.
  - rewrite filter_cons_False by congruence. simpl. lia.
Qed.

(** Write-backs and dirty frames are all paid for by write accesses. *)
Lemma cache_step_writes (a : access) (v v' : cache) :
  cache_step a v v' ->
  c_writes v' + dirty_count (c_pages v') <=
  c_writes v + dirty_count (c_pages v) + bit (is_write_of a).
Proof.
  intros [b Hb|Hp Hlen|q b pages' Hp Hlen Hq Hperm]; cbn.
  - pose proof (dirty_count_setitem _ _ _ (is_write_of a || b) Hb).
    destruct (is_write_of a), b; simpl in *; lia.
  - rewrite dirty_count_app, dirty_count_cons.
    change (dirty_count []) with 0. lia.
  - rewrite (dirty_count_perm _ _ Hperm), dirty_count_app, dirty_count_cons.
    change (dirty_count []) with 0.
    pose proof (dirty_count_remove _ _ _ Hq). fold (bit b). lia.
Qed.

Lemma cache_run_writes (accs : list access) (v v' : cache) :
  cache_run accs v v' ->
  c_writes v' + dirty_count (c_pages v') <=
  c_writes v + dirty_count (c_pages v) + writes_in accs.
Proof.
  induction 1 as [v|a accs v v1 v2 Hstep _ IH].
  - change (writes_in []) with 0. lia.
  - rewrite writes_in_cons. pose proof (cache_step_writes _ _ _ Hstep). lia.
Qed.

Lemma dict_get_in {V} (d : dict V) (k : Z) (x : V) :
  dict_get d k = Some x -> (k, x) ∈ d.
Proof.
  induction d as [|[k0 v0] d IH]; simpl; [done|].
  destruct (Z.eqb_spec k0 k) as [->|Hne].
  - intros [= ->]. left.
  - intros Hx. right. auto.
Qed.

Lemma in_dict_get {V} (d : dict V) (k : Z) (x : V) :
  NoDup (keys d) -> (k, x) ∈ d -> dict_get d k = Some x.
Proof.
  unfold keys. induction d as [|[k0 v0] d IH]; simpl.
  - intros _ Hin. inversion Hin.
  - rewrite NoDup_cons, elem_of_cons. intros [Hk0 Hnd] [[= -> ->]|Hin].
    + by rewrite Z.eqb_refl.
    + destruct (Z.eqb_spec k0 k) as [->|Hne]; [|auto].
      exfalso. apply Hk0. apply list_elem_of_fmap. by exists (k, x).
Qed.

Lemma dict_remove_subseteq {V} (d : dict V) (k : Z) : dict_remove d k ⊆ d.
Proof.
  induction d as [|[k0 v0] d IH]; simpl; [done|].
  destruct (k0 =? k).
  - by apply list_subseteq_cons.
  - intros x. rewrite !elem_of_cons. intros [->|Hx]; [by left|].
    right. by apply IH.
Qed.

(** A frame is dirty after a step only if it was dirty before or the
    step is a write to its page. *)
Lemma cache_step_dirty (a : access) (v v' : cache) (k : Z) :
  cache_step a v v' -> cache_ok v ->
  dict_get (c_pages v') k = Some true ->
  dict_get (c_pages v) k = Some true \/
  (k = page_of a /\ is_write_of a = true).
Proof.
  intros Hstep [_ Hnd _].
  destruct Hstep as [b Hb|Hp Hlen|q b pages' Hp Hlen Hq Hperm]; cbn.
  - rewrite dict_get_setitem. destruct (Z.eqb_spec (page_of a) k) as [<-|].
    + intros [= Hor]. destruct (is_write_of a); [by right|].
      simpl in Hor. subst b. by left.
    + by left.
  - rewrite dict_get_snoc by done.
    destruct (Z.eqb_spec (page_of a) k) as [<-|]; [|by left].
    intros [= ->]. by right.
  - intros Hk%dict_get_in. rewrite Hperm in Hk.
    apply elem_of_app in Hk as [Hk|Hk%list_elem_of_singleton].
    + left. apply in_dict_get; [done|]. by apply (dict_remove_subseteq _ q).
    + injection Hk as -> <-. by right.
Qed.

Lemma cache_run_dirty (accs : list access) (v v' : cache) (k : Z) :
  cache_run accs v v' -> cache_ok v ->
  Forall (fun a => is_write_of a = true -> page_of a <> k) accs ->
  dict_get (c_pages v) k <> Some true ->
  dict_get (c_pages v') k <> Some true.
Proof.
  induction 1 as [v|a accs v v1 v2 Hstep _ IH]; intros Hok Hall Hclean;
    [done|].
  apply Forall_cons in Hall as [Ha Hall].
  apply IH; [by eapply cache_step_ok|done|].
  intros Hd.
  destruct (cache_step_dirty _ _ _ k Hstep Hok Hd) as [?|[-> Hw]]; [done|].
  by apply Ha.
Qed.

(** A write leaves the frame of its page dirty. *)
Lemma cache_step_write (a : access) (v v' : cache) :
  cache_step a v v' -> cache_ok v -> is_write_of a = true ->
  dict_get (c_pages v') (page_of a) = Some true.
Proof.
  intros Hstep Hok Hw. pose proof (cache_step_ok _ _ _ Hstep Hok) as [_ Hnd' _].
  destruct Hstep as [b Hb|Hp Hlen|q b pages' Hp Hlen Hq Hperm]; cbn in *.
  - by rewrite dict_get_setitem, Z.eqb_refl, Hw.
  - by rewrite dict_get_snoc, Z.eqb_refl, Hw.
  - apply in_dict_get; [done|]. rewrite Hperm, Hw.
    apply elem_of_app. right. left.
Qed.

(** ** A single frame *)

Lemma cache_step_single (a : access) (v v1 v2 : cache) :
  cache_ok v -> c_capacity v = 1 ->
  cache_step a v v1 -> cache_step a v v2 -> v1 = v2.
Proof.
  intros [_ Hnd Hsz] Hcap H1 H2.
  destruct H1 as [b Hb|Hp Hlen|q b pages' Hp Hlen Hq Hperm];
    destruct H2 as [b2 Hb2|Hp2 Hlen2|q2 b2 pages2 Hp2 Hlen2 Hq2 Hperm2];
    try done; try lia;
    try (exfalso; (apply Hp || apply Hp2); apply dict_get_keys; by eauto).
  - congruence.
  - unfold len in *. destruct (c_pages v) as [|[q0 b0] [|e d]];
      simpl in *; try lia.
    destruct (Z.eqb_spec q0 q); [|done]. destruct (Z.eqb_spec q0 q2); [|done].
    simpl in *. injection Hq as <-. injection Hq2 as <-.
    apply Permutation_singleton_r in Hperm, Hperm2. by subst.
Qed.

Lemma cache_run_single (accs : list access) (v v1 v2 : cache) :
  cache_ok v -> c_capacity v = 1 ->
  cache_run accs v v1 -> cache_run accs v v2 -> v1 = v2.
Proof.
  intros Hok Hcap H1. revert v2.
  induction H1 as [v|a accs v va vb Hstep _ IH]; intros v2 H2;
    inversion H2; subst; [done|].
  match goal with
  | Hs : cache_step a v ?v' |- _ =>
      assert (va = v') as <- by by eapply cache_step_single
  end.
  apply IH; [by eapply cache_step_ok| |done].
  by rewrite (cache_step_capacity _ _ _ Hstep).
Qed.

(** ** The three units from their construction *)

Lemma fresh_cache_ok (cap : Z) : 1 <= cap -> cache_ok (Cache cap [] 0 0 0).
Proof.
  intros Hcap. split; cbn; [done|apply NoDup_nil_2|unfold len; simpl; lia].
Qed.

Lemma lru_run_cache (cap : Z) (accs : list access) (s0 : Lru.t) :
  1 <= cap -> Lru.init cap = Ok s0 ->
  run accs s0 = (Ok tt, after accs s0) /\
  cache_run accs (Cache cap [] 0 0 0) (lru_view (after accs s0)).
Proof.
  intros Hcap Hinit. destruct (lru_init_inv _ _ Hcap Hinit) as [HI ->].
  destruct (run_refines lru_view _ lru_refines accs _ HI) as (Hr & _ & Hc).
  done.
Qed.

Lemma clock_run_cache (cap : Z) (accs : list access) (s0 : Clock.t) :
  1 <= cap -> Clock.init cap = Ok s0 ->
  run accs s0 = (Ok tt, after accs s0) /\
  cache_run accs (Cache cap [] 0 0 0) (clock_view (after accs s0)).
Proof.
  intros Hcap Hinit. destruct (clock_init_inv _ _ Hcap Hinit) as [HI ->].
  destruct (run_refines clock_view _ clock_refines accs _ HI) as (Hr & _ & Hc).
  done.
Qed.

Lemma rand_run_cache (cap : Z) (g : nat -> nat) (accs : list access)
    (s0 : Rand.t) :
  1 <= cap -> Rand.init cap g = Ok s0 ->
  run accs s0 = (Ok tt, after accs s0) /\
  cache_run accs (Cache cap [] 0 0 0) (rand_view (after accs s0)).
Proof.
  intros Hcap Hinit. destruct (rand_init_inv _ _ _ Hcap Hinit) as [HI ->].
  destruct (run_refines rand_view _ rand_refines accs _ HI) as (Hr & _ & Hc).
  done.
Qed.

Lemma lru_resident_view (s : Lru.t) :
  Lru.resident s = keys (c_pages (lru_view s)).
Proof. unfold Lru.resident, lru_view. cbn. by rewrite keys_flags. Qed.

Lemma rand_resident_view (s : Rand.t) :
  Rand.resident s = keys (c_pages (rand_view s)).
Proof. unfold Rand.resident, rand_view. cbn. by rewrite keys_flags. Qed.

Lemma clock_resident_view (s : Clock.t) :
  Clock.resident s = keys (c_pages (clock_view s)).
Proof. unfold Clock.resident, clock_view. cbn. apply ClockFacts.resident_keys. Qed.

(** X1: for each of the three policies built with a capacity of at least
    1, the number of page faults of a trace lies between its number of
    distinct pages and its number of accesses. *)
Theorem page_faults_bounds (cap : Z) (accs : list access) :
  1 <= cap ->
  (forall s0, Lru.init cap = Ok s0 ->
     len (distinct_pages accs) <= get_total_page_faults (after accs s0)
     <= len accs) /\
  (forall s0, Clock.init cap = Ok s0 ->
     len (distinct_pages accs) <= get_total_page_faults (after accs s0)
     <= len accs) /\
  (forall g s0, Rand.init cap g = Ok s0 ->
     len (distinct_pages accs) <= get_total_page_faults (after accs s0)
     <= len accs).
Proof.
  intros Hcap.
  assert (forall v, cache_run accs (Cache cap [] 0 0 0) v ->
                    len (distinct_pages accs) <= c_faults v <= len accs) as Hb.
  { intros v Hrun.
    pose proof (cache_run_faults_bounds _ _ _ Hrun (fresh_cache_ok _ Hcap) [])
      as Hbounds. cbn in Hbounds. unfold distinct_pages.
    specialize (Hbounds ltac:(done)). lia. }
  split; [|split].
  - intros s0 Hinit. destruct (lru_run_cache _ accs _ Hcap Hinit) as [_ Hc].
    apply (Hb _ Hc).
  - intros s0 Hinit. destruct (clock_run_cache _ accs _ Hcap Hinit) as [_ Hc].
    apply (Hb _ Hc).
  - intros g s0 Hinit. destruct (rand_run_cache _ _ accs _ Hcap Hinit) as [_ Hc].
    apply (Hb _ Hc).
Qed.

Lemma page_faults_bounds_witness :
  1 <= 2 /\
  len (distinct_pages [Read 1; Write 2; Read 3; Read 1])
  <= get_total_page_faults
       (after [Read 1; Write 2; Read 3; Read 1] (Clock.Mk 2 [] 0 0 0 0 false))
  <= len [Read 1; Write 2; Read 3; Read 1].
Proof.
  assert (1 <= 2) as H by lia.
  split; [exact H|].
  exact (proj1 (proj2 (page_faults_bounds 2 [Read 1; Write 2; Read 3; Read 1] H))
           _ eq_refl).
Defined.

Lemma distinct_pages_nil (accs : list access) :
  distinct_pages accs = [] -> accs = [].
Proof.
  destruct accs as [|a accs]; [done|]. unfold distinct_pages. simpl.
  destruct (decide (page_of a ∈ [])) as [Hin|]; [inversion Hin|done].
Qed.

(** X2: for each of the three policies, a trace whose distinct pages are
    no more than the capacity runs without an eviction: it returns
    normally, faults once per distinct page, writes nothing back, and
    leaves exactly its distinct pages resident, in the order of their
    first access. *)
Theorem trace_fitting_in_frames (cap : Z) (accs : list access) :
  len (distinct_pages accs) <= cap ->
  (forall s0, Lru.init cap = Ok s0 ->
     run accs s0 = (Ok tt, after accs s0) /\
     Lru.resident (after accs s0) = distinct_pages accs /\
     get_total_page_faults (after accs s0) = len (distinct_pages accs) /\
     get_total_disk_writes (after accs s0) = 0) /\
  (forall s0, Clock.init cap = Ok s0 ->
     run accs s0 = (Ok tt, after accs s0) /\
     Clock.resident (after accs s0) = distinct_pages accs /\
     get_total_page_faults (after accs s0) = len (distinct_pages accs) /\
     get_total_disk_writes (after accs s0) = 0) /\
  (forall g s0, Rand.init cap g = Ok s0 ->
     run accs s0 = (Ok tt, after accs s0) /\
     Rand.resident (after accs s0) = distinct_pages accs /\
     get_total_page_faults (after accs s0) = len (distinct_pages accs) /\
     get_total_disk_writes (after accs s0) = 0).
Proof.
  intros Hfit.
  destruct (Z.lt_ge_cases cap 1) as [Hsmall|Hcap].
  { assert (accs = []) as ->.
    { apply distinct_pages_nil. unfold len in *.
      destruct (distinct_pages accs); [done|simpl in *; lia]. }
    split; [|split]; [intros s0 [= <-]..|intros g s0 [= <-]]; done. }
  assert (forall v, cache_run accs (Cache cap [] 0 0 0) v ->
            keys (c_pages v) = distinct_pages accs /\
            c_faults v = len (distinct_pages accs) /\ c_writes v = 0) as Hb.
  { intros v Hrun.
    pose proof (cache_run_cold _ _ _ Hrun (fresh_cache_ok _ Hcap)) as Hcold.
    cbn in Hcold. unfold distinct_pages in *.
    change (keys (@nil (Z * bool))) with (@nil Z) in Hcold.
    destruct Hcold as (Hk & Hf & Hw); [unfold len in *; simpl; lia|].
    rewrite Hk, Hf, Hw. done. }
  split; [|split].
  - intros s0 Hinit. destruct (lru_run_cache _ accs _ Hcap Hinit) as [Hr Hc].
    split; [done|]. rewrite lru_resident_view. apply (Hb _ Hc).
  - intros s0 Hinit. destruct (clock_run_cache _ accs _ Hcap Hinit) as [Hr Hc].
    split; [done|]. rewrite clock_resident_view. apply (Hb _ Hc).
  - intros g s0 Hinit.
    destruct (rand_run_cache _ _ accs _ Hcap Hinit) as [Hr Hc].
    split; [done|]. rewrite rand_resident_view. apply (Hb _ Hc).
Qed.

Lemma trace_fitting_in_frames_witness :
  len (distinct_pages [Read 4; Write 2; Read 4; Write 9]) <= 3 /\
  Rand.resident
    (after [Read 4; Write 2; Read 4; Write 9]
       (Rand.Mk 3 [] 0 0 0 false (fun n => n)))
  = distinct_pages [Read 4; Write 2; Read 4; Write 9].
Proof.
  assert (len (distinct_pages [Read 4; Write 2; Read 4; Write 9]) <= 3) as H
      by (vm_compute; discriminate).
  split; [exact H|].
  exact (proj1 (proj2 (proj2 (proj2 (trace_fitting_in_frames 3 _ H))
                         (fun n => n) _ eq_refl))).
Defined.

(** X3: for each of the three policies built with a capacity of at least
    1, after any trace the disk writes are no more than the write accesses
    of the trace, and disk writes and resident pages together are no more
    than the page faults. *)
Theorem disk_writes_bounds (cap : Z) (accs : list access) :
  1 <= cap ->
  (forall s0, Lru.init cap = Ok s0 ->
     get_total_disk_writes (after accs s0) <= writes_in accs /\
     get_total_disk_writes (after accs s0) + len (Lru.resident (after accs s0))
     <= get_total_page_faults (after accs s0)) /\
  (forall s0, Clock.init cap = Ok s0 ->
     get_total_disk_writes (after accs s0) <= writes_in accs /\
     get_total_disk_writes (after accs s0) + len (Clock.resident (after accs s0))
     <= get_total_page_faults (after accs s0)) /\
  (forall g s0, Rand.init cap g = Ok s0 ->
     get_total_disk_writes (after accs s0) <= writes_in accs /\
     get_total_disk_writes (after accs s0) + len (Rand.resident (after accs s0))
     <= get_total_page_faults (after accs s0)).
Proof.
  intros Hcap.
  assert (forall v, cache_run accs (Cache cap [] 0 0 0) v ->
            c_writes v <= writes_in accs /\
            c_writes v + len (keys (c_pages v)) <= c_faults v) as Hb.
  { intros v Hrun. split.
    - pose proof (cache_run_writes _ _ _ Hrun) as Hw. cbn in Hw.
      pose proof (dirty_count_nonneg (c_pages v)).
      change (dirty_count []) with 0 in Hw. lia.
    - pose proof (cache_run_writes_faults _ _ _ Hrun (fresh_cache_ok _ Hcap))
        as Hw. cbn in Hw.
      unfold keys, len in *. rewrite length_fmap. apply Hw. simpl. lia. }
  split; [|split].
  - intros s0 Hinit. destruct (lru_run_cache _ accs _ Hcap Hinit) as [_ Hc].
    rewrite lru_resident_view. apply (Hb _ Hc).
  - intros s0 Hinit. destruct (clock_run_cache _ accs _ Hcap Hinit) as [_ Hc].
    rewrite clock_resident_view. apply (Hb _ Hc).
  - intros g s0 Hinit.
    destruct (rand_run_cache _ _ accs _ Hcap Hinit) as [_ Hc].
    rewrite rand_resident_view. apply (Hb _ Hc).
Qed.

Lemma disk_writes_bounds_witness :
  1 <= 1 /\
  get_total_disk_writes
    (after [Write 1; Read 2; Read 3] (Lru.Mk 1 [] 0 0 0 false 0))
  <= writes_in [Write 1; Read 2; Read 3].
Proof.
  assert (1 <= 1) as H by lia.
  split; [exact H|].
  exact (proj1 (proj1 (disk_writes_bounds 1 [Write 1; Read 2; Read 3] H)
                  _ eq_refl)).
Defined.

Lemma lru_dirty_view (s : Lru.t) (p : Z) :
  Lru.dirty_of s p = true <-> dict_get (c_pages (lru_view s)) p = Some true.
Proof.
  unfold Lru.dirty_of, lru_view. cbn. rewrite dict_get_flags.
  destruct (dict_get (Lru.frames s) p) as [f|]; simpl; [|done].
  split; [by intros ->|by intros [= ->]].
Qed.

Lemma rand_dirty_view (s : Rand.t) (p : Z) :
  Rand.dirty_of s p = true <-> dict_get (c_pages (rand_view s)) p = Some true.
Proof.
  unfold Rand.dirty_of, rand_view. cbn. rewrite dict_get_flags.
  destruct (dict_get (Rand.frames s) p) as [f|]; simpl; [|done].
  split; [by intros ->|by intros [= ->]].
Qed.

Lemma clock_dirty_view (s : Clock.t) (p : Z) :
  Clock.dirty_of s p = true <-> dict_get (c_pages (clock_view s)) p = Some true.
Proof.
  unfold Clock.dirty_of, clock_view. cbn.
  destruct (dict_get (Clock.content <$> Clock.frames s) p) as [b|]; [|done].
  split; [by intros ->|by intros [= ->]].
Qed.

(** What holds of the view of a unit carries over to the unit: a page
    with no write in the trace is clean, and a write dirties its page. *)
Section DirtyPages.
Context {St : Type} `{MMU St}.
Variable view : St -> cache.
Variable Inv : St -> Prop.
Variable dirty_of : St -> Z -> bool.

Hypothesis refines :
  forall s a, Inv s ->
    exists s', perform a s = (Ok tt, s') /\ Inv s' /\
               cache_step a (view s) (view s').
Hypothesis dirty_view :
  forall s p, dirty_of s p = true <-> dict_get (c_pages (view s)) p = Some true.

Lemma unwritten_page_clean (accs : list access) (s0 : St) (p : Z) :
  Inv s0 -> cache_ok (view s0) -> c_pages (view s0) = [] ->
  Forall (fun a => is_write_of a = true -> page_of a <> p) accs ->
  dirty_of (after accs s0) p = false.
Proof.
  intros HI Hok Hempty Hall.
  destruct (run_refines view Inv refines accs s0 HI) as (_ & _ & Hrun).
  apply not_true_is_false. rewrite dirty_view.
  apply (cache_run_dirty _ _ _ p Hrun Hok Hall). by rewrite Hempty.
Qed.

Lemma written_page_dirty (accs : list access) (s0 s : St) (p : Z) :
  Inv s0 -> cache_ok (view s0) ->
  run accs s0 = (Ok tt, s) ->
  dirty_of (perform (Write p) s).2 p = true.
Proof.
  intros HI Hok Hr.
  destruct (run_refines view Inv refines accs s0 HI) as (Hr' & HIs & Hrun).
  rewrite Hr in Hr'. injection Hr' as ->.
  destruct (refines _ (Write p) HIs) as (s' & Hp & _ & Hstep).
  rewrite Hp. apply dirty_view.
  apply (cache_step_write _ _ _ Hstep); [|done].
  by apply (cache_run_ok _ _ _ Hrun).
Qed.

End DirtyPages.

(** X4: for each of the three policies built with a capacity of at least
    1, the frame of a page is never dirty after a trace that has no write
    to that page, and at any point of any trace a write to a page leaves
    its frame dirty. *)
Theorem dirty_only_by_write (cap : Z) (accs : list access) (p : Z) :
  1 <= cap ->
  (forall s0, Lru.init cap = Ok s0 ->
     (Forall (fun a => is_write_of a = true -> page_of a <> p) accs ->
      Lru.dirty_of (after accs s0) p = false) /\
     (forall s, run accs s0 = (Ok tt, s) ->
                Lru.dirty_of (perform (Write p) s).2 p = true)) /\
  (forall s0, Clock.init cap = Ok s0 ->
     (Forall (fun a => is_write_of a = true -> page_of a <> p) accs ->
      Clock.dirty_of (after accs s0) p = false) /\
     (forall s, run accs s0 = (Ok tt, s) ->
                Clock.dirty_of (perform (Write p) s).2 p = true)) /\
  (forall g s0, Rand.init cap g = Ok s0 ->
     (Forall (fun a => is_write_of a = true -> page_of a <> p) accs ->
      Rand.dirty_of (after accs s0) p = false) /\
     (forall s, run accs s0 = (Ok tt, s) ->
                Rand.dirty_of (perform (Write p) s).2 p = true)).
Proof.
  intros Hcap. pose proof (fresh_cache_ok _ Hcap) as Hok.
  split; [|split].
  - intros s0 Hinit. destruct (lru_init_inv _ _ Hcap Hinit) as [HI ->].
    split.
    + by apply (unwritten_page_clean lru_view _ _ lru_refines lru_dirty_view).
    + intros s.
      by apply (written_page_dirty lru_view _ _ lru_refines lru_dirty_view).
  - intros s0 Hinit. destruct (clock_init_inv _ _ Hcap Hinit) as [HI ->].
    split.
    + by apply (unwritten_page_clean clock_view _ _ clock_refines
                  clock_dirty_view).
    + intros s.
      by apply (written_page_dirty clock_view _ _ clock_refines
                  clock_dirty_view).
  - intros g s0 Hinit. destruct (rand_init_inv _ _ _ Hcap Hinit) as [HI ->].
    split.
    + by apply (unwritten_page_clean rand_view _ _ rand_refines
                  rand_dirty_view).
    + intros s.
      by apply (written_page_dirty rand_view _ _ rand_refines
                  rand_dirty_view).
Qed.

Lemma dirty_only_by_write_witness :
  1 <= 2 /\
  Clock.dirty_of
    (after [Write 1; Read 2; Read 2] (Clock.Mk 2 [] 0 0 0 0 false)) 2 = false.
Proof.
  assert (1 <= 2) as H by lia.
  split; [exact H|].
  refine (proj1 (proj1 (proj2 (dirty_only_by_write 2 [Write 1; Read 2; Read 2]
                                 2 H)) _ eq_refl) _).
  repeat constructor; simpl; intros; discriminate.
Defined.

(** X5: with a single frame the three policies cannot be told apart: for
    every trace, and whatever the random generator, they end with the same
    three counters and the same resident page. *)
Theorem single_frame_agreement (accs : list access) (g : nat -> nat)
    (sl : Lru.t) (sc : Clock.t) (sr : Rand.t) :
  Lru.init 1 = Ok sl -> Clock.init 1 = Ok sc -> Rand.init 1 g = Ok sr ->
  (get_total_page_faults (after accs sl) = get_total_page_faults (after accs sc)
   /\ get_total_page_faults (after accs sc)
      = get_total_page_faults (after accs sr)) /\
  (get_total_disk_reads (after accs sl) = get_total_disk_reads (after accs sc)
   /\ get_total_disk_reads (after accs sc)
      = get_total_disk_reads (after accs sr)) /\
  (get_total_disk_writes (after accs sl) = get_total_disk_writes (after accs sc)
   /\ get_total_disk_writes (after accs sc)
      = get_total_disk_writes (after accs sr)) /\
  (Lru.resident (after accs sl) = Clock.resident (after accs sc) /\
   Clock.resident (after accs sc) = Rand.resident (after accs sr)).
Proof.
  intros Hl Hc Hr.
  assert (1 <= 1) as Hcap by lia.
  destruct (lru_run_cache _ accs _ Hcap Hl) as [_ Hrl].
  destruct (clock_run_cache _ accs _ Hcap Hc) as [_ Hrc].
  destruct (rand_run_cache _ _ accs _ Hcap Hr) as [_ Hrr].
  pose proof (fresh_cache_ok _ Hcap) as Hok.
  pose proof (cache_run_single _ _ _ _ Hok eq_refl Hrl Hrc) as Hlc.
  pose proof (cache_run_single _ _ _ _ Hok eq_refl Hrc Hrr) as Hcr.
  rewrite lru_resident_view, clock_resident_view, rand_resident_view.
  rewrite Hlc, Hcr.
  change (get_total_page_faults (after accs sl))
    with (c_faults (lru_view (after accs sl))).
  change (get_total_page_faults (after accs sc))
    with (c_faults (clock_view (after accs sc))).
  change (get_total_page_faults (after accs sr))
    with (c_faults (rand_view (after accs sr))).
  change (get_total_disk_reads (after accs sl))
    with (c_reads (lru_view (after accs sl))).
  change (get_total_disk_reads (after accs sc))
    with (c_reads (clock_view (after accs sc))).
  change (get_total_disk_reads (after accs sr))
    with (c_reads (rand_view (after accs sr))).
  change (get_total_disk_writes (after accs sl))
    with (c_writes (lru_view (after accs sl))).
  change (get_total_disk_writes (after accs sc))
    with (c_writes (clock_view (after accs sc))).
  change (get_total_disk_writes (after accs sr))
    with (c_writes (rand_view (after accs sr))).
  rewrite Hlc, Hcr. done.
Qed.

Lemma single_frame_agreement_witness :
  get_total_disk_writes
    (after [Write 1; Read 2; Write 2; Read 1] (Lru.Mk 1 [] 0 0 0 false 0))
  = get_total_disk_writes
      (after [Write 1; Read 2; Write 2; Read 1] (Clock.Mk 1 [] 0 0 0 0 false)).
Proof.
  exact (proj1 (proj1 (proj2 (proj2
           (single_frame_agreement [Write 1; Read 2; Write 2; Read 1]
              (fun n => n) _ _ _ eq_refl eq_refl eq_refl))))).
Defined.

(** ** Traces of writes *)

Lemma Forall_setitem {V} (P : Z * V -> Prop) (d : dict V) (k : Z) (v : V) :
  Forall P d -> P (k, v) -> Forall P (dict_setitem d k v).
Proof.
  intros Hd Hv. induction d as [|[k0 v0] d IH]; simpl.
  - by apply Forall_singleton.
  - apply Forall_cons in Hd as [H0 Hd].
    destruct (Z.eqb_spec k0 k) as [->|Hne].
    + by apply Forall_cons.
    + apply Forall_cons. split; [done|]. by apply IH.
Qed.

(** In a trace of writes every resident page is dirty, so that every
    eviction is written back. *)
Lemma cache_run_writes_only (accs : list access) (v v' : cache) :
  cache_run accs v v' -> cache_ok v ->
  Forall (fun a => is_write_of a = true) accs ->
  Forall (fun e => e.2 = true) (c_pages v) ->
  c_writes v + len (c_pages v) = c_faults v ->
  Forall (fun e => e.2 = true) (c_pages v') /\
  c_writes v' + len (c_pages v') = c_faults v'.
Proof.
  induction 1 as [v|a accs v v1 v2 Hstep _ IH]; intros Hok Hw Hd Heq;
    [done|].
  apply Forall_cons in Hw as [Ha Hw].
  apply IH; [by eapply cache_step_ok|done|..];
    destruct Hstep as [b Hb|Hp Hlen|q b pages' Hp Hlen Hq Hperm]; cbn.
  - apply Forall_setitem; [done|]. by rewrite Ha.
  - apply Forall_app. split; [done|]. by apply Forall_singleton.
  - rewrite Hperm. apply Forall_app. split; [|by apply Forall_singleton].
    eapply Forall_forall. intros e He.
    apply (proj1 (Forall_forall _ _) Hd). by apply (dict_remove_subseteq _ q).
  - unfold len in *. rewrite length_setitem.
    assert (contains (c_pages v) (page_of a) = true) as ->; [|done].
    apply contains_keys, dict_get_keys. eauto.
  - unfold len in *. rewrite length_app. simpl. lia.
  - unfold len in *. rewrite Hperm, length_app. simpl.
    assert (q ∈ keys (c_pages v)) as Hin by (apply dict_get_keys; eauto).
    pose proof (length_remove _ _ Hin).
    apply dict_get_in in Hq.
    apply (proj1 (Forall_forall _ _) Hd) in Hq. simpl in Hq. subst b. lia.
Qed.

Lemma cache_all_dirty (v : cache) (p : Z) :
  Forall (fun e => e.2 = true) (c_pages v) -> p ∈ keys (c_pages v) ->
  dict_get (c_pages v) p = Some true.
Proof.
  intros Hd Hp. apply dict_get_keys in Hp as [b Hb]. rewrite Hb.
  apply dict_get_in in Hb. apply (proj1 (Forall_forall _ _) Hd) in Hb.
  simpl in Hb. by subst b.
Qed.

(** X6: for each of the three policies built with a capacity of at
    least 1, a trace of writes leaves every resident page dirty and has
    every eviction written back: the disk writes are the page faults less
    the pages left resident. *)
Theorem write_trace_writes_back_every_eviction (cap : Z)
    (accs : list access) :
  1 <= cap -> Forall (fun a => is_write_of a = true) accs ->
  (forall s0, Lru.init cap = Ok s0 ->
     get_total_disk_writes (after accs s0)
     = get_total_page_faults (after accs s0) - len (Lru.resident (after accs s0))
     /\ forall p, p ∈ Lru.resident (after accs s0) ->
                  Lru.dirty_of (after accs s0) p = true) /\
  (forall s0, Clock.init cap = Ok s0 ->
     get_total_disk_writes (after accs s0)
     = get_total_page_faults (after accs s0)
       - len (Clock.resident (after accs s0))
     /\ forall p, p ∈ Clock.resident (after accs s0) ->
                  Clock.dirty_of (after accs s0) p = true) /\
  (forall g s0, Rand.init cap g = Ok s0 ->
     get_total_disk_writes (after accs s0)
     = get_total_page_faults (after accs s0)
       - len (Rand.resident (after accs s0))
     /\ forall p, p ∈ Rand.resident (after accs s0) ->
                  Rand.dirty_of (after accs s0) p = true).
Proof.
  intros Hcap Hw.
  assert (forall v, cache_run accs (Cache cap [] 0 0 0) v ->
                    Forall (fun e => e.2 = true) (c_pages v) /\
                    c_writes v + len (keys (c_pages v)) = c_faults v) as Hv.
  { intros v Hrun.
    destruct (cache_run_writes_only _ _ _ Hrun (fresh_cache_ok cap Hcap) Hw)
      as [Hd Heq]; [by apply Forall_nil|done|].
    split; [done|]. unfold len, keys in *. by rewrite length_fmap. }
  split; [|split].
  - intros s0 Hinit.
    destruct (lru_run_cache cap accs s0 Hcap Hinit) as [_ Hrun].
    destruct (Hv _ Hrun) as [Hd Heq]. rewrite lru_resident_view. split.
    + cbn in *. lia.
    + intros p Hp. by apply lru_dirty_view, cache_all_dirty.
  - intros s0 Hinit.
    destruct (clock_run_cache cap accs s0 Hcap Hinit) as [_ Hrun].
    destruct (Hv _ Hrun) as [Hd Heq]. rewrite clock_resident_view. split.
    + cbn in *. lia.
    + intros p Hp. by apply clock_dirty_view, cache_all_dirty.
  - intros g s0 Hinit.
    destruct (rand_run_cache cap g accs s0 Hcap Hinit) as [_ Hrun].
    destruct (Hv _ Hrun) as [Hd Heq]. rewrite rand_resident_view. split.
    + cbn in *. lia.
    + intros p Hp. by apply rand_dirty_view, cache_all_dirty.
Qed.

Lemma write_trace_writes_back_every_eviction_witness :
  1 <= 2 /\
  Forall (fun a => is_write_of a = true) [Write 1; Write 2; Write 3; Write 1]
  /\ get_total_disk_writes
       (after [Write 1; Write 2; Write 3; Write 1]
          (Clock.Mk 2 [] 0 0 0 0 false))
     = get_total_page_faults
         (after [Write 1; Write 2; Write 3; Write 1]
            (Clock.Mk 2 [] 0 0 0 0 false))
       - len (Clock.resident
                (after [Write 1; Write 2; Write 3; Write 1]
                   (Clock.Mk 2 [] 0 0 0 0 false))).
Proof.
  assert (1 <= 2) as H by lia.
  assert (Forall (fun a => is_write_of a = true)
            [Write 1; Write 2; Write 3; Write 1]) as Hw
    by (repeat constructor).
  split; [exact H|]. split; [exact Hw|].
  exact (proj1 (proj1 (proj2 (write_trace_writes_back_every_eviction 2
                                [Write 1; Write 2; Write 3; Write 1] H Hw))
                  _ eq_refl)).
Defined.

(** ** LRU: the stamps are the times of the last accesses *)

Lemma run_snoc_ok {St} `{MMU St} (accs : list access) (a : access)
    (s s1 : St) :
  run accs s = (Ok tt, s1) -> run (accs ++ [a]) s = perform a s1.
Proof.
  revert s. induction accs as [|b accs IH]; intros s; simpl.
  - unfold ret. intros [= <-]. unfold bind.
    by destruct (perform a s) as [[[]|e] s2].
  - unfold bind. destruct (perform b s) as [[[]|e] s2]; [|done]. apply IH.
Qed.

(** [n] is the position, counted from 1, of the last access to page [p]
    in [accs]. *)
Definition last_access_at (accs : list access) (p : Z) (n : Z) : Prop :=
  exists before a later,
    accs = before ++ a :: later /\ page_of a = p /\
    (p ∉ page_of <$> later) /\ n = len before + 1.

Lemma last_access_at_snoc (accs : list access) (a : access) :
  last_access_at (accs ++ [a]) (page_of a) (len accs + 1).
Proof.
  exists accs, a, []. repeat split. intros Hin. inversion Hin.
Qed.

Lemma last_access_at_snoc_other (accs : list access) (a : access) (p n : Z) :
  page_of a <> p -> last_access_at accs p n ->
  last_access_at (accs ++ [a]) p n.
Proof.
  intros Hne (before & a0 & later & -> & Hp & Hlater & ->).
  exists before, a0, (later ++ [a]). rewrite <- app_assoc. repeat split; try done.
  rewrite fmap_app, not_elem_of_app. split; [done|].
  simpl. rewrite list_elem_of_singleton. congruence.
Qed.

(** One access under LRU: the clock ticks, the page of the access takes
    the new time as its stamp, the other resident pages keep theirs. *)
Lemma lru_step_stamps (s s' : Lru.t) (a : access) :
  LruFacts.Inv s -> perform a s = (Ok tt, s') ->
  Lru.recency_tracker s' = Lru.recency_tracker s + 1 /\
  forall k f, dict_get (Lru.frames s') k = Some f ->
    (k = page_of a /\ Lru.last_used f = Lru.recency_tracker s') \/
    (k <> page_of a /\ dict_get (Lru.frames s) k = Some f).
Proof.
  intros [Hcap Hnd Hsz Hst] Hp. unfold Lru.resident in Hnd.
  rewrite LruFacts.lru_perform_access in Hp.
  destruct (dict_get (Lru.frames s) (page_of a)) as [f0|] eqn:Hf.
  - rewrite (LruFacts.lru_access_hit _ _ _ _ Hf) in Hp.
    injection Hp as <-. cbn. split; [done|]. intros k f.
    rewrite dict_get_setitem. destruct (Z.eqb_spec (page_of a) k) as [<-|Hne].
    + intros [= <-]. by left.
    + intros Hk. right. split; [congruence|done].
  - apply dict_get_None in Hf.
    destruct (Z.lt_ge_cases (len (Lru.frames s)) (Lru.number_frames s)).
    + rewrite (LruFacts.lru_access_load _ _ _ Hf) in Hp by done.
      injection Hp as <-. cbn. split; [done|]. intros k f.
      rewrite dict_get_snoc by done.
      destruct (Z.eqb_spec (page_of a) k) as [<-|Hne].
      * intros [= <-]. by left.
      * intros Hk. right. split; [congruence|done].
    + destruct (min_by_nonempty (Lru.last_used_of (Lru.frames s))
                  (keys (Lru.frames s))) as [q Hmin].
      { unfold keys, len in *. destruct (Lru.frames s); [simpl in *; lia|done]. }
      destruct (LruFacts.lru_access_evict s _ (is_write_of a) q Hf H Hmin)
        as (fq & Hfq & Hacc).
      rewrite Hacc in Hp. injection Hp as <-. cbn. split; [done|]. intros k f.
      assert (page_of a ∉ keys (dict_remove (Lru.frames s) q)) as Hp'.
      { intros Hin. by apply Hf, (keys_remove_subseteq _ q). }
      rewrite dict_get_snoc by done.
      destruct (Z.eqb_spec (page_of a) k) as [<-|Hne].
      * intros [= <-]. by left.
      * intros Hk. right. split; [congruence|].
        destruct (decide (q = k)) as [->|Hqk].
        -- by rewrite dict_get_remove_eq in Hk.
        -- by rewrite dict_get_remove_ne in Hk.
Qed.

Lemma lru_stamps_are_last_accesses_aux (cap : Z) (accs : list access)
    (s0 s : Lru.t) :
  1 <= cap -> Lru.init cap = Ok s0 -> run accs s0 = (Ok tt, s) ->
  Lru.recency_tracker s = len accs /\
  forall p f, dict_get (Lru.frames s) p = Some f ->
              last_access_at accs p (Lru.last_used f).
Proof.
  intros Hcap Hinit. destruct (lru_init_inv _ _ Hcap Hinit) as [HI ->].
  revert s. induction accs as [|a accs IH] using rev_ind; intros s Hrun.
  - injection Hrun as <-. split; [done|]. intros p f Hf. discriminate Hf.
  - destruct (run_after _ _ _ _ LruFacts.lru_step accs _ HI) as [Hr1 HI1].
    destruct (IH _ Hr1) as [Htr Hst].
    rewrite (run_snoc_ok _ _ _ _ Hr1) in Hrun.
    destruct (lru_step_stamps _ _ _ HI1 Hrun) as [Htr' Hst'].
    assert (Lru.recency_tracker s = len (accs ++ [a])) as Hlen.
    { rewrite Htr', Htr. unfold len. rewrite length_app. simpl. lia. }
    split; [done|]. intros p f Hf.
    destruct (Hst' _ _ Hf) as [[-> Hnew]|[Hne Hold]].
    + rewrite Hnew, Htr', Htr. apply last_access_at_snoc.
    + apply last_access_at_snoc_other; [done|]. by apply Hst.
Qed.

(** X7: under LRU with a capacity of at least 1, after any trace the
    logical clock equals the number of accesses processed, and the
    [last_used] stamp of every resident page is the position in the trace
    of the last access to that page. *)
Theorem lru_stamps_are_last_accesses (cap : Z) (accs : list access)
    (s0 : Lru.t) :
  1 <= cap -> Lru.init cap = Ok s0 ->
  Lru.recency_tracker (after accs s0) = len accs /\
  forall p f, dict_get (Lru.frames (after accs s0)) p = Some f ->
              last_access_at accs p (Lru.last_used f).
Proof.
  intros Hcap Hinit.
  apply (lru_stamps_are_last_accesses_aux cap accs s0 _ Hcap Hinit).
  destruct (lru_init_inv _ _ Hcap Hinit) as [HI ->].
  by destruct (run_after _ _ _ _ LruFacts.lru_step accs _ HI).
Qed.

Lemma lru_stamps_are_last_accesses_witness :
  1 <= 2 /\
  last_access_at [Read 1; Read 2; Read 1] 2 2.
Proof.
  assert (1 <= 2) as H by lia.
  split; [exact H|].
  assert (dict_get
            (Lru.frames (after [Read 1; Read 2; Read 1]
                           (Lru.Mk 2 [] 0 0 0 false 0))) 2
          = Some (Lru.Frame false 2)) as Hget by (vm_compute; reflexivity).
  exact (proj2 (lru_stamps_are_last_accesses 2 [Read 1; Read 2; Read 1]
                  _ H eq_refl) 2 (Lru.Frame false 2) Hget).
Defined.

Lemma later_in_suffix {A} (before before' later later' : list A) (a a' : A) :
  before ++ a :: later = before' ++ a' :: later' ->
  (length before < length before')%nat -> a' ∈ later.
Proof.
  intros Heq Hlt.
  assert ((before ++ a :: later) !! length before' = Some a') as Hl.
  { rewrite Heq. by apply list_lookup_middle. }
  rewrite lookup_app_r in Hl by lia.
  destruct (length before' - length before)%nat as [|m] eqn:Hm; [lia|].
  simpl in Hl. by eapply list_elem_of_lookup_2.
Qed.

(** X8: under LRU with a capacity of at least 1, a fault that finds every
    frame taken evicts the page whose last access is the oldest: every
    other resident page has been accessed since the last access to the
    evicted page. *)
Theorem lru_evicts_oldest_access (cap : Z) (accs : list access)
    (s0 s : Lru.t) (p : Z) (w : bool) :
  1 <= cap -> Lru.init cap = Ok s0 -> run accs s0 = (Ok tt, s) ->
  p ∉ Lru.resident s -> cap <= len (Lru.frames s) ->
  exists q s' before a later,
    Lru.access_memory p w s = (Ok tt, s') /\
    evicted Lru.resident s s' = [q] /\
    accs = before ++ a :: later /\ page_of a = q /\
    (q ∉ page_of <$> later) /\
    forall r, r ∈ Lru.resident s -> r <> q -> r ∈ page_of <$> later.
Proof.
  intros Hcap Hinit Hrun Hp Hfull.
  destruct (lru_stamps_are_last_accesses_aux cap accs s0 s Hcap Hinit Hrun)
    as [_ Hst].
  destruct (lru_init_inv _ _ Hcap Hinit) as [HI ->].
  pose proof (run_inv _ _ _ _ LruFacts.lru_step _ _ _ HI Hrun) as HIs.
  pose proof (run_capacity _ _ _ _ LruFacts.lru_step accs _ HI) as Hc.
  unfold after in Hc. rewrite Hrun in Hc. cbn in Hc.
  destruct HIs as [_ Hnd Hsz Hstamps]. unfold Lru.resident in *.
  destruct (min_by_nonempty (Lru.last_used_of (Lru.frames s))
              (keys (Lru.frames s))) as [q Hmin].
  { unfold keys, len in *. destruct (Lru.frames s); [simpl in *; lia|done]. }
  destruct (LruFacts.lru_access_evict s p w q Hp ltac:(lia) Hmin)
    as (fq & Hfq & Hacc).
  destruct (LruFacts.victim_spec _ _ _ Hstamps Hmin) as (fq' & Hfq' & Hleast).
  assert (fq' = fq) as -> by congruence.
  assert (q ∈ keys (Lru.frames s)) as Hq by (apply dict_get_keys; eauto).
  destruct (Hst _ _ Hfq) as (before & a & later & Heq & Ha & Hlater & Hpos).
  exists q. eexists. exists before, a, later.
  split; [exact Hacc|]. split.
  { unfold evicted, Lru.resident. cbn. by apply lru_evicted_victim. }
  do 3 (split; [done|]).
  intros r Hr Hne. apply dict_get_keys in Hr as [fr Hfr].
  specialize (Hleast _ _ Hfr Hne).
  destruct (Hst _ _ Hfr) as (before' & a' & later' & Heq' & <- & _ & Hpos').
  apply list_elem_of_fmap. exists a'. split; [done|].
  apply (later_in_suffix before before' later later' a a').
  - congruence.
  - unfold len in *. lia.
Qed.

Lemma lru_evicts_oldest_access_witness :
  1 <= 2 /\
  exists q s',
    Lru.access_memory 3 true
      (Lru.Mk 2 [(1, Lru.Frame false 3); (2, Lru.Frame false 2)] 2 2 0 false 3)
    = (Ok tt, s') /\
    evicted Lru.resident
      (Lru.Mk 2 [(1, Lru.Frame false 3); (2, Lru.Frame false 2)] 2 2 0 false 3)
      s' = [q].
Proof.
  assert (1 <= 2) as H by lia.
  split; [exact H|].
  assert (run [Read 1; Read 2; Read 1] (Lru.Mk 2 [] 0 0 0 false 0)
          = (Ok tt,
             Lru.Mk 2 [(1, Lru.Frame false 3); (2, Lru.Frame false 2)]
               2 2 0 false 3)) as Hrun by (vm_compute; reflexivity).
  destruct (lru_evicts_oldest_access 2 [Read 1; Read 2; Read 1] _ _ 3 true
              H eq_refl Hrun)
    as (q & s' & _ & _ & _ & H1 & H2 & _).
  - unfold Lru.resident, keys. cbn.
    intros Hin. apply elem_of_cons in Hin as [Hin|Hin]; [discriminate Hin|].
    apply elem_of_cons in Hin as [Hin|Hin]; [discriminate Hin|].
    inversion Hin.
  - unfold len. cbn. lia.
  - exists q, s'. split; [exact H1|exact H2].
Defined.

(** ** LRU: the resident pages are the most recently used ones *)

(** The distinct pages of a trace, the most recently accessed first. *)
Definition recently_used (accs : list access) : list Z :=
  distinct_pages (rev accs).

Lemma filter_all {A} (P : A -> Prop) `{!forall x, Decision (P x)}
    (l : list A) :
  (forall x, x ∈ l -> P x) -> filter P l = l.
Proof.
  induction l as [|a l IH]; intros Hl; [done|].
  rewrite filter_cons_True by (apply Hl; left).
  f_equal. apply IH. intros x Hx. apply Hl. by right.
Qed.

Lemma first_seen_app (seen : list Z) (l1 l2 : list access) :
  first_seen seen (l1 ++ l2) =
  first_seen seen l1 ++ first_seen ((page_of <$> l1) ++ seen) l2.
Proof.
  revert seen. induction l1 as [|a l1 IH]; intros seen; simpl; [done|].
  destruct (decide (page_of a ∈ seen)) as [Hin|Hnin].
  - rewrite IH. f_equal. apply first_seen_ext. intros x.
    rewrite elem_of_cons, !elem_of_app. split; [tauto|].
    intros [->|?]; tauto.
  - simpl. rewrite IH. do 2 f_equal. apply first_seen_ext. intros x.
    rewrite !elem_of_cons, !elem_of_app, elem_of_cons. tauto.
Qed.

Lemma first_seen_seen (seen : list Z) (accs : list access) (p : Z) :
  first_seen (p :: seen) accs = filter (fun x => x <> p) (first_seen seen accs).
Proof.
  revert seen. induction accs as [|a accs IH]; intros seen; simpl; [done|].
  destruct (decide (page_of a ∈ seen)) as [Hin|Hnin].
  - rewrite decide_True by (by right). apply IH.
  - destruct (decide (page_of a = p)) as [<-|Hne].
    + rewrite decide_True by left.
      rewrite filter_cons_False by (intros ?; done).
      symmetry. apply filter_all. intros x Hx ->.
      apply first_seen_elem in Hx as [_ Hx]. apply Hx. left.
    + rewrite decide_False by (rewrite elem_of_cons; intros [?|?]; done).
      rewrite filter_cons_True by done. f_equal.
      rewrite <- IH. apply first_seen_ext. intros x.
      rewrite !elem_of_cons. tauto.
Qed.

Lemma recently_used_snoc (accs : list access) (a : access) :
  recently_used (accs ++ [a]) =
  page_of a :: filter (fun x => x <> page_of a) (recently_used accs).
Proof.
  unfold recently_used, distinct_pages. rewrite rev_unit. simpl.
  f_equal. apply first_seen_seen.
Qed.

Lemma elem_of_rev {A} (l : list A) (x : A) : x ∈ rev l <-> x ∈ l.
Proof. rewrite !list_elem_of_In. symmetry. apply in_rev. Qed.

Lemma recently_used_elem (accs : list access) (p : Z) :
  p ∈ recently_used accs <-> p ∈ page_of <$> accs.
Proof.
  unfold recently_used, distinct_pages. rewrite first_seen_elem.
  rewrite !list_elem_of_fmap. setoid_rewrite elem_of_rev.
  split; [tauto|]. intros Hin. split; [done|]. intros Hnil. inversion Hnil.
Qed.

Lemma recently_used_split (before later : list access) (b : access) :
  page_of b ∉ page_of <$> later ->
  exists rest,
    recently_used (before ++ b :: later) =
    recently_used later ++ page_of b :: rest.
Proof.
  intros Hb. unfold recently_used, distinct_pages.
  rewrite rev_app_distr. simpl. rewrite <- app_assoc. simpl.
  rewrite first_seen_app. simpl.
  rewrite decide_False.
  - eauto.
  - rewrite app_nil_r, list_elem_of_fmap. intros (x & Hx & Hin).
    apply Hb, list_elem_of_fmap. exists x. split; [done|].
    by apply elem_of_rev.
Qed.

Lemma take_filter_ne (n : nat) (l : list Z) (p : Z) :
  p ∉ take n l -> take n (filter (fun x => x <> p) l) = take n l.
Proof.
  revert n. induction l as [|x l IH]; intros [|n]; simpl; try done.
  rewrite not_elem_of_cons. intros [Hne Hp].
  rewrite filter_cons_True by done. simpl. f_equal. by apply IH.
Qed.

Lemma NoDup_take {A} (n : nat) (l : list A) : NoDup l -> NoDup (take n l).
Proof. intros Hnd. eapply sublist_NoDup; [done|]. apply sublist_take. Qed.

(** Moving an element of the first [n] to the front leaves the same first
    [n] elements. *)
Lemma take_move_front (n : nat) (l : list Z) (p : Z) :
  NoDup l -> p ∈ take n l ->
  take n (p :: filter (fun x => x <> p) l) ≡ₚ take n l.
Proof.
  revert n. induction l as [|x l IH]; intros n Hnd Hp.
  - rewrite take_nil in Hp. inversion Hp.
  - destruct n as [|n]; [inversion Hp|]. simpl in *.
    apply NoDup_cons in Hnd as [Hx Hnd].
    apply elem_of_cons in Hp as [->|Hp].
    + rewrite filter_cons_False by (intros ?; done).
      rewrite take_filter_ne; [done|].
      intros Hin. apply Hx. by eapply subseteq_take.
    + assert (x <> p) as Hne.
      { intros ->. apply Hx. by eapply subseteq_take. }
      rewrite filter_cons_True by done.
      destruct n as [|n]; [inversion Hp|].
      specialize (IH (S n) Hnd Hp). simpl in *.
      rewrite <- IH. apply Permutation_swap.
Qed.

(** One access under LRU, seen from the resident set. *)
Lemma lru_step_resident (cap : Z) (accs : list access) (a : access)
    (s0 s s' : Lru.t) :
  1 <= cap -> Lru.init cap = Ok s0 -> run accs s0 = (Ok tt, s) ->
  perform a s = (Ok tt, s') ->
  NoDup (Lru.resident s) /\ len (Lru.resident s) <= cap /\
  ((page_of a ∈ Lru.resident s /\ Lru.resident s' = Lru.resident s) \/
   ((page_of a ∉ Lru.resident s) /\ len (Lru.resident s) < cap /\
    Lru.resident s' = Lru.resident s ++ [page_of a]) \/
   ((page_of a ∉ Lru.resident s) /\ len (Lru.resident s) = cap /\
    exists q before b later,
      Lru.resident s' = keys (dict_remove (Lru.frames s) q) ++ [page_of a] /\
      q ∈ Lru.resident s /\
      accs = before ++ b :: later /\ page_of b = q /\
      (q ∉ page_of <$> later) /\
      forall r, r ∈ Lru.resident s -> r <> q -> r ∈ page_of <$> later)).
Proof.
  intros Hcap Hinit Hrun Hp.
  destruct (lru_stamps_are_last_accesses_aux cap accs s0 s Hcap Hinit Hrun)
    as [_ Hst].
  destruct (lru_init_inv _ _ Hcap Hinit) as [HI ->].
  pose proof (run_inv _ _ _ _ LruFacts.lru_step _ _ _ HI Hrun) as HIs.
  pose proof (run_capacity _ _ _ _ LruFacts.lru_step accs _ HI) as Hc.
  unfold after in Hc. rewrite Hrun in Hc. cbn in Hc.
  destruct HIs as [_ Hnd Hsz Hstamps]. unfold Lru.resident in *.
  assert (len (keys (Lru.frames s)) = len (Lru.frames s)) as Hlen.
  { unfold len, keys. by rewrite length_fmap. }
  split; [done|]. split; [lia|].
  rewrite LruFacts.lru_perform_access in Hp.
  destruct (dict_get (Lru.frames s) (page_of a)) as [f0|] eqn:Hf.
  - left. rewrite (LruFacts.lru_access_hit _ _ _ _ Hf) in Hp.
    injection Hp as <-. cbn.
    assert (page_of a ∈ keys (Lru.frames s)) by (apply dict_get_keys; eauto).
    split; [done|]. by apply keys_setitem_present.
  - right. apply dict_get_None in Hf.
    destruct (Z.lt_ge_cases (len (Lru.frames s)) (Lru.number_frames s)).
    + left. rewrite (LruFacts.lru_access_load _ _ _ Hf) in Hp by done.
      injection Hp as <-. cbn. rewrite keys_snoc. split; [done|].
      split; [lia|done].
    + right.
      destruct (min_by_nonempty (Lru.last_used_of (Lru.frames s))
                  (keys (Lru.frames s))) as [q Hmin].
      { unfold keys, len in *. destruct (Lru.frames s); [simpl in *; lia|done]. }
      destruct (LruFacts.lru_access_evict s _ (is_write_of a) q Hf H Hmin)
        as (fq & Hfq & Hacc).
      rewrite Hacc in Hp. injection Hp as <-. cbn. rewrite keys_snoc.
      destruct (LruFacts.victim_spec _ _ _ Hstamps Hmin)
        as (fq' & Hfq' & Hleast).
      assert (fq' = fq) as -> by congruence.
      assert (q ∈ keys (Lru.frames s)) as Hq by (apply dict_get_keys; eauto).
      destruct (Hst _ _ Hfq) as (before & b & later & Heq & Hb & Hlater & Hpos).
      split; [done|]. split; [lia|].
      exists q, before, b, later. do 5 (split; [done|]).
      intros r Hr Hne. apply dict_get_keys in Hr as [fr Hfr].
      specialize (Hleast _ _ Hfr Hne).
      destruct (Hst _ _ Hfr) as (before' & a' & later' & Heq' & <- & _ & Hpos').
      apply list_elem_of_fmap. exists a'. split; [done|].
      apply (later_in_suffix before before' later later' b a').
      * congruence.
      * unfold len in *. lia.
Qed.

(** The page evicted by LRU is the last of the first [n] most recently
    used ones. *)
Lemma recently_used_last (n : nat) (accs before later : list access)
    (b : access) (K : list Z) :
  K ≡ₚ take n (recently_used accs) -> length K = n ->
  accs = before ++ b :: later -> page_of b ∈ K ->
  (page_of b ∉ page_of <$> later) ->
  (forall r, r ∈ K -> r <> page_of b -> r ∈ page_of <$> later) ->
  exists m, n = S m /\
    take n (recently_used accs) = take m (recently_used accs) ++ [page_of b].
Proof.
  intros HK Hlen -> Hq Hlater Hothers.
  destruct (recently_used_split before later b Hlater) as [rest Hru].
  pose proof (first_seen_NoDup [] (rev (before ++ b :: later))) as Hnd.
  change (NoDup (recently_used (before ++ b :: later))) in Hnd.
  rewrite Hru in *. set (rl := recently_used later) in *.
  set (q := page_of b) in *.
  apply NoDup_app in Hnd as (Hnd1 & Hnd2 & Hnd3).
  apply NoDup_cons in Hnd3 as [Hq3 Hnd3].
  assert (length rl < n)%nat as Hlt.
  { destruct (Nat.lt_ge_cases (length rl) n) as [|Hge]; [done|].
    exfalso. rewrite take_app_le in HK by done.
    rewrite HK in Hq. apply Hlater, recently_used_elem.
    by eapply subseteq_take. }
  destruct n as [|m]; [lia|]. exists m. split; [done|].
  rewrite take_app_ge in HK |- * by lia.
  destruct (S m - length rl)%nat as [|k] eqn:Hk; [lia|]. simpl in *.
  assert (take k rest = []) as Hrest.
  { destruct (take k rest) as [|x t] eqn:Ht; [done|]. exfalso.
    assert (x ∈ rest) as Hx.
    { apply (subseteq_take k). rewrite Ht. left. }
    assert (x ∈ K) as HxK.
    { rewrite HK, elem_of_app, !elem_of_cons. right. right. by left. }
    assert (x <> q) as Hxq by (intros ->; done).
    apply (Hnd2 x).
    - apply recently_used_elem. by apply Hothers.
    - by right. }
  rewrite Hrest in *.
  assert (length rl = m) as Hm.
  { apply Permutation_length in HK. rewrite length_app in HK. simpl in HK.
    lia. }
  rewrite take_app_le by lia. rewrite take_ge by lia. done.
Qed.

Lemma lru_holds_recently_used (cap : Z) (accs : list access) (s0 s : Lru.t) :
  1 <= cap -> Lru.init cap = Ok s0 -> run accs s0 = (Ok tt, s) ->
  Lru.resident s ≡ₚ take (Z.to_nat cap) (recently_used accs).
Proof.
  intros Hcap Hinit.
  destruct (lru_init_inv _ _ Hcap Hinit) as [HI Hs0].
  revert s. induction accs as [|a accs IH] using rev_ind; intros s Hrun.
  - subst s0. injection Hrun as <-. by destruct (Z.to_nat cap).
  - destruct (run_after _ _ _ _ LruFacts.lru_step accs _ HI) as [Hr1 HI1].
    specialize (IH _ Hr1).
    rewrite (run_snoc_ok _ _ _ _ Hr1) in Hrun.
    destruct (lru_step_resident cap accs a s0 _ s Hcap Hinit Hr1 Hrun)
      as (Hnd & Hsz & Hstep).
    set (s1 := after accs s0) in *.
    rewrite recently_used_snoc.
    pose proof (first_seen_NoDup [] (rev accs)) as Hndr.
    change (NoDup (recently_used accs)) in Hndr.
    destruct (Z.to_nat cap) as [|m] eqn:Hn; [lia|].
    destruct Hstep as [[Hin ->]|[(Hnin & Hfree & ->)|(Hnin & Hfull & Hq)]].
    + rewrite IH. symmetry. apply (take_move_front (S m)); [done|].
      by rewrite <- IH.
    + assert (length (take (S m) (recently_used accs)) < S m)%nat as Hlt.
      { rewrite <- IH. unfold len in *. lia. }
      rewrite length_take in Hlt.
      assert (take (S m) (recently_used accs) = recently_used accs) as Hall
        by (apply take_ge; lia).
      rewrite Hall in IH. simpl.
      rewrite filter_all.
      * rewrite take_ge by lia. rewrite <- IH.
        symmetry. apply Permutation_cons_append.
      * intros x Hx ->. apply Hnin. by rewrite IH.
    + destruct Hq as (q & before & b & later & -> & Hq & Heq & Hb & Hlater & Hoth).
      subst q.
      destruct (recently_used_last (S m) accs before later b _ IH
                  ltac:(unfold len in *; lia) Heq Hq Hlater Hoth)
        as (m' & [= <-] & Hlast).
      simpl. rewrite take_filter_ne.
      * rewrite <- Permutation_cons_append. apply Permutation_skip.
        apply NoDup_Permutation.
        -- by apply NoDup_keys_remove.
        -- by apply NoDup_take.
        -- intros x. rewrite keys_remove by done.
           unfold Lru.resident in IH. rewrite IH, Hlast, elem_of_app.
           rewrite list_elem_of_singleton.
           assert (NoDup (take m (recently_used accs) ++ [page_of b])) as Hnd'.
           { rewrite <- Hlast. by apply NoDup_take. }
           apply NoDup_app in Hnd' as (_ & Hnd' & _).
           split.
           ++ intros [[?|?] ?]; done.
           ++ intros Hx. split; [by left|]. intros ->.
              apply (Hnd' _ Hx). left.
      * intros Hin. apply Hnin. rewrite IH, Hlast, elem_of_app. by left.
Qed.

(** X9: under LRU with a capacity of at least 1, after any trace the
    resident pages are exactly the most recently used ones: the first
    [cap] of the distinct pages of the trace taken from the most recently
    accessed one back (all of them if there are fewer). *)
Theorem lru_holds_most_recently_used (cap : Z) (accs : list access)
    (s0 : Lru.t) :
  1 <= cap -> Lru.init cap = Ok s0 ->
  Lru.resident (after accs s0) ≡ₚ take (Z.to_nat cap) (recently_used accs).
Proof.
  intros Hcap Hinit.
  apply (lru_holds_recently_used cap accs s0 _ Hcap Hinit).
  destruct (lru_init_inv _ _ Hcap Hinit) as [HI ->].
  by destruct (run_after _ _ _ _ LruFacts.lru_step accs _ HI).
Qed.

Lemma lru_holds_most_recently_used_witness :
  1 <= 2 /\
  Lru.resident (after [Read 1; Read 2; Read 3; Read 2; Read 4]
                  (Lru.Mk 2 [] 0 0 0 false 0))
  ≡ₚ take (Z.to_nat 2)
       (recently_used [Read 1; Read 2; Read 3; Read 2; Read 4]).
Proof.
  assert (1 <= 2) as H by lia.
  split; [exact H|].
  exact (lru_holds_most_recently_used 2
           [Read 1; Read 2; Read 3; Read 2; Read 4] _ H eq_refl).
Defined.

(** X10: LRU never does worse with more frames: of two units built with
    capacities [1 <= cap <= cap'] and given the same trace, every page
    resident in the smaller one is resident in the larger one, and the
    larger one has counted no more page faults and no more disk reads. *)
Theorem lru_more_frames_never_hurt (cap cap' : Z) (accs : list access)
    (s0 s0' : Lru.t) :
  1 <= cap -> cap <= cap' ->
  Lru.init cap = Ok s0 -> Lru.init cap' = Ok s0' ->
  (forall p, p ∈ Lru.resident (after accs s0) ->
             p ∈ Lru.resident (after accs s0')) /\
  get_total_page_faults (after accs s0')
  <= get_total_page_faults (after accs s0) /\
  get_total_disk_reads (after accs s0')
  <= get_total_disk_reads (after accs s0).
Proof.
  intros Hcap Hle Hinit Hinit'.
  assert (1 <= cap') as Hcap' by lia.
  assert (forall l, (forall p, p ∈ Lru.resident (after l s0) ->
                               p ∈ Lru.resident (after l s0'))) as Hincl.
  { intros l p.
    destruct (lru_init_inv _ _ Hcap Hinit) as [HI _].
    destruct (lru_init_inv _ _ Hcap' Hinit') as [HI' _].
    destruct (run_after _ _ _ _ LruFacts.lru_step l _ HI) as [Hr _].
    destruct (run_after _ _ _ _ LruFacts.lru_step l _ HI') as [Hr' _].
    rewrite (lru_holds_recently_used cap l s0 _ Hcap Hinit Hr).
    rewrite (lru_holds_recently_used cap' l s0' _ Hcap' Hinit' Hr').
    replace (Z.to_nat cap) with (Z.to_nat cap `min` Z.to_nat cap')%nat by lia.
    rewrite <- take_take. apply subseteq_take. }
  split; [apply Hincl|].
  destruct (lru_init_inv _ _ Hcap Hinit) as [HI _].
  destruct (lru_init_inv _ _ Hcap' Hinit') as [HI' _].
  induction accs as [|a accs IH] using rev_ind.
  - destruct (lru_init_inv _ _ Hcap Hinit) as [_ ->].
    destruct (lru_init_inv _ _ Hcap' Hinit') as [_ ->]. by cbn.
  - destruct (run_after _ _ _ _ LruFacts.lru_step accs _ HI) as [Hr HI1].
    destruct (run_after _ _ _ _ LruFacts.lru_step accs _ HI') as [Hr' HI1'].
    specialize (Hincl accs (page_of a)).
    destruct (LruFacts.lru_step _ a HI1) as (s1 & Hp & _ & [_ Hf _ _ _]).
    destruct (LruFacts.lru_step _ a HI1') as (s1' & Hp' & _ & [_ Hf' _ _ _]).
    assert (after (accs ++ [a]) s0 = s1) as ->.
    { unfold after at 1. by rewrite (run_snoc_ok _ _ _ _ Hr), Hp. }
    assert (after (accs ++ [a]) s0' = s1') as ->.
    { unfold after at 1. by rewrite (run_snoc_ok _ _ _ _ Hr'), Hp'. }
    destruct Hf as [(Hin & -> & ->)|(Hnin & -> & ->)];
      destruct Hf' as [(Hin' & -> & ->)|(Hnin' & -> & ->)];
      try lia.
    exfalso. by apply Hnin', Hincl.
Qed.

Lemma lru_more_frames_never_hurt_witness :
  1 <= 2 /\ 2 <= 3 /\
  get_total_page_faults
    (after [Read 1; Read 2; Read 3; Read 1] (Lru.Mk 3 [] 0 0 0 false 0))
  <= get_total_page_faults
       (after [Read 1; Read 2; Read 3; Read 1] (Lru.Mk 2 [] 0 0 0 false 0)).
Proof.
  assert (1 <= 2) as H by lia.
  assert (2 <= 3) as H' by lia.
  split; [exact H|]. split; [exact H'|].
  exact (proj1 (proj2 (lru_more_frames_never_hurt 2 3
                         [Read 1; Read 2; Read 3; Read 1] _ _
                         H H' eq_refl eq_refl))).
Defined.

(** ** Clock: what the sweep does *)

Lemma hand_next_add (n h x : Z) :
  1 <= n -> ((h + 1) mod n + x) mod n = (h + (x + 1)) mod n.
Proof.
  intros Hn. rewrite Z.add_mod_idemp_l by lia. f_equal. lia.
Qed.

Lemma hand_back (n h k : Z) :
  1 <= n -> 0 <= h < n -> 0 <= k < n -> (h + k) mod n = h -> k = 0.
Proof.
  intros Hn Hh Hk Heq.
  pose proof (Z.div_mod (h + k) n ltac:(lia)) as Hdm. rewrite Heq in Hdm.
  assert (k = n * ((h + k) / n)) as Hkq by lia.
  destruct (Z.lt_trichotomy ((h + k) / n) 0) as [|[|]]; nia.
Qed.

Lemma hand_offset (n h m : Z) :
  1 <= n -> 0 <= h < n -> 0 <= m < n -> m <> h ->
  (m - h) mod n = 1 + (m - (h + 1) mod n) mod n.
Proof.
  intros Hn Hh Hm Hne.
  destruct (Z.eq_dec (h + 1) n) as [Heq|Hlt].
  - rewrite Heq, Z.mod_same by lia. rewrite Z.sub_0_r.
    rewrite (Z.mod_small m) by lia.
    replace (m - h) with (m + 1 + (-1) * n) by lia.
    rewrite Z.mod_add by lia. rewrite Z.mod_small by lia. lia.
  - rewrite (Z.mod_small (h + 1)) by lia.
    destruct (Z.lt_ge_cases m h).
    + replace (m - h) with (m - h + n + (-1) * n) by lia.
      replace (m - (h + 1)) with (m - h - 1 + n + (-1) * n) by lia.
      rewrite !Z.mod_add by lia. rewrite !Z.mod_small by lia. lia.
    + rewrite !Z.mod_small by lia. lia.
Qed.

Lemma hand_full_turn (n h : Z) :
  1 <= n -> 0 <= h < n -> ((h + 1) mod n + (n - 1)) mod n = h.
Proof.
  intros Hn Hh. rewrite hand_next_add by lia.
  replace (h + (n - 1 + 1)) with (h + 1 * n) by lia.
  rewrite Z.mod_add by lia. apply Z.mod_small. lia.
Qed.

(** A frame after its second chance. *)
Definition cleared (f : Clock.frame) : Clock.frame :=
  Clock.Frame (Clock.page f) (Clock.dirty f) 0.

(** What the search of [find_removing_page] does when every frame is taken:
    from the hand on, [k] frames with their bit set are passed over and
    have it cleared, slot [i] after them is designated; the frames not
    passed over are as they were. *)
Record swept (s : Clock.t) (i : Z) (s' : Clock.t) (k : Z) : Prop := {
  swept_count : 0 <= k <= Clock.number_frames s;
  swept_index : i = (Clock.clock_hand s + k) mod Clock.number_frames s;
  swept_passed :
    forall j, 0 <= j < k ->
      exists f,
        Clock.frames s
          !! Z.to_nat ((Clock.clock_hand s + j) mod Clock.number_frames s)
        = Some f /\ Clock.reference f <> 0;
  swept_found :
    k < Clock.number_frames s ->
    exists f, Clock.frames s !! Z.to_nat i = Some f /\ Clock.reference f = 0;
  swept_frames :
    forall m f, 0 <= m < Clock.number_frames s ->
      Clock.frames s !! Z.to_nat m = Some f ->
      Clock.frames s' !! Z.to_nat m =
      Some (if (m - Clock.clock_hand s) mod Clock.number_frames s <? k
            then cleared f else f)
}.

Lemma clock_sweep (N : nat) (s : Clock.t) :
  ClockFacts.full s -> (Clock.referenced s <= N)%nat ->
  exists i s' k, Clock.find_removing_page s = (Ok i, s') /\ swept s i s' k.
Proof.
  revert s. induction N as [|N IH]; intros s Hfull HN.
  all: pose proof Hfull as [Hcap Hsz Hh].
  all: assert (is_Some (Clock.frames s !! Z.to_nat (Clock.clock_hand s)))
      as [f Hf] by (apply lookup_lt_is_Some; unfold len in *; lia).
  all: pose proof (ClockFacts.inspect_slot_in_range s f ltac:(lia) ltac:(lia) Hf)
      as Hturn.
  all: destruct (Z.eqb_spec (Clock.reference f) 0) as [Hz|Hnz].
  all: try (exists (Clock.clock_hand s); eexists; exists 0;
            split; [by rewrite ClockFacts.find_removing_page_eq, Hturn|];
            split; cbn;
            [ lia
            | rewrite Z.add_0_r; symmetry; apply Z.mod_small; lia
            | intros j Hj; lia
            | intros _; eauto
            | intros m fm Hm Hfm;
              pose proof (Z.mod_pos_bound (m - Clock.clock_hand s)
                            (Clock.number_frames s) ltac:(lia));
              destruct (Z.ltb_spec ((m - Clock.clock_hand s)
                                      mod Clock.number_frames s) 0);
              [lia|done] ]).
  - apply Clock.inspect_slot_Continue in Hturn. lia.
  - pose proof (Clock.inspect_slot_Continue _ _ Hturn) as Hlt.
    set (n := Clock.number_frames s) in *.
    set (h := Clock.clock_hand s) in *.
    set (l1 := <[Z.to_nat h := Clock.Frame (Clock.page f) (Clock.dirty f) 0]>
                 (Clock.frames s)) in *.
    set (s1 := Clock.Mk n l1 ((h + 1) mod n) (Clock.page_faults s)
                 (Clock.disk_reads s) (Clock.disk_writes s) (Clock.debug s))
      in *.
    pose proof (Z.mod_pos_bound (h + 1) n ltac:(lia)) as Hh1.
    assert (ClockFacts.full s1) as Hfull1.
    { split; cbn; [done| |done]. unfold len, l1 in *. by rewrite length_insert. }
    destruct (IH s1 Hfull1 ltac:(lia)) as (i & s' & k1 & Hfind & Hsw).
    destruct Hsw as [Hk1 Hi Hpassed Hfound Hframes].
    cbn [Clock.number_frames Clock.frames Clock.clock_hand s1]
      in Hk1, Hi, Hpassed, Hfound, Hframes.
    assert (l1 !! Z.to_nat h = Some (cleared f)) as Hcl.
    { apply list_lookup_insert_eq. by apply lookup_lt_is_Some_1. }
    assert (forall m, 0 <= m < n -> m <> h ->
              l1 !! Z.to_nat m = Clock.frames s !! Z.to_nat m)
      as Hother.
    { intros m Hm Hne. apply list_lookup_insert_ne. lia. }
    assert (k1 < n) as Hk1n.
    { destruct (Z.eq_dec k1 n) as [->|]; [|lia].
      destruct (Hpassed (n - 1) ltac:(lia)) as (f1 & Hf1 & Href).
      rewrite hand_full_turn in Hf1 by lia.
      rewrite Hcl in Hf1. injection Hf1 as <-. done. }
    exists i, s', (k1 + 1).
    split; [by rewrite ClockFacts.find_removing_page_eq, Hturn|].
    split; fold h n.
    + lia.
    + rewrite Hi. apply hand_next_add. lia.
    + intros j Hj. destruct (Z.eq_dec j 0) as [->|Hj0].
      * rewrite Z.add_0_r, Z.mod_small by lia. eauto.
      * destruct (Hpassed (j - 1) ltac:(lia)) as (f1 & Hf1 & Href).
        rewrite hand_next_add in Hf1 by lia.
        replace (h + (j - 1 + 1)) with (h + j) in Hf1 by lia.
        pose proof (Z.mod_pos_bound (h + j) n ltac:(lia)).
        destruct (Z.eq_dec ((h + j) mod n) h) as [Heq|Hne].
        -- rewrite Heq, Hcl in Hf1. injection Hf1 as <-. done.
        -- rewrite Hother in Hf1 by lia. eauto.
    + intros Hkn. destruct (Hfound Hk1n) as (f1 & Hf1 & Href).
      pose proof (Z.mod_pos_bound (h + (k1 + 1)) n ltac:(lia)).
      assert (i = (h + (k1 + 1)) mod n) as Hi'.
      { rewrite Hi. apply hand_next_add. lia. }
      destruct (Z.eq_dec i h) as [Heq|Hne].
      * exfalso. rewrite Hi' in Heq.
        apply hand_back in Heq; lia.
      * rewrite Hother in Hf1 by lia. eauto.
    + intros m fm Hm Hfm. destruct (Z.eq_dec m h) as [->|Hne].
      * rewrite Hf in Hfm. injection Hfm as <-.
        rewrite (Hframes h (cleared f)) by (done || lia).
        rewrite Z.sub_diag, Z.mod_0_l by lia.
        destruct (Z.ltb_spec 0 (k1 + 1)); [|lia].
        by destruct (_ <? _).
      * rewrite <- Hother in Hfm by lia.
        rewrite (Hframes m fm) by (done || lia).
        rewrite (hand_offset n h m) by lia.
        destruct (Z.ltb_spec ((m - (h + 1) mod n) mod n) k1),
                 (Z.ltb_spec (1 + (m - (h + 1) mod n) mod n) (k1 + 1));
          (done || lia).
Qed.

(** A turn of the loop changes neither the capacity nor the debug flag,
    and when it designates a slot, it is the one under the hand, which
    then moves one slot on. *)
Lemma inspect_slot_moves (s s' : Clock.t) (r : result Clock.ctl) :
  Clock.inspect_slot s = (r, s') ->
  Clock.number_frames s' = Clock.number_frames s /\
  Clock.debug s' = Clock.debug s /\
  forall i, r = Ok (Clock.Return i) ->
    i = Clock.clock_hand s /\
    Clock.clock_hand s' = (i + 1) mod Clock.number_frames s.
Proof.
  destruct s as [nf l h pf dr dw dbg].
  unfold Clock.inspect_slot, list_getitem, list_setitem, mod_.
  ClockFacts.unfold_fields.
  destruct (index (len l) h) as [n|]; [|by intros [= <- <-]].
  destruct (l !! n) as [f|]; [|by intros [= <- <-]].
  destruct (Clock.reference f =? 0), (nf =? 0); intros [= <- <-];
    do 2 (split; [done|]); intros j Hj; try discriminate Hj;
    by injection Hj as <-.
Qed.

Lemma clock_search_moves (s s' : Clock.t) (i : Z) :
  Clock.find_removing_page s = (Ok i, s') ->
  Clock.number_frames s' = Clock.number_frames s /\
  Clock.debug s' = Clock.debug s /\
  Clock.clock_hand s' = (i + 1) mod Clock.number_frames s.
Proof.
  revert i s'. funelim (Clock.find_removing_page s); intros i s1 Heq;
    match goal with H : Clock.inspect_slot _ = _ |- _ =>
      pose proof (inspect_slot_moves _ _ _ H) as (Hn & Hd & Hret) end.
  - match goal with IH : forall i s, _ -> _ |- _ =>
      destruct (IH _ _ Heq) as (Hn' & Hd' & Hh') end.
    rewrite Hn', Hd', Hh', Hn, Hd. done.
  - injection Heq as <- <-. destruct (Hret _ eq_refl) as [-> Hh]. done.
  - discriminate Heq.
Qed.

(** X11: under Clock with a capacity of at least 1, when a fault finds
    every frame taken, the search passes over the frames that have their
    reference bit set, from the hand on in slot order (wrapping around),
    clears their bits, and designates the first frame whose bit is clear,
    or the frame under the hand if all bits were set; the frames not passed
    over are left as they were, and the hand ends one slot past the
    designated one. *)
Theorem clock_sweep_is_second_chance (cap : Z) (accs : list access)
    (s0 s : Clock.t) :
  1 <= cap -> Clock.init cap = Ok s0 -> run accs s0 = (Ok tt, s) ->
  cap <= len (Clock.frames s) ->
  exists i s' k,
    Clock.find_removing_page (Clock.faulted s) = (Ok i, s') /\
    0 <= k <= cap /\
    i = (Clock.clock_hand s + k) mod cap /\
    (forall j, 0 <= j < k ->
       exists f,
         Clock.frames s !! Z.to_nat ((Clock.clock_hand s + j) mod cap) = Some f
         /\ Clock.reference f <> 0) /\
    (k < cap ->
     exists f, Clock.frames s !! Z.to_nat i = Some f /\ Clock.reference f = 0) /\
    (forall m f, 0 <= m < cap -> Clock.frames s !! Z.to_nat m = Some f ->
       Clock.frames s' !! Z.to_nat m =
       Some (if (m - Clock.clock_hand s) mod cap <? k then cleared f else f)) /\
    Clock.clock_hand s' = (i + 1) mod cap.
Proof.
  intros Hcap Hinit Hrun Hlen.
  destruct (clock_init_inv _ _ Hcap Hinit) as [HI ->].
  pose proof (run_inv _ _ _ _ ClockFacts.clock_step _ _ _ HI Hrun) as HIs.
  pose proof (run_capacity _ _ _ _ ClockFacts.clock_step accs _ HI) as Hc.
  unfold after in Hc. rewrite Hrun in Hc. cbn in Hc.
  destruct HIs as [_ Hnd Hsz Hh].
  assert (ClockFacts.full (Clock.faulted s)) as Hfull by (split; cbn; lia).
  destruct (clock_sweep _ _ Hfull (Nat.le_refl _))
    as (i & s' & k & Hfind & [Hk Hi Hpassed Hfound Hframes]).
  destruct (clock_search_moves _ _ _ Hfind) as (_ & _ & Hhand).
  cbn in Hk, Hi, Hpassed, Hfound, Hframes, Hhand. rewrite Hc in *.
  exists i, s', k. done.
Qed.

Lemma clock_sweep_is_second_chance_witness :
  1 <= 2 /\
  exists i s',
    Clock.find_removing_page
      (Clock.faulted
         (Clock.Mk 2 [Clock.Frame 3 false 1; Clock.Frame 2 false 0]
            1 3 3 0 false))
    = (Ok i, s') /\ Clock.clock_hand s' = (i + 1) mod 2.
Proof.
  assert (1 <= 2) as H by lia.
  split; [exact H|].
  assert (run [Read 1; Read 2; Read 3] (Clock.Mk 2 [] 0 0 0 0 false)
          = (Ok tt,
             Clock.Mk 2 [Clock.Frame 3 false 1; Clock.Frame 2 false 0]
               1 3 3 0 false)) as Hrun by (vm_compute; reflexivity).
  destruct (clock_sweep_is_second_chance 2 [Read 1; Read 2; Read 3] _ _
              H eq_refl Hrun)
    as (i & s' & k & H1 & _ & _ & _ & _ & _ & H2).
  - unfold len. cbn. lia.
  - exists i, s'. split; [exact H1|exact H2].
Defined.

(** ** Clock: where a page goes and when the hand moves *)

(** A hit rewrites one frame, the first one that holds the page. *)
Lemma hit_scan_slot (p : Z) (w : bool) (l l' : list Clock.frame) :
  Clock.hit_scan p w l = Some l' ->
  exists n f,
    l !! n = Some f /\ Clock.page f = p /\
    l' = <[n := Clock.Frame p (if w then true else Clock.dirty f) 1]> l.
Proof.
  revert l'. induction l as [|f l IH]; intros l'; simpl; [done|].
  destruct (Z.eqb_spec (Clock.page f) p) as [Hp|Hne].
  - intros [= <-]. exists O, f. by rewrite Hp.
  - destruct (Clock.hit_scan p w l) as [l1|]; simpl; [|done].
    intros [= <-]. destruct (IH _ eq_refl) as (n & f1 & Hn & Hf1 & ->).
    by exists (S n), f1.
Qed.

(** X12: under Clock with a capacity of at least 1, at any point of any
    trace: a hit rewrites the frame of its page in place, with the
    reference bit set, and leaves the hand alone; a fault with a free
    frame appends the new frame and leaves the hand alone; a fault with
    every frame taken puts the new frame, reference bit set, in one slot
    [i], keeps the pages and dirty flags of all other slots, and leaves the
    hand one slot past [i]. *)
Theorem clock_slots_and_hand (cap : Z) (accs : list access)
    (s0 s : Clock.t) (p : Z) (w : bool) :
  1 <= cap -> Clock.init cap = Ok s0 -> run accs s0 = (Ok tt, s) ->
  exists s',
    Clock.access_memory p w s = (Ok tt, s') /\
    (p ∈ Clock.resident s ->
     Clock.clock_hand s' = Clock.clock_hand s /\
     exists n f,
       Clock.frames s !! n = Some f /\ Clock.page f = p /\
       Clock.frames s' =
       <[n := Clock.Frame p (if w then true else Clock.dirty f) 1]>
         (Clock.frames s)) /\
    (p ∉ Clock.resident s -> len (Clock.frames s) < cap ->
     Clock.clock_hand s' = Clock.clock_hand s /\
     Clock.frames s' = Clock.frames s ++ [Clock.Frame p w 1]) /\
    (p ∉ Clock.resident s -> cap <= len (Clock.frames s) ->
     exists i,
       0 <= i < cap /\
       Clock.clock_hand s' = (i + 1) mod cap /\
       Clock.content <$> Clock.frames s' =
       <[Z.to_nat i := (p, w)]> (Clock.content <$> Clock.frames s) /\
       Clock.frames s' !! Z.to_nat i = Some (Clock.Frame p w 1)).
Proof.
  intros Hcap Hinit Hrun.
  destruct (clock_init_inv _ _ Hcap Hinit) as [HI ->].
  pose proof (run_inv _ _ _ _ ClockFacts.clock_step _ _ _ HI Hrun) as HIs.
  pose proof (run_capacity _ _ _ _ ClockFacts.clock_step accs _ HI) as Hc.
  unfold after in Hc. rewrite Hrun in Hc. cbn in Hc.
  destruct HIs as [_ Hnd Hsz Hh].
  destruct (Clock.hit_scan p w (Clock.frames s)) as [l'|] eqn:Hs.
  - eexists. split; [by apply ClockFacts.clock_access_hit|].
    assert (p ∈ Clock.resident s) as Hres.
    { destruct (decide (p ∈ Clock.resident s)) as [|Hn]; [done|].
      apply (ClockFacts.hit_scan_None p w) in Hn. congruence. }
    split; [|split; intros; done].
    intros _. split; [done|]. by apply hit_scan_slot.
  - apply ClockFacts.hit_scan_None in Hs as Hres.
    destruct (Z.lt_ge_cases (len (Clock.frames s)) (Clock.number_frames s))
      as [Hroom|Hfull].
    + eexists. split; [by apply ClockFacts.clock_access_load|].
      split; [done|]. split; [done|]. intros _ ?. lia.
    + assert (ClockFacts.full s) as Hf by (split; lia).
      destruct (ClockFacts.clock_access_evict s p w Hf Hs)
        as (i & s2 & victim & Hfind & Hpost & Hv & Hacc).
      eexists. split; [exact Hacc|]. split; [done|].
      split; [intros _ ?; lia|]. intros _ _.
      destruct (clock_search_moves _ _ _ Hfind) as (_ & _ & Hhand).
      destruct Hpost as [Hi _ Hct _ _ _ _ _ _]. cbn in Hi, Hct, Hhand |- *.
      rewrite Hc in *. exists i. split; [done|]. split; [done|]. split.
      * by rewrite list_fmap_insert, Hct.
      * apply list_lookup_insert_eq. by apply lookup_lt_is_Some_1.
Qed.

Lemma clock_slots_and_hand_witness :
  1 <= 2 /\
  exists s',
    Clock.access_memory 4 true
      (Clock.Mk 2 [Clock.Frame 3 false 1; Clock.Frame 2 false 0] 1 3 3 0 false)
    = (Ok tt, s').
Proof.
  assert (1 <= 2) as H by lia.
  split; [exact H|].
  assert (run [Read 1; Read 2; Read 3] (Clock.Mk 2 [] 0 0 0 0 false)
          = (Ok tt,
             Clock.Mk 2 [Clock.Frame 3 false 1; Clock.Frame 2 false 0]
               1 3 3 0 false)) as Hrun by (vm_compute; reflexivity).
  destruct (clock_slots_and_hand 2 [Read 1; Read 2; Read 3] _ _ 4 true
              H eq_refl Hrun) as (s' & H1 & _).
  exists s'. exact H1.
Defined.

(** ** Random: the use made of the generator *)

(** A property of the unit that every access keeps is kept by a run. *)
Section RunInvariant.
Context {St : Type} `{MMU St}.
Variables Inv P : St -> Prop.

Hypothesis total :
  forall s a, Inv s -> exists s', perform a s = (Ok tt, s') /\ Inv s'.
Hypothesis keeps :
  forall s a s', Inv s -> P s -> perform a s = (Ok tt, s') -> P s'.

Lemma run_keeps (accs : list access) (s : St) :
  Inv s -> P s -> P (after accs s).
Proof.
  unfold after. revert s. induction accs as [|a accs IH]; intros s HI HP.
  - done.
  - destruct (total s a HI) as (s1 & Hp & HI1).
    simpl. unfold bind. rewrite Hp. apply IH; [done|].
    by apply (keeps s a).
Qed.

End RunInvariant.

(** The number of evictions so far: the faults that did not fill a free
    frame. *)
Definition rand_evictions (s : Rand.t) : Z :=
  Rand.page_faults s - len (Rand.frames s).

(** The generator of [s] is the generator [g] advanced by the number of
    evictions. *)
Definition rand_drawn (g : nat -> nat) (s : Rand.t) : Prop :=
  0 <= rand_evictions s /\
  forall n, Rand.random s n = g (n + Z.to_nat (rand_evictions s))%nat.

Lemma rand_total (s : Rand.t) (a : access) :
  RandFacts.Inv s -> exists s', perform a s = (Ok tt, s') /\ RandFacts.Inv s'.
Proof.
  intros HI. destruct (RandFacts.rand_step s a HI) as (s' & Hp & HI' & _).
  eauto.
Qed.

Lemma rand_step_drawn (g : nat -> nat) (s s' : Rand.t) (a : access) :
  RandFacts.Inv s -> rand_drawn g s -> perform a s = (Ok tt, s') ->
  rand_drawn g s'.
Proof.
  intros [Hcap Hnd Hsz] [Hpos Hg] Hp. unfold rand_drawn, rand_evictions in *.
  rewrite RandFacts.rand_perform_access in Hp.
  destruct (dict_get (Rand.frames s) (page_of a)) as [f|] eqn:Hf.
  - rewrite (RandFacts.rand_access_hit _ _ _ _ Hf) in Hp.
    injection Hp as <-. cbn.
    assert (len (if is_write_of a
                 then dict_setitem (Rand.frames s) (page_of a) (Rand.Frame true)
                 else Rand.frames s) = len (Rand.frames s)) as ->; [|done].
    destruct (is_write_of a); [|done]. unfold len. rewrite length_setitem.
    assert (contains (Rand.frames s) (page_of a) = true) as ->; [|done].
    apply contains_keys, dict_get_keys. eauto.
  - apply dict_get_None in Hf.
    destruct (Z.lt_ge_cases (len (Rand.frames s)) (Rand.number_frames s)).
    + rewrite (RandFacts.rand_access_load _ _ _ Hf) in Hp by done.
      injection Hp as <-. cbn. unfold len in *. rewrite length_app. simpl.
      split; [lia|]. intros n. rewrite Hg. f_equal. lia.
    + assert (Rand.frames s <> []) as Hne.
      { unfold len in *. destruct (Rand.frames s); [simpl in *; lia|done]. }
      destruct (RandFacts.rand_access_evict s _ (is_write_of a) Hf H Hne)
        as (fq & Hfq & Hacc).
      rewrite Hacc in Hp. injection Hp as <-. cbn.
      assert (chosen_in : Rand.chosen (Rand.random s 0) (keys (Rand.frames s))
                          ∈ keys (Rand.frames s))
        by (apply dict_get_keys; eauto).
      pose proof (length_remove _ _ chosen_in) as Hrem.
      unfold len in *. rewrite length_app. simpl.
      split; [lia|]. intros n. rewrite Hg. f_equal. lia.
Qed.



(** * The debug output *)

Import Out.

Module LruOutFacts.
Import Lru.

Ltac unfold_out :=
  unfold LruOut.if_debug, self, print;
  cbv beta iota zeta delta
    [with_frames with_page_faults with_disk_reads with_disk_writes
     with_debug with_recency_tracker number_frames frames page_faults
     disk_reads disk_writes debug recency_tracker
     bind get modify lift ret raise when fst snd].

Lemma lru_out_hit (s : t) (out : list string) (p : Z) (w : bool) (f : frame) :
  dict_get (frames s) p = Some f ->
  LruOut.access_memory p w (s, out) =
  (Ok tt,
   ((access_memory p w s).2,
    out ++ (if debug s
            then ["HIT: Page " +:+ str p +:+ ". Dirty: "
                  +:+ str_bool (w || dirty f)]
            else []))).
Proof.
  intros Hf. rewrite (LruFacts.lru_access_hit _ _ _ _ Hf).
  LruFacts.destruct_state s.
  assert (contains d p = true) as Hc.
  { apply contains_keys, dict_get_keys. eauto. }
  unfold LruOut.access_memory, update_frame, dict_getitem.
  unfold_out.
  rewrite Hc. destruct w; cbn.
  - rewrite Hf. cbn. rewrite dict_get_setitem, Z.eqb_refl. cbn.
    rewrite dict_setitem_twice. destruct dbg; cbn.
    + rewrite dict_get_setitem, Z.eqb_refl. done.
    + by rewrite app_nil_r.
  - rewrite Hf. cbn. destruct dbg; cbn.
    + rewrite dict_get_setitem, Z.eqb_refl. done.
    + by rewrite app_nil_r.
Qed.

Lemma lru_out_load (s : t) (out : list string) (p : Z) (w : bool) :
  p ∉ keys (frames s) ->
  len (frames s) < number_frames s ->
  LruOut.access_memory p w (s, out) =
  (Ok tt,
   ((access_memory p w s).2,
    out ++ (if debug s
            then ["FAULT: Page " +:+ str p;
                  "LOADED: Page " +:+ str p +:+ ". Dirty: " +:+ str_bool w]
            else []))).
Proof.
  intros Hp Hlen. rewrite (LruFacts.lru_access_load _ _ _ Hp Hlen).
  LruFacts.destruct_state s.
  unfold LruOut.access_memory. unfold_out.
  apply contains_false in Hp as Hc. rewrite Hc.
  destruct dbg; cbn [fst snd].
  - destruct (Z.geb_spec (len d) nf); [lia|].
    rewrite dict_setitem_absent by done. by rewrite <- app_assoc.
  - destruct (Z.geb_spec (len d) nf); [lia|].
    rewrite dict_setitem_absent by done. by rewrite app_nil_r.
Qed.

Lemma lru_out_evict (s : t) (out : list string) (p : Z) (w : bool) (q : Z)
    (fq : frame) :
  p ∉ keys (frames s) ->
  number_frames s <= len (frames s) ->
  min_by (last_used_of (frames s)) (keys (frames s)) = Ok q ->
  dict_get (frames s) q = Some fq ->
  LruOut.access_memory p w (s, out) =
  (Ok tt,
   ((access_memory p w s).2,
    out ++ (if debug s
            then ["FAULT: Page " +:+ str p;
                  (if dirty fq then "REMOVING: Dirty " else "REMOVING: Clean ")
                  +:+ str q;
                  "LOADED: Page " +:+ str p +:+ ". Dirty: " +:+ str_bool w]
            else []))).
Proof.
  intros Hp Hlen Hmin Hfq.
  destruct (LruFacts.lru_access_evict s p w q Hp Hlen Hmin)
    as (fq' & Hfq' & ->).
  assert (fq' = fq) as -> by congruence. clear Hfq'.
  LruFacts.destruct_state s.
  destruct (min_by_spec _ _ _ Hmin) as [Hq _].
  unfold LruOut.access_memory. unfold_out.
  apply contains_false in Hp as Hc. rewrite Hc.
  apply contains_keys in Hq as Hcq.
  assert (p ∉ keys (dict_remove d q)) as Hp'.
  { intros Hin. by apply Hp, (keys_remove_subseteq _ q). }
  unfold dict_getitem, dict_delitem.
  destruct dbg; cbn [fst snd];
    (destruct (Z.geb_spec (len d) nf); [|lia]);
    rewrite Hmin, Hfq; destruct (dirty fq); cbn [fst snd];
    rewrite Hcq; cbn [fst snd];
    rewrite dict_setitem_absent by done;
    rewrite <- ?app_assoc, ?app_nil_r; cbn [app]; repeat f_equal; lia.
Qed.

End LruOutFacts.

Module RandOutFacts.
Import Rand.

Ltac unfold_out :=
  unfold RandOut.if_debug, self, print;
  cbv beta iota zeta delta
    [with_frames with_page_faults with_disk_reads with_disk_writes
     with_debug with_random number_frames frames page_faults
     disk_reads disk_writes debug random
     bind get modify lift ret raise when fst snd].

Lemma rand_out_hit (s : t) (out : list string) (p : Z) (w : bool) (f : frame) :
  dict_get (frames s) p = Some f ->
  RandOut.access_memory p w (s, out) =
  (Ok tt,
   ((access_memory p w s).2,
    out ++ (if debug s
            then ["HIT: Page " +:+ str p +:+ ". Dirty: "
                  +:+ str_bool (w || dirty f)]
            else []))).
Proof.
  intros Hf. rewrite (RandFacts.rand_access_hit _ _ _ _ Hf).
  RandFacts.destruct_state s.
  assert (contains d p = true) as Hc.
  { apply contains_keys, dict_get_keys. eauto. }
  unfold RandOut.access_memory, update_frame, dict_getitem. unfold_out.
  rewrite Hc. destruct w, dbg; cbn [fst snd orb]; rewrite ?Hf; cbn [fst snd];
    rewrite ?dict_get_setitem, ?Z.eqb_refl, ?Hf, ?app_nil_r; done.
Qed.

Lemma rand_out_load (s : t) (out : list string) (p : Z) (w : bool) :
  p ∉ keys (frames s) ->
  len (frames s) < number_frames s ->
  RandOut.access_memory p w (s, out) =
  (Ok tt,
   ((access_memory p w s).2,
    out ++ (if debug s
            then ["FAULT: Page " +:+ str p;
                  "LOADED: Page " +:+ str p +:+ ". Dirty: " +:+ str_bool w]
            else []))).
Proof.
  intros Hp Hlen. rewrite (RandFacts.rand_access_load _ _ _ Hp Hlen).
  RandFacts.destruct_state s.
  unfold RandOut.access_memory. unfold_out.
  apply contains_false in Hp as Hc. rewrite Hc.
  destruct dbg; cbn [fst snd];
    (destruct (Z.geb_spec (len d) nf); [lia|]);
    rewrite dict_setitem_absent by done;
    by rewrite <- ?app_assoc, ?app_nil_r.
Qed.

Lemma rand_out_evict (s : t) (out : list string) (p : Z) (w : bool)
    (fq : frame) :
  p ∉ keys (frames s) ->
  number_frames s <= len (frames s) ->
  frames s <> [] ->
  dict_get (frames s) (chosen (random s O) (keys (frames s))) = Some fq ->
  RandOut.access_memory p w (s, out) =
  (Ok tt,
   ((access_memory p w s).2,
    out ++ (if debug s
            then ["FAULT: Page " +:+ str p;
                  (if dirty fq then "REMOVING: Dirty " else "REMOVING: Clean ")
                  +:+ str (chosen (random s O) (keys (frames s)));
                  "LOADED: Page " +:+ str p +:+ ". Dirty: " +:+ str_bool w]
            else []))).
Proof.
  intros Hp Hlen Hne Hfq.
  destruct (RandFacts.rand_access_evict s p w Hp Hlen Hne)
    as (fq' & Hfq' & ->).
  assert (fq' = fq) as -> by congruence. clear Hfq'.
  RandFacts.destruct_state s.
  assert (keys d <> []) as Hk by (unfold keys; by destruct d).
  pose proof (RandFacts.chosen_elem (g O) _ Hk) as Hq.
  remember (chosen (g O) (keys d)) as q eqn:Eq.
  unfold RandOut.access_memory. unfold_out.
  apply contains_false in Hp as Hc. rewrite Hc.
  apply contains_keys in Hq as Hcq.
  assert (p ∉ keys (dict_remove d q)) as Hp'.
  { intros Hin. by apply Hp, (keys_remove_subseteq _ q). }
  unfold dict_getitem, dict_delitem.
  destruct dbg; cbn [fst snd];
    (destruct (Z.geb_spec (len d) nf); [|lia]);
    rewrite (RandFacts.choice_nonempty _ _ Hk);
    cbv beta iota zeta delta
      [with_random random number_frames frames page_faults disk_reads
       disk_writes debug fst snd];
    rewrite <- Eq, Hfq; destruct (dirty fq); cbn [fst snd];
    rewrite Hcq; cbn [fst snd];
    rewrite dict_setitem_absent by done;
    rewrite <- ?app_assoc, ?app_nil_r; cbn [app]; repeat f_equal; lia.
Qed.

End RandOutFacts.

Module ClockOutFacts.
Import Clock.

Ltac unfold_out :=
  unfold ClockOut.if_debug, self, print;
  cbv beta iota zeta delta
    [with_frames with_page_faults with_disk_reads with_disk_writes
     with_debug with_clock_hand number_frames frames page_faults
     disk_reads disk_writes debug clock_hand
     bind get modify lift ret raise when fst snd].

(** A line of the search loop. *)
Definition is_second_chance (line : string) : Prop :=
  exists p, line = "SECOND CHANCE: Page " +:+ str p +:+ ". Reference: 0".

Lemma hit_scan_unit (p : Z) (w : bool) (l : list frame) :
  hit_scan p w l = option_map snd (ClockOut.hit_scan p w l).
Proof.
  induction l as [|f l IH]; simpl; [done|].
  destruct (page f =? p); [done|]. rewrite IH.
  by destruct (ClockOut.hit_scan p w l) as [[? ?]|].
Qed.

Lemma count_referenced_clear (l : list frame) (n : nat) (x y : frame) :
  l !! n = Some x -> reference x <> 0 -> reference y = 0 ->
  S (count_referenced (<[n := y]> l)) = count_referenced l.
Proof.
  unfold count_referenced. revert n.
  induction l as [|a l IH]; intros [|n] Hl Hx Hy; simpl in *;
    try discriminate.
  - injection Hl as ->.
    rewrite filter_cons_False by tauto.
    by rewrite filter_cons_True by done.
  - specialize (IH n Hl Hx Hy).
    destruct (decide (reference a <> 0)).
    + rewrite !filter_cons_True by done. simpl. lia.
    + by rewrite !filter_cons_False by done.
Qed.

Lemma count_referenced_set (l : list frame) (n : nat) (x y : frame) :
  l !! n = Some x -> reference x = 0 -> reference y <> 0 ->
  count_referenced (<[n := y]> l) = S (count_referenced l).
Proof.
  unfold count_referenced. revert n.
  induction l as [|a l IH]; intros [|n] Hl Hx Hy; simpl in *;
    try discriminate.
  - injection Hl as ->.
    rewrite filter_cons_True by done.
    by rewrite (filter_cons_False _ x) by tauto.
  - specialize (IH n Hl Hx Hy).
    destruct (decide (reference a <> 0)).
    + rewrite !filter_cons_True by done. simpl. lia.
    + by rewrite !filter_cons_False by done.
Qed.

Lemma count_referenced_app (l k : list frame) :
  count_referenced (l ++ k) = (count_referenced l + count_referenced k)%nat.
Proof. unfold count_referenced. by rewrite filter_app, length_app. Qed.

(** One turn of the loop: it keeps the debug flag, prints at most one
    line, and with [debug] set prints one line for each bit it clears. *)
Lemma inspect_slot_line (s : t) :
  debug (inspect_slot s).2 = debug s /\
  Forall is_second_chance (ClockOut.second_chance_line s) /\
  (debug s = false -> ClockOut.second_chance_line s = []) /\
  (debug s = true ->
   (length (ClockOut.second_chance_line s) + referenced (inspect_slot s).2
    = referenced s)%nat).
Proof.
  unfold Clock.inspect_slot, ClockOut.second_chance_line, referenced.
  destruct s as [nf l h pf dr dw dbg].
  cbv beta iota zeta delta
    [with_frames with_clock_hand number_frames frames page_faults
     disk_reads disk_writes debug clock_hand
     bind get modify lift ret raise when fst snd].
  destruct (list_getitem l h) as [f|e] eqn:Hget; [|done].
  apply list_getitem_Ok in Hget as (n & Hn & Hf).
  unfold list_setitem. rewrite Hn.
  destruct (Z.eqb_spec (reference f) 0) as [Hz|Hnz]; cbn [orb].
  - by destruct (mod_ (h + 1) nf).
  - assert (S (count_referenced (<[n := Frame (page f) (dirty f) 0]> l))
            = count_referenced l) as Hcount
      by (by apply (count_referenced_clear _ _ f)).
    destruct dbg; cbn [negb];
      destruct (mod_ (h + 1) nf); cbn [fst snd frames debug length];
      repeat split; try done; try lia.
    all: apply Forall_singleton; by eexists.
Qed.

Lemma find_removing_page_out_eq (w : world t) :
  ClockOut.find_removing_page w =
  match ClockOut.inspect_slot w with
  | (Ok Continue, w') => ClockOut.find_removing_page w'
  | (Ok (Return i), w') => (Ok i, w')
  | (Raise e, w') => (Raise e, w')
  end.
Proof.
  funelim (ClockOut.find_removing_page w);
    match goal with H : ClockOut.inspect_slot _ = _ |- _ => by rewrite H end.
Qed.

(** The search does to the unit what it does without the output; with
    [debug] set it prints one line for each bit it clears, and nothing
    else. *)
Lemma find_removing_page_unit (s : t) (out : list string) :
  exists lines,
    ClockOut.find_removing_page (s, out) =
    ((find_removing_page s).1, ((find_removing_page s).2, out ++ lines)) /\
    debug (find_removing_page s).2 = debug s /\
    Forall is_second_chance lines /\
    (debug s = false -> lines = []) /\
    (debug s = true ->
     (length lines + referenced (find_removing_page s).2 = referenced s)%nat).
Proof.
  remember (referenced s) as n eqn:Hn. revert s out Hn.
  induction n as [n IH] using lt_wf_ind. intros s out ->.
  rewrite ClockFacts.find_removing_page_eq, find_removing_page_out_eq.
  rewrite ClockOut.inspect_slot_unit.
  destruct (inspect_slot_line s) as (Hdbg & Hsc & Hoff & Hon).
  destruct (inspect_slot s) as [[[|i]|e] s'] eqn:Hturn; cbn [fst snd] in *.
  - apply Clock.inspect_slot_Continue in Hturn as Hlt.
    destruct (IH _ Hlt s' (out ++ ClockOut.second_chance_line s) eq_refl)
      as (lines & -> & Hdbg' & Hsc' & Hoff' & Hon').
    exists (ClockOut.second_chance_line s ++ lines).
    rewrite <- app_assoc. split; [done|]. split; [congruence|].
    split; [by apply Forall_app|]. split.
    + intros Hd. rewrite Hoff by done. rewrite Hoff' by congruence. done.
    + intros Hd. rewrite length_app.
      specialize (Hon Hd). specialize (Hon' ltac:(congruence)). lia.
  - exists (ClockOut.second_chance_line s). auto.
  - exists (ClockOut.second_chance_line s). auto.
Qed.

End ClockOutFacts.

(** ** The debug flag is consulted for printing only *)

Lemma lru_debug_irrelevant (b : bool) (s : Lru.t) (p : Z) (w : bool) :
  Lru.access_memory p w (Lru.with_debug b s) =
  ((Lru.access_memory p w s).1,
   Lru.with_debug b (Lru.access_memory p w s).2).
Proof.
  destruct (dict_get (Lru.frames s) p) as [f|] eqn:Hf.
  - rewrite (LruFacts.lru_access_hit s p w f Hf).
    by rewrite (LruFacts.lru_access_hit (Lru.with_debug b s) p w f Hf).
  - apply dict_get_None in Hf.
    destruct (Z.lt_ge_cases (len (Lru.frames s)) (Lru.number_frames s))
      as [Hlt|Hge].
    + rewrite (LruFacts.lru_access_load s p w Hf Hlt).
      by rewrite (LruFacts.lru_access_load (Lru.with_debug b s) p w Hf Hlt).
    + destruct (Lru.frames s) as [|kv d] eqn:Hd.
      * assert (Lru.number_frames s <= 0) as Hn
          by (unfold len in Hge; simpl in Hge; lia).
        rewrite (LruFacts.lru_access_raise s p w Hd Hn).
        by rewrite (LruFacts.lru_access_raise (Lru.with_debug b s) p w Hd Hn).
      * destruct (min_by_nonempty (Lru.last_used_of (Lru.frames s))
                    (keys (Lru.frames s))) as [q Hmin].
        { by rewrite Hd. }
        rewrite <- Hd in *.
        destruct (LruFacts.lru_access_evict s p w q Hf Hge Hmin)
          as (fq & Hfq & ->).
        destruct (LruFacts.lru_access_evict (Lru.with_debug b s) p w q
                    Hf Hge Hmin) as (fq' & Hfq' & ->).
        cbn in Hfq'. assert (fq' = fq) as -> by congruence. done.
Qed.

Lemma rand_debug_irrelevant (b : bool) (s : Rand.t) (p : Z) (w : bool) :
  Rand.access_memory p w (Rand.with_debug b s) =
  ((Rand.access_memory p w s).1,
   Rand.with_debug b (Rand.access_memory p w s).2).
Proof.
  destruct (dict_get (Rand.frames s) p) as [f|] eqn:Hf.
  - rewrite (RandFacts.rand_access_hit s p w f Hf).
    by rewrite (RandFacts.rand_access_hit (Rand.with_debug b s) p w f Hf).
  - apply dict_get_None in Hf.
    destruct (Z.lt_ge_cases (len (Rand.frames s)) (Rand.number_frames s))
      as [Hlt|Hge].
    + rewrite (RandFacts.rand_access_load s p w Hf Hlt).
      by rewrite (RandFacts.rand_access_load (Rand.with_debug b s) p w Hf Hlt).
    + destruct (Rand.frames s) as [|kv d] eqn:Hd.
      * assert (Rand.number_frames s <= 0) as Hn
          by (unfold len in Hge; simpl in Hge; lia).
        rewrite (RandFacts.rand_access_raise s p w Hd Hn).
        by rewrite (RandFacts.rand_access_raise (Rand.with_debug b s) p w Hd Hn).
      * assert (Rand.frames s <> []) as Hne by (by rewrite Hd).
        rewrite <- Hd in *.
        destruct (RandFacts.rand_access_evict s p w Hf Hge Hne)
          as (fq & Hfq & ->).
        destruct (RandFacts.rand_access_evict (Rand.with_debug b s) p w
                    Hf Hge Hne) as (fq' & Hfq' & ->).
        cbn in Hfq'. assert (fq' = fq) as -> by congruence. done.
Qed.

Lemma clock_turn_debug_irrelevant (b : bool) (s : Clock.t) :
  Clock.inspect_slot (Clock.with_debug b s) =
  ((Clock.inspect_slot s).1, Clock.with_debug b (Clock.inspect_slot s).2).
Proof.
  ClockFacts.destruct_state s. unfold Clock.inspect_slot.
  ClockFacts.unfold_fields.
  destruct (list_getitem l h) as [f|e]; [|done].
  destruct (Clock.reference f =? 0).
  - by destruct (mod_ (h + 1) nf).
  - destruct (list_setitem l h _); [|done]. by destruct (mod_ (h + 1) nf).
Qed.

Lemma clock_search_debug_irrelevant (b : bool) (s : Clock.t) :
  Clock.find_removing_page (Clock.with_debug b s) =
  ((Clock.find_removing_page s).1,
   Clock.with_debug b (Clock.find_removing_page s).2).
Proof.
  remember (Clock.referenced s) as n eqn:Hn. revert s Hn.
  induction n as [n IH] using lt_wf_ind. intros s ->.
  rewrite (ClockFacts.find_removing_page_eq s).
  rewrite (ClockFacts.find_removing_page_eq (Clock.with_debug b s)).
  rewrite clock_turn_debug_irrelevant.
  destruct (Clock.inspect_slot s) as [[[|i]|e] s'] eqn:Hturn; cbn [fst snd];
    [|done..].
  apply Clock.inspect_slot_Continue in Hturn. by eapply IH.
Qed.

Lemma clock_debug_irrelevant (b : bool) (s : Clock.t) (p : Z) (w : bool) :
  Clock.access_memory p w (Clock.with_debug b s) =
  ((Clock.access_memory p w s).1,
   Clock.with_debug b (Clock.access_memory p w s).2).
Proof.
  unfold Clock.access_memory. unfold_monad.
  change (Clock.frames (Clock.with_debug b s)) with (Clock.frames s).
  destruct (Clock.hit_scan p w (Clock.frames s)) as [l'|]; [done|].
  ClockFacts.destruct_state s. ClockFacts.unfold_fields.
  destruct (len l <? nf); [done|].
  pose proof (clock_search_debug_irrelevant b
                (Clock.Mk nf l h (pf + 1) (dr + 1) dw dbg)) as Hs.
  unfold Clock.with_debug in Hs at 1. cbn in Hs. rewrite Hs. clear Hs.
  destruct (Clock.find_removing_page _) as [[i|e] s2]; cbn [fst snd];
    [|done].
  destruct s2 as [nf2 l2 h2 pf2 dr2 dw2 dbg2]. cbn.
  destruct (list_getitem l2 i) as [victim|e]; [|done].
  destruct (Clock.dirty victim); cbn;
    by destruct (list_setitem l2 i _).
Qed.

(** ** What the output tells *)

Lemma lines_with_nil (pre : string) : lines_with pre [] = 0.
Proof. done. Qed.

Lemma lines_with_cons (pre line : string) (out : list string) :
  lines_with pre (line :: out) =
  (if String.prefix pre line then 1 else 0) + lines_with pre out.
Proof.
  unfold lines_with, len. simpl. destruct (String.prefix pre line); simpl; lia.
Qed.

Lemma lines_with_app (pre : string) (out out' : list string) :
  lines_with pre (out ++ out') = lines_with pre out + lines_with pre out'.
Proof.
  unfold lines_with, len. rewrite List.filter_app, length_app. lia.
Qed.

Section DebugOutput.
Context {St : Type} {quiet : MMU St} {loud : MMU (world St)}
        {debug_methods : Debug (world St)}.
Variable Inv : St -> Prop.
Variable resident : St -> list Z.
Variable debug : St -> bool.
Variable with_debug : bool -> St -> St.
Variable potential : St -> Z.

(** What [n] accesses that took the unit from [s] to [s'] with [debug]
    set have printed: a line for each hit, for each fault, for each
    eviction and for each load; [potential] bounds the lines of the
    search loop. *)
Record tally (n : Z) (s s' : St) (lines : list string) : Prop := {
  tally_hit :
    lines_with "HIT:" lines
    = n - (get_total_page_faults s' - get_total_page_faults s);
  tally_fault :
    lines_with "FAULT:" lines
    = get_total_page_faults s' - get_total_page_faults s;
  tally_loaded :
    lines_with "LOADED:" lines
    = get_total_page_faults s' - get_total_page_faults s;
  tally_dirty :
    lines_with "REMOVING: Dirty" lines
    = get_total_disk_writes s' - get_total_disk_writes s;
  tally_removing :
    lines_with "REMOVING:" lines
    = (get_total_page_faults s' - get_total_page_faults s)
      - (len (resident s') - len (resident s));
  tally_chance :
    lines_with "SECOND CHANCE:" lines + potential s' <= potential s + n
}.

Lemma tally_app (n m : Z) (s s1 s2 : St) (l1 l2 : list string) :
  tally n s s1 l1 -> tally m s1 s2 l2 -> tally (n + m) s s2 (l1 ++ l2).
Proof.
  intros [] []. split; rewrite lines_with_app; lia.
Qed.

Hypothesis out_step :
  forall s a out, Inv s ->
    exists s' lines,
      perform a s = (Ok tt, s') /\ Inv s' /\ debug s' = debug s /\
      perform (St := world St) a (s, out) = (Ok tt, (s', out ++ lines)) /\
      (debug s = false -> lines = []) /\
      (debug s = true -> tally 1 s s' lines).
Hypothesis debug_irrelevant :
  forall b s a,
    perform a (with_debug b s) =
    ((perform a s).1, with_debug b (perform a s).2).
Hypothesis debug_with_debug : forall b s, debug (with_debug b s) = b.
Hypothesis with_debug_twice :
  forall b b' s, with_debug b (with_debug b' s) = with_debug b s.
Hypothesis inv_with_debug : forall b s, Inv s -> Inv (with_debug b s).
Hypothesis set_debug_world :
  forall s out, set_debug (s, out) = (Ok tt, (with_debug true s, out)).
Hypothesis reset_debug_world :
  forall s out, reset_debug (s, out) = (Ok tt, (with_debug false s, out)).

(** The calls do to the unit what the accesses among them do without
    any output, up to the debug flag; and nothing is printed as long as
    [set_debug] is not called. *)
Lemma invoke_all_inert (cs : list call) (b : bool) (s : St)
    (out : list string) :
  Inv s ->
  exists lines,
    invoke_all cs (with_debug b s, out) =
    (Ok tt,
     (with_debug (debug_after b cs) (after (accesses cs) s), out ++ lines)) /\
    (b = false -> SetDebug ∉ cs -> lines = []).
Proof.
  revert b s out. induction cs as [|c cs IH]; intros b s out HI.
  - exists []. by rewrite app_nil_r.
  - destruct c as [a| |]; simpl; unfold bind.
    + destruct (out_step _ a out (inv_with_debug b s HI))
        as (u' & lines & Hq & _ & _ & -> & Hoff & _).
      destruct (out_step s a out HI) as (s1 & _ & Hp & HI1 & _).
      rewrite debug_irrelevant, Hp in Hq. injection Hq as <-.
      destruct (IH b s1 (out ++ lines) HI1) as (lines' & -> & Hoff').
      exists (lines ++ lines'). rewrite app_assoc.
      assert (after (a :: accesses cs) s = after (accesses cs) s1) as ->.
      { unfold after. simpl. unfold bind. by rewrite Hp. }
      split; [done|]. intros -> Hnot.
      rewrite Hoff by apply debug_with_debug.
      rewrite Hoff'; [done..|]. intros Hin. apply Hnot. by right.
    + rewrite set_debug_world, with_debug_twice.
      destruct (IH true s out HI) as (lines & -> & _).
      exists lines. split; [done|]. intros _ Hnot. exfalso. apply Hnot. left.
    + rewrite reset_debug_world, with_debug_twice.
      destruct (IH false s out HI) as (lines & -> & Hoff).
      exists lines. split; [done|]. intros _ Hnot. apply Hoff; [done|].
      intros Hin. apply Hnot. by right.
Qed.

(** With [debug] set, the lines printed by a sequence of accesses tally
    with the counters. *)
Lemma invoke_all_tally (accs : list access) (s : St) (out : list string) :
  Inv s -> debug s = true ->
  exists lines,
    invoke_all (Access <$> accs) (s, out) =
    (Ok tt, (after accs s, out ++ lines)) /\
    tally (len accs) s (after accs s) lines.
Proof.
  revert s out. induction accs as [|a accs IH]; intros s out HI Hd.
  - exists []. rewrite app_nil_r. split; [done|].
    change (after [] s) with s.
    split; rewrite ?lines_with_nil; unfold len; simpl; lia.
  - destruct (out_step s a out HI)
      as (s1 & lines & Hp & HI1 & Hd1 & Hw & _ & Ht).
    destruct (IH s1 (out ++ lines) HI1 ltac:(congruence))
      as (lines' & Hrun & Ht').
    exists (lines ++ lines').
    change (invoke_all (Access <$> a :: accs) (s, out))
      with (bind (perform a) (fun _ => invoke_all (Access <$> accs)) (s, out)).
    unfold bind. rewrite Hw, Hrun, app_assoc.
    assert (after (a :: accs) s = after accs s1) as ->.
    { unfold after. simpl. unfold bind. by rewrite Hp. }
    split; [done|].
    replace (len (a :: accs)) with (1 + len accs)
      by (unfold len; simpl; lia).
    apply (tally_app _ _ _ s1); auto.
Qed.

End DebugOutput.

(** ** One access and its lines, policy by policy *)

Ltac count_lines :=
  repeat first [rewrite lines_with_app | rewrite lines_with_cons
               | rewrite lines_with_nil];
  repeat match goal with
         | |- context [String.prefix ?pre ?line] =>
             let b := eval lazy in (String.prefix pre line) in
             change (String.prefix pre line) with b
         end;
  cbv iota;
  try lia.

Lemma lru_out_step (s : Lru.t) (a : access) (out : list string) :
  LruFacts.Inv s ->
  exists s' lines,
    perform a s = (Ok tt, s') /\ LruFacts.Inv s' /\
    Lru.debug s' = Lru.debug s /\
    perform (St := world Lru.t) a (s, out) = (Ok tt, (s', out ++ lines)) /\
    (Lru.debug s = false -> lines = []) /\
    (Lru.debug s = true -> tally Lru.resident (fun _ => 0) 1 s s' lines).
Proof.
  intros HI. destruct (LruFacts.lru_step s a HI) as (s' & Hp & HI' & _).
  exists s'.
  assert (perform (St := world Lru.t) a (s, out)
          = LruOut.access_memory (page_of a) (is_write_of a) (s, out)) as ->
    by (by destruct a).
  pose proof Hp as Hq. rewrite LruFacts.lru_perform_access in Hq.
  destruct HI as [Hcap Hnd Hsz Hst]. unfold Lru.resident in *.
  destruct (dict_get (Lru.frames s) (page_of a)) as [f|] eqn:Hf.
  - rewrite (LruOutFacts.lru_out_hit _ _ _ _ _ Hf), Hq.
    rewrite (LruFacts.lru_access_hit _ _ _ _ Hf) in Hq. injection Hq as <-.
    eexists. do 4 (split; [done|]). split; [by intros ->|].
    intros ->.
    assert (page_of a ∈ keys (Lru.frames s)) as Hin
      by (apply dict_get_keys; eauto).
    split; cbn; rewrite ?keys_setitem_present by done; count_lines.
  - apply dict_get_None in Hf.
    destruct (Z.lt_ge_cases (len (Lru.frames s)) (Lru.number_frames s))
      as [Hlt|Hge].
    + rewrite (LruOutFacts.lru_out_load _ _ _ _ Hf Hlt), Hq.
      rewrite (LruFacts.lru_access_load _ _ _ Hf Hlt) in Hq.
      injection Hq as <-.
      eexists. do 4 (split; [done|]). split; [by intros ->|].
      intros ->.
      split; cbn; rewrite ?keys_snoc; unfold len; rewrite ?length_app;
        cbn [length]; count_lines.
    + destruct (min_by_nonempty (Lru.last_used_of (Lru.frames s))
                  (keys (Lru.frames s))) as [q Hmin].
      { unfold keys, len in *. destruct (Lru.frames s); [simpl in *; lia|done]. }
      destruct (LruFacts.lru_access_evict s _ (is_write_of a) q Hf Hge Hmin)
        as (fq & Hfq & Hacc).
      rewrite (LruOutFacts.lru_out_evict _ _ _ _ q fq Hf Hge Hmin Hfq), Hq.
      rewrite Hacc in Hq. injection Hq as <-.
      eexists. do 4 (split; [done|]). split; [by intros ->|].
      intros ->.
      assert (q ∈ keys (Lru.frames s)) as Hin
        by (apply dict_get_keys; eauto).
      pose proof (length_remove _ _ Hin) as Hrem.
      assert (length (keys (dict_remove (Lru.frames s) q))
              = length (dict_remove (Lru.frames s) q)) as Hk
        by (unfold keys; by rewrite length_fmap).
      assert (length (keys (Lru.frames s)) = length (Lru.frames s)) as Hk'
        by (unfold keys; by rewrite length_fmap).
      split; cbn; rewrite ?keys_snoc; unfold len; rewrite ?length_app;
        cbn [length]; destruct (Lru.dirty fq); count_lines.
Qed.

Lemma rand_out_step (s : Rand.t) (a : access) (out : list string) :
  RandFacts.Inv s ->
  exists s' lines,
    perform a s = (Ok tt, s') /\ RandFacts.Inv s' /\
    Rand.debug s' = Rand.debug s /\
    perform (St := world Rand.t) a (s, out) = (Ok tt, (s', out ++ lines)) /\
    (Rand.debug s = false -> lines = []) /\
    (Rand.debug s = true -> tally Rand.resident (fun _ => 0) 1 s s' lines).
Proof.
  intros HI. destruct (RandFacts.rand_step s a HI) as (s' & Hp & HI' & _).
  exists s'.
  assert (perform (St := world Rand.t) a (s, out)
          = RandOut.access_memory (page_of a) (is_write_of a) (s, out)) as ->
    by (by destruct a).
  pose proof Hp as Hq. rewrite RandFacts.rand_perform_access in Hq.
  destruct HI as [Hcap Hnd Hsz]. unfold Rand.resident in *.
  destruct (dict_get (Rand.frames s) (page_of a)) as [f|] eqn:Hf.
  - rewrite (RandOutFacts.rand_out_hit _ _ _ _ _ Hf), Hq.
    rewrite (RandFacts.rand_access_hit _ _ _ _ Hf) in Hq. injection Hq as <-.
    eexists. do 4 (split; [done|]). split; [by intros ->|].
    intros ->.
    assert (page_of a ∈ keys (Rand.frames s)) as Hin
      by (apply dict_get_keys; eauto).
    split; cbn; destruct (is_write_of a);
      rewrite ?keys_setitem_present by done; count_lines.
  - apply dict_get_None in Hf.
    destruct (Z.lt_ge_cases (len (Rand.frames s)) (Rand.number_frames s))
      as [Hlt|Hge].
    + rewrite (RandOutFacts.rand_out_load _ _ _ _ Hf Hlt), Hq.
      rewrite (RandFacts.rand_access_load _ _ _ Hf Hlt) in Hq.
      injection Hq as <-.
      eexists. do 4 (split; [done|]). split; [by intros ->|].
      intros ->.
      split; cbn; rewrite ?keys_snoc; unfold len; rewrite ?length_app;
        cbn [length]; count_lines.
    + assert (Rand.frames s <> []) as Hne.
      { unfold len in *. destruct (Rand.frames s); [simpl in *; lia|done]. }
      destruct (RandFacts.rand_access_evict s _ (is_write_of a) Hf Hge Hne)
        as (fq & Hfq & Hacc).
      rewrite (RandOutFacts.rand_out_evict _ _ _ _ fq Hf Hge Hne Hfq), Hq.
      rewrite Hacc in Hq. injection Hq as <-.
      eexists. do 4 (split; [done|]). split; [by intros ->|].
      intros ->.
      set (q := Rand.chosen (Rand.random s 0) (keys (Rand.frames s))) in *.
      assert (q ∈ keys (Rand.frames s)) as Hin
        by (apply dict_get_keys; eauto).
      pose proof (length_remove _ _ Hin) as Hrem.
      assert (length (keys (dict_remove (Rand.frames s) q))
              = length (dict_remove (Rand.frames s) q)) as Hk
        by (unfold keys; by rewrite length_fmap).
      assert (length (keys (Rand.frames s)) = length (Rand.frames s)) as Hk'
        by (unfold keys; by rewrite length_fmap).
      split; cbn; rewrite ?keys_snoc; unfold len; rewrite ?length_app;
        cbn [length]; destruct (Rand.dirty fq); count_lines.
Qed.

Lemma clock_out_hit (s : Clock.t) (out : list string) (p : Z) (w : bool)
    (frame : Clock.frame) (l' : list Clock.frame) :
  ClockOut.hit_scan p w (Clock.frames s) = Some (frame, l') ->
  ClockOut.access_memory p w (s, out) =
  (Ok tt,
   (Clock.with_frames l' s,
    out ++ (if Clock.debug s
            then ["HIT: Page " +:+ str p +:+ ". Dirty: "
                  +:+ str_bool (Clock.dirty frame) +:+ ". Reference: 1"]
            else []))).
Proof.
  intros Hs. ClockFacts.destruct_state s.
  unfold ClockOut.access_memory. ClockOutFacts.unfold_out. rewrite Hs.
  destruct dbg; by rewrite ?app_nil_r.
Qed.

Lemma clock_out_load (s : Clock.t) (out : list string) (p : Z) (w : bool) :
  ClockOut.hit_scan p w (Clock.frames s) = None ->
  len (Clock.frames s) < Clock.number_frames s ->
  ClockOut.access_memory p w (s, out) =
  (Ok tt,
   (Clock.Mk (Clock.number_frames s)
      (Clock.frames s ++ [Clock.Frame p w 1]) (Clock.clock_hand s)
      (Clock.page_faults s + 1) (Clock.disk_reads s + 1)
      (Clock.disk_writes s) (Clock.debug s),
    out ++ (if Clock.debug s
            then ["FAULT: Page " +:+ str p;
                  "LOADED: Page " +:+ str p +:+ ". Dirty: " +:+ str_bool w
                  +:+ ". Reference: 1 (Free slot)"]
            else []))).
Proof.
  intros Hs Hlen. ClockFacts.destruct_state s.
  unfold ClockOut.access_memory. ClockOutFacts.unfold_out. rewrite Hs.
  destruct dbg; cbn [fst snd];
    (destruct (Z.ltb_spec (len l) nf); [|lia]);
    by rewrite <- ?app_assoc, ?app_nil_r.
Qed.

Lemma clock_out_evict (s : Clock.t) (out : list string) (p : Z) (w : bool) :
  ClockFacts.full s ->
  ClockOut.hit_scan p w (Clock.frames s) = None ->
  exists i s2 victim chances,
    Clock.find_removing_page (Clock.faulted s) = (Ok i, s2) /\
    ClockFacts.searched (Clock.faulted s) i s2 /\
    Clock.frames s2 !! Z.to_nat i = Some victim /\
    Forall ClockOutFacts.is_second_chance chances /\
    (Clock.debug s = true ->
     (length chances + Clock.referenced s2 = Clock.referenced s)%nat) /\
    ClockOut.access_memory p w (s, out) =
    (Ok tt,
     (Clock.Mk (Clock.number_frames s)
        (<[Z.to_nat i := Clock.Frame p w 1]> (Clock.frames s2))
        (Clock.clock_hand s2)
        (Clock.page_faults s + 1) (Clock.disk_reads s + 1)
        (Clock.disk_writes s + (if Clock.dirty victim then 1 else 0))
        (Clock.debug s),
      out ++ (if Clock.debug s
              then ["FAULT: Page " +:+ str p] ++ chances ++
                   [(if Clock.dirty victim
                     then "REMOVING: Dirty " else "REMOVING: Clean ")
                    +:+ str (Clock.page victim);
                    "LOADED: Page " +:+ str p +:+ ". Dirty: " +:+ str_bool w
                    +:+ ". Reference: 1 (Replaced page)"]
              else []))).
Proof.
  intros Hfull Hs.
  assert (ClockFacts.full (Clock.faulted s)) as Hfull'.
  { destruct Hfull. by split. }
  destruct (ClockFacts.search_bounded _ Hfull')
    as (i & s2 & _ & _ & Hfind & Hpost).
  pose proof Hpost as [Hi Hnf Hct Hh Hpf Hdr Hdw Hdbg (victim & Hv & _)].
  set (out1 := out ++ (if Clock.debug s
                       then ["FAULT: Page " +:+ str p] else [])).
  destruct (ClockOutFacts.find_removing_page_unit (Clock.faulted s) out1)
    as (chances & Hloud & _ & Hsc & Hoff & Hon).
  rewrite Hfind in Hloud, Hon. cbn [fst snd] in Hloud, Hon.
  exists i, s2, victim, chances. do 4 (split; [done|]).
  split; [exact Hon|].
  assert (len (Clock.frames s2) = Clock.number_frames s) as Hlen.
  { destruct Hfull as [_ <- _]. unfold len. f_equal.
    rewrite <- (length_fmap Clock.content (Clock.frames s2)), Hct.
    by rewrite length_fmap. }
  ClockFacts.destruct_state s. unfold Clock.faulted in *. cbn in *.
  destruct Hfull as [Hcap Hsz Hhand]. cbn in *.
  unfold ClockOut.access_memory. ClockOutFacts.unfold_out. rewrite Hs.
  destruct s2 as [nf2 l2 h2 pf2 dr2 dw2 dbg2]. cbn in *. subst.
  unfold list_getitem, list_setitem.
  subst out1.
  destruct dbg; cbn [fst snd]; rewrite ?app_nil_r in Hloud;
    (destruct (Z.ltb_spec (len l) (len l)); [lia|]);
    rewrite Hloud; cbn [fst snd];
    rewrite ClockFacts.index_in_range by lia; rewrite Hv;
    destruct (Clock.dirty victim); cbn [fst snd];
    rewrite ClockFacts.index_in_range by lia;
    rewrite ?Hoff by done;
    rewrite <- ?app_assoc, ?app_nil_r; cbn [app];
    repeat f_equal; lia.
Qed.

Lemma lines_with_second_chance (lines : list string) :
  Forall ClockOutFacts.is_second_chance lines ->
  lines_with "SECOND CHANCE:" lines = len lines /\
  lines_with "HIT:" lines = 0 /\
  lines_with "FAULT:" lines = 0 /\
  lines_with "LOADED:" lines = 0 /\
  lines_with "REMOVING: Dirty" lines = 0 /\
  lines_with "REMOVING:" lines = 0.
Proof.
  induction 1 as [|line lines [p ->] _ IH]; [done|].
  destruct IH as (IH1 & IH2 & IH3 & IH4 & IH5 & IH6).
  replace (len (_ :: lines)) with (1 + len lines)
    by (unfold len; simpl; lia).
  repeat split; count_lines.
Qed.

Lemma hit_scan_out_marked (p : Z) (w : bool) (l l' : list Clock.frame)
    (frame : Clock.frame) :
  ClockOut.hit_scan p w l = Some (frame, l') ->
  length l' = length l /\
  (Clock.count_referenced l' <= S (Clock.count_referenced l))%nat.
Proof.
  unfold Clock.count_referenced. revert frame l'.
  induction l as [|f l IH]; intros frame l'; simpl; [done|].
  destruct (Clock.page f =? p).
  - intros [= <- <-]. simpl. split; [done|].
    destruct (decide (Clock.reference f <> 0)).
    + rewrite filter_cons_True by done. simpl. lia.
    + rewrite filter_cons_False by done. simpl. lia.
  - destruct (ClockOut.hit_scan p w l) as [[fr r]|]; [|done].
    intros [= <- <-]. destruct (IH _ r eq_refl) as [Hlen Hcount].
    simpl. split; [by rewrite Hlen|].
    destruct (decide (Clock.reference f <> 0)).
    + rewrite !filter_cons_True by done. simpl. lia.
    + rewrite !filter_cons_False by done. lia.
Qed.

Lemma clock_out_step (s : Clock.t) (a : access) (out : list string) :
  ClockFacts.Inv s ->
  exists s' lines,
    perform a s = (Ok tt, s') /\ ClockFacts.Inv s' /\
    Clock.debug s' = Clock.debug s /\
    perform (St := world Clock.t) a (s, out) = (Ok tt, (s', out ++ lines)) /\
    (Clock.debug s = false -> lines = []) /\
    (Clock.debug s = true ->
     tally Clock.resident (fun s => Z.of_nat (Clock.referenced s)) 1
       s s' lines).
Proof.
  intros HI. destruct (ClockFacts.clock_step s a HI) as (s' & Hp & HI' & _).
  exists s'.
  assert (perform (St := world Clock.t) a (s, out)
          = ClockOut.access_memory (page_of a) (is_write_of a) (s, out)) as ->
    by (by destruct a).
  pose proof Hp as Hq. rewrite ClockFacts.clock_perform_access in Hq.
  destruct HI as [Hcap Hnd Hsz Hhand]. unfold Clock.resident in *.
  pose proof (ClockOutFacts.hit_scan_unit (page_of a) (is_write_of a)
                (Clock.frames s)) as Hscan.
  destruct (ClockOut.hit_scan (page_of a) (is_write_of a) (Clock.frames s))
    as [[frame l']|] eqn:Hs; simpl in Hscan.
  - rewrite (clock_out_hit _ _ _ _ _ _ Hs).
    rewrite (ClockFacts.clock_access_hit _ _ _ _ Hscan) in Hq.
    injection Hq as <-.
    eexists. do 4 (split; [done|]). split; [by intros ->|].
    intros ->. destruct (hit_scan_out_marked _ _ _ _ _ Hs) as [Hlen Hcount].
    unfold Clock.referenced, Clock.count_referenced in *.
    split; cbn; unfold len; rewrite ?length_fmap, ?Hlen; count_lines.
  - destruct (Z.lt_ge_cases (len (Clock.frames s)) (Clock.number_frames s))
      as [Hlt|Hge].
    + rewrite (clock_out_load _ _ _ _ Hs Hlt).
      rewrite (ClockFacts.clock_access_load _ _ _ Hscan Hlt) in Hq.
      injection Hq as <-.
      eexists. do 4 (split; [done|]). split; [by intros ->|].
      intros ->. unfold Clock.referenced, Clock.count_referenced.
      split; cbn; unfold len;
        rewrite ?length_fmap, ?filter_app, ?length_app;
        cbn [length]; count_lines.
      rewrite filter_cons_True by done. simpl. lia.
    + assert (ClockFacts.full s) as Hfull by (split; [done|lia|done]).
      destruct (clock_out_evict s out _ (is_write_of a) Hfull Hs)
        as (i & s2 & victim & chances & Hfind & Hpost & Hv & Hsc & Hon & ->).
      destruct (ClockFacts.clock_access_evict s _ (is_write_of a) Hfull Hscan)
        as (i' & s2' & victim' & Hfind' & _ & Hv' & Hacc).
      rewrite Hfind in Hfind'. injection Hfind' as <- <-.
      assert (victim' = victim) as -> by congruence.
      rewrite Hacc in Hq. injection Hq as <-.
      eexists. do 4 (split; [done|]). split; [by intros ->|].
      intros Hd. rewrite Hd. specialize (Hon Hd).
      destruct Hpost as [Hi _ Hct _ _ _ _ _ (f & Hf & Hclear)].
      assert (f = victim) as -> by congruence.
      assert (length (Clock.frames s2) = length (Clock.frames s)) as Hlen.
      { rewrite <- (length_fmap Clock.content (Clock.frames s2)), Hct.
        by rewrite length_fmap. }
      pose proof (ClockOutFacts.count_referenced_set (Clock.frames s2)
                    (Z.to_nat i) victim
                    (Clock.Frame (page_of a) (is_write_of a) 1) Hv Hclear
                    ltac:(done)) as Hset.
      destruct (lines_with_second_chance _ Hsc)
        as (E1 & E2 & E3 & E4 & E5 & E6).
      unfold Clock.referenced, Clock.count_referenced in *.
      split; cbn; unfold len in *;
        rewrite ?length_fmap, ?length_insert, ?Hlen, ?Hset;
        destruct (Clock.dirty victim); count_lines.
Qed.

(** ** Runs with output *)

Lemma lru_calls_inert (cs : list call) (b : bool) (s : Lru.t)
    (out : list string) :
  LruFacts.Inv s ->
  exists lines,
    invoke_all cs (Lru.with_debug b s, out) =
    (Ok tt,
     (Lru.with_debug (debug_after b cs) (after (accesses cs) s),
      out ++ lines)) /\
    (b = false -> SetDebug ∉ cs -> lines = []).
Proof.
  apply (invoke_all_inert LruFacts.Inv Lru.resident Lru.debug Lru.with_debug
           (fun _ => 0) lru_out_step); try done.
  - intros b' s' a. rewrite LruFacts.lru_perform_access.
    apply lru_debug_irrelevant.
  - intros b' s' [? ? ? ?]. by split.
Qed.

Lemma lru_accesses_tally (accs : list access) (s : Lru.t)
    (out : list string) :
  LruFacts.Inv s -> Lru.debug s = true ->
  exists lines,
    invoke_all (Access <$> accs) (s, out) =
    (Ok tt, (after accs s, out ++ lines)) /\
    tally Lru.resident (fun _ => 0) (len accs) s (after accs s) lines.
Proof.
  apply (invoke_all_tally LruFacts.Inv Lru.resident Lru.debug (fun _ => 0)
           lru_out_step).
Qed.

Lemma rand_calls_inert (cs : list call) (b : bool) (s : Rand.t)
    (out : list string) :
  RandFacts.Inv s ->
  exists lines,
    invoke_all cs (Rand.with_debug b s, out) =
    (Ok tt,
     (Rand.with_debug (debug_after b cs) (after (accesses cs) s),
      out ++ lines)) /\
    (b = false -> SetDebug ∉ cs -> lines = []).
Proof.
  apply (invoke_all_inert RandFacts.Inv Rand.resident Rand.debug
           Rand.with_debug (fun _ => 0) rand_out_step); try done.
  - intros b' s' a. rewrite RandFacts.rand_perform_access.
    apply rand_debug_irrelevant.
  - intros b' s' [? ? ?]. by split.
Qed.

Lemma rand_accesses_tally (accs : list access) (s : Rand.t)
    (out : list string) :
  RandFacts.Inv s -> Rand.debug s = true ->
  exists lines,
    invoke_all (Access <$> accs) (s, out) =
    (Ok tt, (after accs s, out ++ lines)) /\
    tally Rand.resident (fun _ => 0) (len accs) s (after accs s) lines.
Proof.
  apply (invoke_all_tally RandFacts.Inv Rand.resident Rand.debug (fun _ => 0)
           rand_out_step).
Qed.

Lemma clock_calls_inert (cs : list call) (b : bool) (s : Clock.t)
    (out : list string) :
  ClockFacts.Inv s ->
  exists lines,
    invoke_all cs (Clock.with_debug b s, out) =
    (Ok tt,
     (Clock.with_debug (debug_after b cs) (after (accesses cs) s),
      out ++ lines)) /\
    (b = false -> SetDebug ∉ cs -> lines = []).
Proof.
  apply (invoke_all_inert ClockFacts.Inv Clock.resident Clock.debug
           Clock.with_debug (fun s => Z.of_nat (Clock.referenced s))
           clock_out_step); try done.
  - intros b' s' a. rewrite ClockFacts.clock_perform_access.
    apply clock_debug_irrelevant.
  - intros b' s' [? ? ? ?]. by split.
Qed.

Lemma clock_accesses_tally (accs : list access) (s : Clock.t)
    (out : list string) :
  ClockFacts.Inv s -> Clock.debug s = true ->
  exists lines,
    invoke_all (Access <$> accs) (s, out) =
    (Ok tt, (after accs s, out ++ lines)) /\
    tally Clock.resident (fun s => Z.of_nat (Clock.referenced s))
      (len accs) s (after accs s) lines.
Proof.
  apply (invoke_all_tally ClockFacts.Inv Clock.resident Clock.debug
           (fun s => Z.of_nat (Clock.referenced s)) clock_out_step).
Qed.






